(** * marginPolish: the command-line driver, embedded in Rocq

    This development follows [marginPolish.c].  The driver is a long
    [main] that parses options, checks its input files, reads the
    parameters and the reference, opens the output FASTA files, builds
    the chunker, polishes every chunk into a slot of a result array and
    finally merges the slots contig by contig.

    Everything the driver calls but does not define (the C library,
    sonLib, the chunker, the POA engine, the merger) is a field of the
    record [World]; the driver's own control flow is translated
    statement by statement, without its timing and memory management
    and without the lines of [st_logInfo], [st_logDebug] and
    [st_logCritical], which depend on the log level (one of them is
    kept: the line that reports the chunk count).  A run yields the
    trace of its observable actions and the way the process ends. *)

From Stdlib Require Import ZArith Ascii String List Lia Permutation DecimalString.
From stdpp Require Import base tactics option list strings gmap.

Local Open Scope Z_scope.
Local Open Scope string_scope.
Local Open Scope list_scope.

(** ** Pieces of the C library used by the driver *)

Module CLib.

(** [isspace] in the C locale: space, \t, \n, \v, \f, \r. *)
Definition isspace (c : ascii) : bool :=
  let n := nat_of_ascii c in
  (n =? 32)%nat || ((9 <=? n)%nat && (n <=? 13)%nat).

Definition isdigit (c : ascii) : bool :=
  let n := nat_of_ascii c in (48 <=? n)%nat && (n <=? 57)%nat.

Fixpoint skip_space (s : string) : string :=
  match s with
  | String c r => if isspace c then skip_space r else s
  | EmptyString => s
  end.

Fixpoint digits (acc : Z) (s : string) : Z :=
  match s with
  | String c r =>
      if isdigit c then digits (10 * acc + (Z.of_nat (nat_of_ascii c) - 48)) r
      else acc
  | EmptyString => acc
  end.

(** [strtol(s, NULL, 10)]: leading white space, an optional sign, the
    longest run of digits; the result saturates at the bounds of
    [long] (64 bits). *)
Definition strtol (s : string) : Z :=
  let v := match skip_space s with
           | String "-" r => - digits 0 r
           | String "+" r => digits 0 r
           | r => digits 0 r
           end in
  Z.max (- 2 ^ 63) (Z.min (2 ^ 63 - 1) v).

(** Conversion of a [long] to [int]: the value wraps at 32 bits. *)
Definition to_int (z : Z) : Z := (z + 2 ^ 31) mod 2 ^ 32 - 2 ^ 31.

(** [atoi(s)] is [(int) strtol(s, NULL, 10)]. *)
Definition atoi (s : string) : Z := to_int (strtol s).

(** Lower-casing of one character, for [strcasecmp]. *)
Definition tolower (c : ascii) : ascii :=
  let n := nat_of_ascii c in
  if (65 <=? n)%nat && (n <=? 90)%nat then ascii_of_nat (n + 32) else c.

Fixpoint strlower (s : string) : string :=
  match s with
  | String c r => String (tolower c) (strlower r)
  | EmptyString => EmptyString
  end.

(** *** [sscanf(s, "%s", buf)] into a buffer of [cap] bytes

    The directive skips white space and then stores the longest run
    of characters that are not white space, followed by a NUL.  With
    no such character the call returns [EOF]; a run that does not
    fit the buffer with its NUL writes past the buffer. *)
Inductive scan := ScanEOF | ScanOne (tok : string) | ScanOverflow.

Fixpoint take_token (s : string) : string :=
  match s with
  | String c r => if isspace c then EmptyString else String c (take_token r)
  | EmptyString => EmptyString
  end.

Definition sscanf_s (cap : nat) (s : string) : scan :=
  match skip_space s with
  | EmptyString => ScanEOF
  | r => let tok := take_token r in
         if (String.length tok <? cap)%nat then ScanOne tok else ScanOverflow
  end.

(** *** [getopt_long] (GNU, default permuting mode)

    One result per call: the key returned and the value left in
    [optarg].  The end of the list stands for the final [-1]. *)
Record opt := Opt { key : ascii; optarg : option string }.

Record long_option := LongOpt { lo_name : string; lo_has_arg : bool; lo_val : ascii }.

(** Position of [c] in the option string: [None] when it is absent,
    otherwise whether a colon follows it. *)
Fixpoint short_lookup (optstring : string) (c : ascii) : option bool :=
  match optstring with
  | EmptyString => None
  | String d r =>
      if Ascii.eqb c d
      then Some match r with String ":" _ => true | _ => false end
      else short_lookup r c
  end.

(** The characters of one [-abc] word after the dash.  [next] is the
    following word of the command line; the boolean tells whether it
    was taken as an argument. *)
Fixpoint short_cluster (optstring : string) (cs : string) (next : option string)
  : list opt * bool :=
  match cs with
  | EmptyString => ([], false)
  | String c rest =>
      let unknown :=
        let '(os, b) := short_cluster optstring rest next in
        (Opt "?" None :: os, b) in
      if Ascii.eqb c ":" || Ascii.eqb c ";" then unknown else
      match short_lookup optstring c with
      | None => unknown
      | Some false =>
          let '(os, b) := short_cluster optstring rest next in
          (Opt c None :: os, b)
      | Some true =>
          match rest with
          | String _ _ => ([Opt c (Some rest)], false)
          | EmptyString =>
              match next with
              | Some a => ([Opt c (Some a)], true)
              | None => ([Opt "?" None], false)
              end
          end
      end
  end.

(** Split [name=value] at the first equals sign. *)
Fixpoint split_eq (s : string) : string * option string :=
  match s with
  | EmptyString => (EmptyString, None)
  | String "=" r => (EmptyString, Some r)
  | String c r => let '(n, v) := split_eq r in (String c n, v)
  end.

Definition same_option (a b : long_option) : bool :=
  Bool.eqb (lo_has_arg a) (lo_has_arg b) && Ascii.eqb (lo_val a) (lo_val b).

(** Exact match first; otherwise the abbreviation must be
    unambiguous. *)
Definition long_lookup (table : list long_option) (name : string)
  : option long_option :=
  match List.find (fun o => String.eqb (lo_name o) name) table with
  | Some o => Some o
  | None =>
      match List.filter (fun o => String.prefix name (lo_name o)) table with
      | o :: os => if forallb (same_option o) os then Some o else None
      | [] => None
      end
  end.

(** One [--name] or [--name=value] word, without the two dashes. *)
Definition long_word (table : list long_option) (w : string) (next : option string)
  : opt * bool :=
  let '(name, value) := split_eq w in
  match long_lookup table name with
  | None => (Opt "?" None, false)
  | Some o =>
      match value with
      | Some v => if lo_has_arg o then (Opt (lo_val o) (Some v), false)
                  else (Opt "?" None, false)
      | None =>
          if lo_has_arg o then
            match next with
            | Some a => (Opt (lo_val o) (Some a), true)
            | None => (Opt "?" None, false)
            end
          else (Opt (lo_val o) None, false)
      end
  end.

(** The results of the successive calls over the words that follow
    the program name.  Words that are not options are skipped (they
    are permuted to the end), [--] ends the scan. *)
Fixpoint getopt_long (optstring : string) (table : list long_option)
    (words : list string) : list opt :=
  match words with
  | [] => []
  | w :: rest =>
      let next := head rest in
      let after (taken : bool) :=
        if taken then match rest with
                      | _ :: rest' => getopt_long optstring table rest'
                      | [] => []
                      end
        else getopt_long optstring table rest in
      match w with
      | String "-" (String "-" EmptyString) => []
      | String "-" (String "-" lw) =>
          let '(o, taken) := long_word table lw next in o :: after taken
      | String "-" (String c cs) =>
          let '(os, taken) := short_cluster optstring (String c cs) next in
          os ++ after taken
      | _ => after false
      end
  end.

(** *** [printf] directives for a 64-bit integer

    [%ld] prints the decimal digits after a minus sign for a negative
    number; [%05ld] pads with zeros between the sign and the digits up
    to a width of five. *)
Definition printf_d (z : Z) : string := NilZero.string_of_int (Z.to_int z).

Definition printf_05d (z : Z) : string :=
  let sign := if (z <? 0)%Z then "-" else "" in
  let digits := NilZero.string_of_int (Z.to_int (Z.abs z)) in
  sign +:+
  string_of_list_ascii
    (repeat "0"%char (5 - String.length sign - String.length digits))
  +:+ digits.

End CLib.

(** ** Data of the driver *)

(** The feature variants of [helenFeatures.h]. *)
Inductive HelenFeatureType :=
| HFEAT_NONE
| HFEAT_SIMPLE_WEIGHT
| HFEAT_SPLIT_RLE_WEIGHT
| HFEAT_CHANNEL_RLE_WEIGHT
| HFEAT_DIPLOID_RLE_WEIGHT.

(** Modelled from the spec: the default run-length cap of the split
    feature, a macro of [helenFeatures.h] (a header that [marginPolish.c]
    includes and that is not among the sources); the specification gives
    it as 10. *)
Definition POAFEATURE_SPLIT_MAX_RUN_LENGTH_DEFAULT : Z := 10.

(** Modelled from the spec: the default cap of the channel feature, a
    macro of the same header; the specification gives it as 12. *)
Definition POAFEATURE_CHANNEL_MAX_RUN_LENGTH_DEFAULT : Z := 12.

(** Modelled from the spec: the default cap of the diploid feature, a
    macro of the same header; the specification gives it as 50. *)
Definition POAFEATURE_DIPLOID_MAX_RUN_LENGTH_DEFAULT : Z := 50.

(** The fields of [params->polishParams] whose value [main] uses or
    assigns.  The other fields, among them the pointer
    [repeatSubMatrix], which [main] hands on to the functions it calls,
    stay with the collaborators that receive the parameters. *)
Module Params.
Record PolishParams := {
  maxDepth : Z;
  useRunLengthEncoding : bool;
  shuffleChunks : bool;
  useReadAlleles : bool;
  useReadAllelesInPhasing : bool
}.

(** [params->polishParams->maxDepth = v] *)
Definition set_maxDepth (v : Z) (p : PolishParams) : PolishParams := {|
  maxDepth := v;
  useRunLengthEncoding := useRunLengthEncoding p;
  shuffleChunks := shuffleChunks p;
  useReadAlleles := useReadAlleles p;
  useReadAllelesInPhasing := useReadAllelesInPhasing p
|}.

(** [params->polishParams->useReadAlleles = v] *)
Definition set_useReadAlleles (v : bool) (p : PolishParams) : PolishParams := {|
  maxDepth := maxDepth p;
  useRunLengthEncoding := useRunLengthEncoding p;
  shuffleChunks := shuffleChunks p;
  useReadAlleles := v;
  useReadAllelesInPhasing := useReadAllelesInPhasing p
|}.
End Params.
Abbreviation PolishParams := Params.PolishParams.

Record BamChunk := {
  refSeqName : string;
  chunkBoundaryStart : Z;
  chunkStart : Z;
  chunkEnd : Z;
  chunkBoundaryEnd : Z
}.

(** A set of read identifiers ([stSet *]). *)
Definition ReadSet := list string.

(** The fields of [stGenomeFragment] that [getPaddedHaplotypeString]
    and [main] read: two [uint64_t] and the two haplotype strings,
    arrays of [uint64_t] with [length] entries each. *)
Module GenomeFragment.
Record stGenomeFragment := {
  refStart : Z;
  length : Z;
  haplotypeString1 : list Z;
  haplotypeString2 : list Z
}.
End GenomeFragment.
Abbreviation stGenomeFragment := GenomeFragment.stGenomeFragment.

(** What a diploid chunk leaves in the four result arrays. *)
Record DiploidChunk := {
  consensusH1 : string;
  consensusH2 : string;
  readsH1 : ReadSet;
  readsH2 : ReadSet
}.

(** Compile-time switches of the driver.  [_OPENMP] adds the long option
    [--threads] and the second look at the thread count; [_HDF5] adds
    the feature files, which are outside this model. *)
Record Build := { OPENMP : bool; HDF5 : bool }.

(** The collaborators of the driver.  None of them is defined in
    [marginPolish.c]; each field is the result the call has in the run
    under consideration. *)
Record World := {
  (** [access(path, R_OK) == 0] *)
  readable : string -> bool;
  (** [S_ISDIR] of the buffer filled by [stat(path, ..)].  The return
      code of [stat] is ignored by [getFileBase], so for a path that
      cannot be examined the answer is whatever the buffer held. *)
  isDir : string -> bool;
  (** [fopen(path, "w") != NULL] *)
  writable : string -> bool;
  stString_splitByString : string -> string -> list string;
  params_readParams : string -> PolishParams;
  (** [fastaReadToMap] on the named file, and the order in which
      [stHash_getKeys] lists the keys of that table. *)
  fastaReadToMap : string -> gmap string string;
  stHash_getKeys : gmap string string -> list string;
  (** The chunks held by the chunker that [bamChunker_construct2]
      returns; [chunkCount] is their number. *)
  bamChunker_construct2 : string -> option string -> PolishParams -> list BamChunk;
  stList_shuffle : list nat -> list nat;
  (** The run-length encoded strings, their two constructors and
      [rleString_expand]. *)
  RleString : Type;
  rleString_construct : string -> RleString;
  rleString_construct_no_rle : string -> RleString;
  rleString_expand : RleString -> string;
  (** A partial order alignment with the reads it was built from: the
      result of [convertToReadsAndAlignments] on the chunk and its piece
      of the reference (a null pointer is [None]), of
      [poorMansDownsample] when [maxDepth] is positive, and of
      [poa_realignAll]. *)
  Poa : Type;
  poa_realignAll : BamChunk -> option RleString -> PolishParams -> Poa;
  (** [poa->refString] *)
  refString : Poa -> RleString;
  (** [poa_estimateRepeatCountsUsingBayesianModel] works on the
      alignment in place; the field gives the alignment it leaves. *)
  poa_estimateRepeatCountsUsingBayesianModel : Poa -> PolishParams -> Poa;
  (** The bubble graph of an alignment. *)
  BubbleGraph : Type;
  bubbleGraph_constructFromPoa : Poa -> PolishParams -> BubbleGraph;
  (** [bubbleGraph_phaseBubbleGraph] and, from its two results,
      [stGenomeFragment_phaseBamChunkReads]: the genome fragment and the
      reads of the first and of the second haplotype. *)
  bubbleGraph_phaseBubbleGraph :
    BubbleGraph -> string -> Poa -> PolishParams ->
    stGenomeFragment * ReadSet * ReadSet;
  (** A fresh array at each call. *)
  bubbleGraph_getConsensusPath : BubbleGraph -> PolishParams -> list Z;
  bubbleGraph_getNewPoa : BubbleGraph -> list Z -> Poa -> PolishParams -> Poa;
  (** As its haploid counterpart, in place. *)
  poa_estimatePhasedRepeatCountsUsingBayesianModel :
    Poa -> ReadSet -> ReadSet -> PolishParams -> Poa;
  mergeContigChunksThreaded :
    list (option string) -> nat -> nat -> string -> string;
  mergeContigChunksDiploidThreaded :
    list (option string) -> list (option string) ->
    list (option ReadSet) -> list (option ReadSet) ->
    nat -> nat -> string -> string * string
}.

(** ** Effects: a trace of observable actions and an early exit

    The trace holds what the driver prints to [stderr] at every log
    level (the usage text, the message for an unknown feature type, and
    the diagnostic that [getopt_long] prints itself), the files it opens
    and writes, the log line with the chunk count, and the alignment of
    each chunk.  The lines of the logger and the reports that are
    printed at the levels [info] and [debug] only are not part of it. *)

Inductive Event :=
| EvUsage                                          (* usage() *)
| EvGetoptError                                    (* the diagnostic of getopt_long *)
| EvUnrecognizedFeatureType (optarg : string)      (* the fprintf of line 378 *)
| EvFopenW (path : string)                         (* fopen(path, "w") of an output FASTA *)
| EvChunkerSetUp (chunkCount : nat)                (* the log line of lines 549-551 *)
| EvPoaDot (base : string) (chunkIdx : nat)        (* poa_printDOT to base.poa.C<chunkIdx>... *)
| EvPoaTsv (base : string) (chunkIdx : nat)        (* poa_printCSV to base.poa.C<chunkIdx>... *)
| EvRepeatCounts (base : string) (chunkIdx : nat)  (* poa_printRepeatCountsCSV *)
| EvHaplotypedOutput (chunkIdx : nat)              (* writeHaplotypedOutput *)
| EvChunkPolished (chunkIdx : nat)                 (* poa_realignAll on the chunk *)
| EvFastaWrite (path name sequence : string).      (* fastaWrite to the file at path *)

(** How the process ends: [return n] from [main], [st_errAbort], or a
    step whose behaviour C leaves undefined (a failed [assert] counts
    here as well). *)
Inductive Outcome :=
| Return (code : Z)
| Abort (message : string)
| Undefined.

(** [st_errAbort] prints its message and calls [exit(1)]. *)
Definition exit_status (o : Outcome) : option Z :=
  match o with
  | Return c => Some c
  | Abort _ => Some 1
  | Undefined => None
  end.

Inductive Res (A : Type) :=
| Ok (a : A)
| Stop (o : Outcome).
Arguments Ok {A} a.
Arguments Stop {A} o.

Definition M (A : Type) : Type := list Event * Res A.

Definition ret {A} (a : A) : M A := ([], Ok a).

Definition bind {A B} (m : M A) (f : A -> M B) : M B :=
  match m with
  | (t, Ok a) => let '(t', r) := f a in (t ++ t', r)
  | (t, Stop o) => (t, Stop o)
  end.

Definition emit (e : Event) : M unit := ([e], Ok tt).
Definition stop {A} (o : Outcome) : M A := ([], Stop o).
Definition st_errAbort {A} (message : string) : M A := stop (Abort message).

Declare Scope driver_scope.
Delimit Scope driver_scope with driver.
Notation "x <- c1 ;; c2" := (bind c1 (fun x => c2))
  (at level 100, c1 at next level, right associativity) : driver_scope.
Notation "c1 ;; c2" := (bind c1 (fun _ => c2))
  (at level 100, right associativity) : driver_scope.
Local Open Scope driver_scope.

(** Runs a loop body over a list, threading a state. *)
Fixpoint foldM {A S} (body : S -> A -> M S) (s : S) (l : list A) : M S :=
  match l with
  | [] => ret s
  | a :: l' => s' <- body s a ;; foldM body s' l'
  end.

(** ** The local variables of [main] that hold the command line *)

Record Opts := {
  logLevelString : string;
  bamInFile : string;
  paramsFile : string;
  referenceFastaFile : string;
  outputBase : string;
  regionStr : option string;
  numThreads : Z;
  outputRepeatCountBase : option string;
  outputPoaTsvBase : option string;
  outputPoaDotBase : option string;
  outputHaplotypeBamBase : option string;
  outputHaplotypeReadsBase : option string;
  maxDepth : Z;
  diploid : bool;
  helenFeatureType : HelenFeatureType;
  setDefaultHelenFeature : bool;
  trueReferenceBam : option string;
  trueReferenceBamHap2 : option string;
  splitWeightMaxRunLength : Z
}.

(** The initial values of lines 267-290, with the three positional
    arguments of lines 299-301. *)
Definition initial_opts (bam ref params : string) : Opts := {|
  logLevelString := "critical";
  bamInFile := bam;
  paramsFile := params;
  referenceFastaFile := ref;
  outputBase := "output";
  regionStr := None;
  numThreads := 1;
  outputRepeatCountBase := None;
  outputPoaTsvBase := None;
  outputPoaDotBase := None;
  outputHaplotypeBamBase := None;
  outputHaplotypeReadsBase := None;
  maxDepth := -1;
  diploid := false;
  helenFeatureType := HFEAT_NONE;
  setDefaultHelenFeature := false;
  trueReferenceBam := None;
  trueReferenceBamHap2 := None;
  splitWeightMaxRunLength := 0
|}.

Module Set_.
(** Assignment to one local variable. *)
Definition upd (st : Opts)
    (f : forall (ll : string) (ob : string) (rs : option string) (nt : Z)
                (rc tsv dot hb hr : option string) (md : Z) (dp : bool)
                (ft : HelenFeatureType) (sd : bool) (tr tr2 : option string)
                (rl : Z), Opts) : Opts :=
  f (logLevelString st) (outputBase st) (regionStr st) (numThreads st)
    (outputRepeatCountBase st) (outputPoaTsvBase st) (outputPoaDotBase st)
    (outputHaplotypeBamBase st) (outputHaplotypeReadsBase st) (maxDepth st)
    (diploid st) (helenFeatureType st) (setDefaultHelenFeature st)
    (trueReferenceBam st) (trueReferenceBamHap2 st) (splitWeightMaxRunLength st).

Definition mk (st : Opts) ll ob rs nt rc tsv dot hb hr md dp ft sd tr tr2 rl : Opts :=
  Build_Opts ll (bamInFile st) (paramsFile st) (referenceFastaFile st)
             ob rs nt rc tsv dot hb hr md dp ft sd tr tr2 rl.

Definition logLevelString v st :=
  upd st (fun _ ob rs nt rc tsv dot hb hr md dp ft sd tr tr2 rl =>
            mk st v ob rs nt rc tsv dot hb hr md dp ft sd tr tr2 rl).
Definition outputBase v st :=
  upd st (fun ll _ rs nt rc tsv dot hb hr md dp ft sd tr tr2 rl =>
            mk st ll v rs nt rc tsv dot hb hr md dp ft sd tr tr2 rl).
Definition regionStr v st :=
  upd st (fun ll ob _ nt rc tsv dot hb hr md dp ft sd tr tr2 rl =>
            mk st ll ob v nt rc tsv dot hb hr md dp ft sd tr tr2 rl).
Definition numThreads v st :=
  upd st (fun ll ob rs _ rc tsv dot hb hr md dp ft sd tr tr2 rl =>
            mk st ll ob rs v rc tsv dot hb hr md dp ft sd tr tr2 rl).
Definition outputRepeatCountBase v st :=
  upd st (fun ll ob rs nt _ tsv dot hb hr md dp ft sd tr tr2 rl =>
            mk st ll ob rs nt v tsv dot hb hr md dp ft sd tr tr2 rl).
Definition outputPoaTsvBase v st :=
  upd st (fun ll ob rs nt rc _ dot hb hr md dp ft sd tr tr2 rl =>
            mk st ll ob rs nt rc v dot hb hr md dp ft sd tr tr2 rl).
Definition outputPoaDotBase v st :=
  upd st (fun ll ob rs nt rc tsv _ hb hr md dp ft sd tr tr2 rl =>
            mk st ll ob rs nt rc tsv v hb hr md dp ft sd tr tr2 rl).
Definition outputHaplotypeBamBase v st :=
  upd st (fun ll ob rs nt rc tsv dot _ hr md dp ft sd tr tr2 rl =>
            mk st ll ob rs nt rc tsv dot v hr md dp ft sd tr tr2 rl).
Definition outputHaplotypeReadsBase v st :=
  upd st (fun ll ob rs nt rc tsv dot hb _ md dp ft sd tr tr2 rl =>
            mk st ll ob rs nt rc tsv dot hb v md dp ft sd tr tr2 rl).
Definition maxDepth v st :=
  upd st (fun ll ob rs nt rc tsv dot hb hr _ dp ft sd tr tr2 rl =>
            mk st ll ob rs nt rc tsv dot hb hr v dp ft sd tr tr2 rl).
Definition diploid v st :=
  upd st (fun ll ob rs nt rc tsv dot hb hr md _ ft sd tr tr2 rl =>
            mk st ll ob rs nt rc tsv dot hb hr md v ft sd tr tr2 rl).
Definition helenFeatureType v st :=
  upd st (fun ll ob rs nt rc tsv dot hb hr md dp _ sd tr tr2 rl =>
            mk st ll ob rs nt rc tsv dot hb hr md dp v sd tr tr2 rl).
Definition setDefaultHelenFeature v st :=
  upd st (fun ll ob rs nt rc tsv dot hb hr md dp ft _ tr tr2 rl =>
            mk st ll ob rs nt rc tsv dot hb hr md dp ft v tr tr2 rl).
Definition trueReferenceBam v st :=
  upd st (fun ll ob rs nt rc tsv dot hb hr md dp ft sd _ tr2 rl =>
            mk st ll ob rs nt rc tsv dot hb hr md dp ft sd v tr2 rl).
Definition trueReferenceBamHap2 v st :=
  upd st (fun ll ob rs nt rc tsv dot hb hr md dp ft sd tr _ rl =>
            mk st ll ob rs nt rc tsv dot hb hr md dp ft sd tr v rl).
Definition splitWeightMaxRunLength v st :=
  upd st (fun ll ob rs nt rc tsv dot hb hr md dp ft sd tr tr2 _ =>
            mk st ll ob rs nt rc tsv dot hb hr md dp ft sd tr tr2 v).
End Set_.

(** ** Option parsing (lines 292-416) *)

(** [base] without a final slash. *)
Fixpoint drop_final_slash (base : string) : string :=
  match base with
  | EmptyString => EmptyString
  | String "/" EmptyString => EmptyString
  | String c r => String c (drop_final_slash r)
  end.

(** [getFileBase]: a directory gets the default file name appended,
    after a final slash of the argument has been cut off in place;
    anything else is copied. *)
Definition getFileBase (w : World) (base defawlt : string) : string :=
  if isDir w base
  then drop_final_slash base +:+ "/" +:+ defawlt
  else base.

(** [stString_eqcase]: equality up to the case of letters. *)
Definition stString_eqcase (a b : string) : bool :=
  String.eqb (CLib.strlower a) (CLib.strlower b).

(** The option string and the long option table of lines 305-327.  The
    entry for [threads] exists in OpenMP builds only. *)
Definition optstring : string := "a:o:v:r:p:fF:u:hL:i:j:d:t:m:n:".

Definition long_options (b : Build) : list CLib.long_option :=
  [ CLib.LongOpt "logLevel" true "a";
    CLib.LongOpt "help" false "h" ] ++
  (if OPENMP b then [ CLib.LongOpt "threads" true "t" ] else []) ++
  [ CLib.LongOpt "outputBase" true "o";
    CLib.LongOpt "region" true "r";
    CLib.LongOpt "depth" true "p";
    CLib.LongOpt "diploid" false "2";
    CLib.LongOpt "produceFeatures" false "f";
    CLib.LongOpt "featureType" true "F";
    CLib.LongOpt "trueReferenceBam" true "u";
    CLib.LongOpt "splitRleWeightMaxRL" true "L";
    CLib.LongOpt "outputRepeatCounts" true "i";
    CLib.LongOpt "outputPoaTsv" true "j";
    CLib.LongOpt "outputPoaDot" true "d";
    CLib.LongOpt "outputHaplotypeBAM" true "m";
    CLib.LongOpt "outputHaplotypeReads" true "n" ].

(** The value of [optarg] where a case reads it; a null pointer there
    would be dereferenced. *)
Definition the_optarg (o : CLib.opt) : M string :=
  match CLib.optarg o with
  | Some a => ret a
  | None => stop Undefined
  end.

(** The body of [case 'i']. *)
Definition case_i (w : World) (o : CLib.opt) (st : Opts) : M Opts :=
  a <- the_optarg o ;;
  ret (Set_.outputRepeatCountBase (Some (getFileBase w a "repeatCount")) st).

(** The choice of feature type in [case 'F']. *)
Definition parse_featureType (a : string) : option HelenFeatureType :=
  if stString_eqcase a "simpleWeight" || stString_eqcase a "simple"
  then Some HFEAT_SIMPLE_WEIGHT
  else if stString_eqcase a "rleWeight" || stString_eqcase a "splitRleWeight"
          || stString_eqcase a "split"
  then Some HFEAT_SPLIT_RLE_WEIGHT
  else if stString_eqcase a "channelRleWeight" || stString_eqcase a "channel"
  then Some HFEAT_CHANNEL_RLE_WEIGHT
  else if stString_eqcase a "diploidRleWeight" || stString_eqcase a "diploid"
  then Some HFEAT_CHANNEL_RLE_WEIGHT
  else None.

(** The [switch (key)] of lines 333-415. *)
Definition option_case (w : World) (st : Opts) (o : CLib.opt) : M Opts :=
  match CLib.key o with
  | "a"%char =>
      a <- the_optarg o ;; ret (Set_.logLevelString a st)
  | "h"%char =>
      emit EvUsage ;; stop (Return 0)
  | "o"%char =>
      a <- the_optarg o ;; ret (Set_.outputBase (getFileBase w a "output") st)
  | "r"%char =>
      a <- the_optarg o ;; ret (Set_.regionStr (Some a) st)
  | "p"%char =>
      a <- the_optarg o ;;
      let st := Set_.maxDepth (CLib.atoi a) st in
      (if (maxDepth st <? 0)%Z then st_errAbort "Invalid maxDepth" else ret tt) ;;
      (* no break here: control continues into case 'i' *)
      case_i w o st
  | "i"%char =>
      case_i w o st
  | "j"%char =>
      a <- the_optarg o ;;
      ret (Set_.outputPoaTsvBase (Some (getFileBase w a "poa")) st)
  | "d"%char =>
      a <- the_optarg o ;;
      ret (Set_.outputPoaDotBase (Some (getFileBase w a "poa")) st)
  | "m"%char =>
      a <- the_optarg o ;;
      ret (Set_.outputHaplotypeBamBase (Some (getFileBase w a "haplotype")) st)
  | "n"%char =>
      a <- the_optarg o ;;
      ret (Set_.outputHaplotypeReadsBase (Some (getFileBase w a "haplotype")) st)
  | "F"%char =>
      a <- the_optarg o ;;
      match parse_featureType a with
      | Some ft => ret (Set_.helenFeatureType ft st)
      | None =>
          emit (EvUnrecognizedFeatureType a) ;; emit EvUsage ;; stop (Return 1)
      end
  | "u"%char =>
      a <- the_optarg o ;; ret (Set_.trueReferenceBam (Some a) st)
  | "f"%char =>
      match helenFeatureType st with
      | HFEAT_NONE => ret (Set_.setDefaultHelenFeature true st)
      | _ => ret st
      end
  | "L"%char =>
      a <- the_optarg o ;;
      let st := Set_.splitWeightMaxRunLength (CLib.atoi a) st in
      if (splitWeightMaxRunLength st <=? 0)%Z
      then st_errAbort "Invalid splitRleWeightMaxRL"
      else ret st
  | "t"%char =>
      a <- the_optarg o ;;
      let st := Set_.numThreads (CLib.atoi a) st in
      if (numThreads st <=? 0)%Z
      then st_errAbort "Invalid thread count"
      else ret st
  | "2"%char =>
      ret (Set_.diploid true st)
  | _ =>
      emit EvUsage ;; stop (Return 0)
  end.

(** One turn of the [while (1)] loop: the call of [getopt_long] and
    the [switch] on its result.  [opterr] keeps its initial value 1 and
    the option string does not start with a colon, so [getopt_long]
    prints a diagnostic of its own whenever it returns ['?']. *)
Definition option_turn (w : World) (st : Opts) (o : CLib.opt) : M Opts :=
  (if Ascii.eqb (CLib.key o) "?" then emit EvGetoptError else ret tt) ;;
  option_case w st o.

(** The [while (1)] loop around [getopt_long(argc-2, &argv[2], ..)]: the
    third argument stands where the program name is expected, so the
    scan covers the words after it. *)
Definition parse_options (b : Build) (w : World) (argv : list string) (st : Opts)
  : M Opts :=
  foldM (option_turn w) st
        (CLib.getopt_long optstring (long_options b) (drop 3 argv)).

(** Lines 292-416: the argument count, the three positional arguments
    and the options. *)
Definition read_command_line (b : Build) (w : World) (argv : list string)
  : M Opts :=
  match argv with
  | _ :: bam :: ref :: params :: _ =>
      parse_options b w argv (initial_opts bam ref params)
  | _ => emit EvUsage ;; stop (Return 0)
  end.

Definition std : Build := {| OPENMP := false; HDF5 := false |}.

(** ** Checks and initialisation after the options (lines 418-517) *)

(** Lines 419-430: with [--diploid], the truth alignments are two
    comma-separated paths. *)
Definition diploid_sanity (w : World) (st : Opts) : M Opts :=
  if diploid st then
    match trueReferenceBam st with
    | Some t =>
        match stString_splitByString w t "," with
        | [p0; p1] =>
            ret (Set_.trueReferenceBamHap2 (Some p1)
                   (Set_.trueReferenceBam (Some p0) st))
        | _ => st_errAbort "If --diploid is set, --trueReferenceBam must have two comma-separated values."
        end
    | None => ret st
    end
  else ret st.

(** The test of the sibling index, as written after each
    [st_errAbort("Could not read from file ..")] for an alignment file. *)
Definition index_check (w : World) (bam : string) : M unit :=
  let idx := bam +:+ ".bai" in
  if negb (readable w idx)
  then st_errAbort "BAM does not appear to be indexed"
  else ret tt.

(** [file != NULL && access(file, R_OK) != 0] *)
Definition unreadable (w : World) (file : option string) : bool :=
  match file with
  | Some f => negb (readable w f)
  | None => false
  end.

(** Lines 433-458, statement by statement.  In the branches for the
    alignment files the abort for the unreadable file comes first and
    the index test follows it. *)
Definition sanity_check (w : World) (st : Opts) : M unit :=
  if negb (readable w (bamInFile st)) then
    st_errAbort (A := unit) "Could not read from file" ;;
    index_check w (bamInFile st)
  else if negb (readable w (referenceFastaFile st)) then
    st_errAbort "Could not read from file"
  else if negb (readable w (paramsFile st)) then
    st_errAbort "Could not read from file"
  else if unreadable w (trueReferenceBam st) then
    st_errAbort (A := unit) "Could not read from file" ;;
    index_check w (default "" (trueReferenceBam st))
  else if unreadable w (trueReferenceBamHap2 st) then
    st_errAbort (A := unit) "Could not read from file" ;;
    index_check w (default "" (trueReferenceBamHap2 st))
  else ret tt.

(** Lines 469-475: only OpenMP builds look at the thread count again. *)
Definition thread_init (b : Build) (st : Opts) : Opts :=
  if OPENMP b then
    if (numThreads st <=? 0)%Z then Set_.numThreads 1 st else st
  else st.

(** Lines 478-495. *)
Definition feature_init (st : Opts) : Opts :=
  let st :=
    match helenFeatureType st with
    | HFEAT_NONE =>
        if setDefaultHelenFeature st
        then Set_.helenFeatureType
               (if diploid st then HFEAT_DIPLOID_RLE_WEIGHT else HFEAT_SPLIT_RLE_WEIGHT) st
        else st
    | _ => st
    end in
  match helenFeatureType st with
  | HFEAT_NONE => st
  | ft =>
      if (splitWeightMaxRunLength st =? 0)%Z then
        match ft with
        | HFEAT_SPLIT_RLE_WEIGHT =>
            Set_.splitWeightMaxRunLength POAFEATURE_SPLIT_MAX_RUN_LENGTH_DEFAULT st
        | HFEAT_CHANNEL_RLE_WEIGHT =>
            Set_.splitWeightMaxRunLength POAFEATURE_CHANNEL_MAX_RUN_LENGTH_DEFAULT st
        | HFEAT_DIPLOID_RLE_WEIGHT =>
            Set_.splitWeightMaxRunLength POAFEATURE_DIPLOID_MAX_RUN_LENGTH_DEFAULT st
        | _ => st
        end
      else st
  end.

(** Lines 499-505: the parameters, with the depth of the command line
    when one was given. *)
Definition read_params (w : World) (st : Opts) : PolishParams :=
  let params := params_readParams w (paramsFile st) in
  if (0 <=? maxDepth st)%Z
  then Params.set_maxDepth (maxDepth st) params
  else params.

(** Lines 508-517. *)
Definition rle_check (st : Opts) (params : PolishParams) : M unit :=
  match helenFeatureType st with
  | HFEAT_SIMPLE_WEIGHT =>
      if Params.useRunLengthEncoding params
      then st_errAbort "Invalid runLengthEncoding parameter because of HELEN feature type."
      else ret tt
  | HFEAT_NONE => ret tt
  | _ =>
      if negb (Params.useRunLengthEncoding params)
      then st_errAbort "Invalid runLengthEncoding parameter because of HELEN feature type."
      else ret tt
  end.

(** ** [parseReferenceSequences] (lines 88-117) *)

(** The body of the loop for one key of the table.  [stHash_search] is
    the lookup, [stHash_insert] binds the key anew and
    [stHash_removeAndFreeKey] removes the binding.  A key bound to a
    null pointer answers [stHash_search] like an absent key. *)
Definition munge_name (referenceSequences : gmap string string)
    (fullRefSeqName : string) : M (gmap string string) :=
  match CLib.sscanf_s 128 fullRefSeqName with
  | CLib.ScanOverflow => stop Undefined
  | CLib.ScanEOF => ret referenceSequences
  | CLib.ScanOne refSeqName =>
      if negb (String.eqb fullRefSeqName refSeqName) then
        let newKey := refSeqName in
        let refSeq := referenceSequences !! fullRefSeqName in
        let inserted :=
          match refSeq with
          | Some s => <[newKey := s]> referenceSequences
          | None => delete newKey referenceSequences
          end in
        ret (delete fullRefSeqName inserted)
      else ret referenceSequences
  end.

Definition parseReferenceSequences (w : World) (referenceFastaFile : string)
  : M (gmap string string) :=
  let referenceSequences := fastaReadToMap w referenceFastaFile in
  let refSeqNames := stHash_getKeys w referenceSequences in
  foldM munge_name referenceSequences refSeqNames.

(** ** Output files (lines 528-545) *)

Definition polishedReferenceOutFile (st : Opts) : string :=
  outputBase st +:+ (if diploid st then ".h1.fa" else ".fa").

Definition polishedReferenceOutFileH2 (st : Opts) : string :=
  outputBase st +:+ ".h2.fa".

Definition open_outputs (w : World) (st : Opts) : M unit :=
  emit (EvFopenW (polishedReferenceOutFile st)) ;;
  (if negb (writable w (polishedReferenceOutFile st))
   then st_errAbort "Could not open for writing!" else ret tt) ;;
  if diploid st then
    emit (EvFopenW (polishedReferenceOutFileH2 st)) ;;
    if negb (writable w (polishedReferenceOutFileH2 st))
    then st_errAbort "Could not open for writing!" else ret tt
  else ret tt.

(** ** The chunk loop (lines 569-883) *)

(** The result arrays.  [st_calloc] fills them with null pointers; the
    three arrays of the diploid case are not allocated otherwise. *)
Record Results := {
  chunkResults : list (option string);
  chunkResultsH2 : list (option string);
  readSetsH1 : list (option ReadSet);
  readSetsH2 : list (option ReadSet)
}.

Definition allocate_results (is_diploid : bool) (chunkCount : nat) : Results := {|
  chunkResults := replicate chunkCount None;
  chunkResultsH2 := if is_diploid then replicate chunkCount None else [];
  readSetsH1 := if is_diploid then replicate chunkCount None else [];
  readSetsH2 := if is_diploid then replicate chunkCount None else []
|}.

(** Lines 584-590. *)
Definition make_chunkOrder (w : World) (params : PolishParams) (chunkCount : nat)
  : list nat :=
  let chunkOrder := seq 0 chunkCount in
  if Params.shuffleChunks params then stList_shuffle w chunkOrder else chunkOrder.

(** An element of an array or list; an index out of range is outside
    what C defines. *)
Definition get {A} (l : list A) (i : nat) : M A :=
  match l !! i with
  | Some a => ret a
  | None => stop Undefined
  end.

Definition when (c : bool) (m : M unit) : M unit := if c then m else ret tt.

Definition is_set (base : option string) : bool :=
  match base with Some _ => true | None => false end.

(** The stores into the result arrays: lines 814-817 in diploid mode,
    line 857 otherwise. *)
Definition store_diploid (res : Results) (chunkIdx : nat) (d : DiploidChunk)
  : Results := {|
  chunkResults := <[chunkIdx := Some (consensusH1 d)]> (chunkResults res);
  chunkResultsH2 := <[chunkIdx := Some (consensusH2 d)]> (chunkResultsH2 res);
  readSetsH1 := <[chunkIdx := Some (readsH1 d)]> (readSetsH1 res);
  readSetsH2 := <[chunkIdx := Some (readsH2 d)]> (readSetsH2 res)
|}.

Definition store_haploid (res : Results) (chunkIdx : nat)
    (polishedConsensusString : string) : Results := {|
  chunkResults := <[chunkIdx := Some polishedConsensusString]> (chunkResults res);
  chunkResultsH2 := chunkResultsH2 res;
  readSetsH1 := readSetsH1 res;
  readSetsH2 := readSetsH2 res
|}.

(** ** The two helpers of the chunk loop (lines 229-261) *)

(** [stString_getSubString(cA, start, length)] copies [length] bytes
    from [cA + start]; a piece that is not inside the string is outside
    what C defines. *)
Definition stString_getSubString (cA : string) (start length : Z) : M string :=
  if (0 <=? start)%Z && (0 <=? length)%Z
     && (start + length <=? Z.of_nat (String.length cA))%Z
  then ret (substring (Z.to_nat start) (Z.to_nat length) cA)
  else stop Undefined.

(** [bamChunk_getReferenceSubstring].  The two constructors of
    [RleString] are collaborators; the result is [None] for the null
    pointer. *)
Definition bamChunk_getReferenceSubstring {RleString : Type}
    (rleString_construct rleString_construct_no_rle : string -> RleString)
    (bamChunk : BamChunk) (referenceSequences : gmap string string)
    (params : PolishParams) : M (option RleString) :=
  match referenceSequences !! refSeqName bamChunk with
  | None => ret None
  | Some fullReferenceString =>
      let refLen := Z.of_nat (String.length fullReferenceString) in
      referenceString <-
        stString_getSubString fullReferenceString (chunkBoundaryStart bamChunk)
          ((if (refLen <? chunkBoundaryEnd bamChunk)%Z
            then refLen else chunkBoundaryEnd bamChunk)
           - chunkBoundaryStart bamChunk) ;;
      ret (Some (if Params.useRunLengthEncoding params
                 then rleString_construct referenceString
                 else rleString_construct_no_rle referenceString))
  end.

(** Arithmetic on [uint64_t]. *)
Definition uint64 (z : Z) : Z := z mod 2 ^ 64.

(** [a[i]] and [a[i] = x] for an index held in a [uint64_t]. *)
Definition load {A} (a : list A) (i : Z) : M A := get a (Z.to_nat i).

Definition store {A} (a : list A) (i : Z) (x : A) : M (list A) :=
  if (Z.to_nat i <? List.length a)%nat
  then ret (<[Z.to_nat i := x]> a)
  else stop Undefined.

(** [getPaddedHaplotypeString].  [consensusPath] is the array that
    [bubbleGraph_getConsensusPath] returns; the loop writes into it. *)
Definition getPaddedHaplotypeString (hap : list Z) (gf : stGenomeFragment)
    (consensusPath : list Z) : M (list Z) :=
  foldM (fun paddedHap k =>
           let i := Z.of_nat k in
           x <- load hap i ;;
           store paddedHap (uint64 (i + GenomeFragment.refStart gf)) x)
        consensusPath
        (seq 0 (Z.to_nat (GenomeFragment.length gf))).

(** ** One iteration of the chunk loop (lines 599-883) *)

(** The name of a dump file: the base, the kind of dump, the chunk
    index on five digits, the contig with the bounds of the chunk, and
    the extension (lines 726-728, 735-737 and 744-746). *)
Definition dump_filename (base kind : string) (chunkIdx : nat)
    (bamChunk : BamChunk) (extension : string) : string :=
  base +:+ "." +:+ kind +:+ ".C" +:+ CLib.printf_05d (Z.of_nat chunkIdx)
  +:+ "." +:+ refSeqName bamChunk
  +:+ "-" +:+ CLib.printf_d (chunkBoundaryStart bamChunk)
  +:+ "-" +:+ CLib.printf_d (chunkBoundaryEnd bamChunk)
  +:+ "." +:+ extension.

(** [fopen(filename, "w")], the printing of the dump into the stream
    and [fclose], with no test of the stream in between: a stream that
    could not be opened is a null pointer, and printing to it is
    outside what C defines. *)
Definition dump (w : World) (filename : string) (e : Event) : M unit :=
  if writable w filename then emit e else stop Undefined.

(** Lines 840-849: the haploid case, from the alignment to the
    expanded consensus string. *)
Definition polish_haploid (w : World) (params : PolishParams) (poa : Poa w)
  : string :=
  let poa :=
    if Params.useRunLengthEncoding params
    then poa_estimateRepeatCountsUsingBayesianModel w poa params
    else poa in
  let polishedRleConsensus := refString w poa in
  rleString_expand w polishedRleConsensus.

(** Lines 755-812: the diploid case, from the alignment to the two
    consensus strings and the two read sets.  [useReadAlleles] is
    overwritten for the construction of the bubble graph and restored
    after it; the parameters are one object shared by all iterations,
    so in an OpenMP build the other threads see the overwritten field
    meanwhile.  The report of lines 774-791 reads the bubble graph for
    the logger only and is left out with the log lines. *)
Definition polish_diploid (w : World) (params : PolishParams)
    (bamChunk : BamChunk) (poa : Poa w) : M DiploidChunk :=
  let useReadAlleles := Params.useReadAlleles params in
  let params :=
    Params.set_useReadAlleles (Params.useReadAllelesInPhasing params) params in
  let bg := bubbleGraph_constructFromPoa w poa params in
  let params := Params.set_useReadAlleles useReadAlleles params in
  let phased := bubbleGraph_phaseBubbleGraph w bg (refSeqName bamChunk) poa params in
  let gf := phased.1.1 in
  let readsBelongingToHap1 := phased.1.2 in
  let readsBelongingToHap2 := phased.2 in
  hap1 <- getPaddedHaplotypeString (GenomeFragment.haplotypeString1 gf) gf
            (bubbleGraph_getConsensusPath w bg params) ;;
  hap2 <- getPaddedHaplotypeString (GenomeFragment.haplotypeString2 gf) gf
            (bubbleGraph_getConsensusPath w bg params) ;;
  let poa_hap1 := bubbleGraph_getNewPoa w bg hap1 poa params in
  let poa_hap2 := bubbleGraph_getNewPoa w bg hap2 poa params in
  let poa_hap1 :=
    if Params.useRunLengthEncoding params
    then poa_estimatePhasedRepeatCountsUsingBayesianModel w poa_hap1
           readsBelongingToHap1 readsBelongingToHap2 params
    else poa_hap1 in
  let poa_hap2 :=
    if Params.useRunLengthEncoding params
    then poa_estimatePhasedRepeatCountsUsingBayesianModel w poa_hap2
           readsBelongingToHap2 readsBelongingToHap1 params
    else poa_hap2 in
  ret {| consensusH1 := rleString_expand w (refString w poa_hap1);
         consensusH2 := rleString_expand w (refString w poa_hap2);
         readsH1 := readsBelongingToHap1;
         readsH2 := readsBelongingToHap2 |}.

(** One iteration of the loop of lines 599-883. *)
Definition polish_chunk (w : World) (st : Opts) (params : PolishParams)
    (referenceSequences : gmap string string) (chunks : list BamChunk)
    (chunkOrder : list nat) (res : Results) (i : nat) : M Results :=
  chunkIdx <- get chunkOrder i ;;
  bamChunk <- get chunks chunkIdx ;;
  fullReferenceString <-
    match referenceSequences !! refSeqName bamChunk with
    | Some s => ret s
    | None => st_errAbort "ERROR: Reference sequence missing from reference map. Perhaps the BAM and REF are mismatched?"
    end ;;
  let fullRefLen := Z.of_nat (String.length fullReferenceString) in
  (if (fullRefLen <? chunkBoundaryStart bamChunk)%Z
   then st_errAbort "ERROR: chunk start position. Perhaps the BAM and REF are mismatched?"
   else ret tt) ;;
  rleReference <-
    bamChunk_getReferenceSubstring (rleString_construct w)
      (rleString_construct_no_rle w) bamChunk referenceSequences params ;;
  (* reads, downsampling, poa_realignAll *)
  let poa := poa_realignAll w bamChunk rleReference params in
  emit (EvChunkPolished chunkIdx) ;;
  match outputPoaDotBase st with
  | Some outputPoaDotBase =>
      dump w (dump_filename outputPoaDotBase "poa" chunkIdx bamChunk "dot")
           (EvPoaDot outputPoaDotBase chunkIdx)
  | None => ret tt
  end ;;
  match outputPoaTsvBase st with
  | Some outputPoaTsvBase =>
      dump w (dump_filename outputPoaTsvBase "poa" chunkIdx bamChunk "tsv")
           (EvPoaTsv outputPoaTsvBase chunkIdx)
  | None => ret tt
  end ;;
  match outputRepeatCountBase st with
  | Some outputRepeatCountBase =>
      dump w (dump_filename outputRepeatCountBase "repeatCount" chunkIdx bamChunk "tsv")
           (EvRepeatCounts outputRepeatCountBase chunkIdx)
  | None => ret tt
  end ;;
  if diploid st then
    d <- polish_diploid w params bamChunk poa ;;
    let res := store_diploid res chunkIdx d in
    when (is_set (outputHaplotypeBamBase st) || is_set (outputHaplotypeReadsBase st))
         (emit (EvHaplotypedOutput chunkIdx)) ;;
    ret res
  else
    let polishedConsensusString := polish_haploid w params poa in
    ret (store_haploid res chunkIdx polishedConsensusString).

(** The loop, iteration after iteration.  In an OpenMP build the
    iterations are dealt to the threads one at a time. *)
Definition polish_chunks (w : World) (st : Opts) (params : PolishParams)
    (referenceSequences : gmap string string) (chunks : list BamChunk)
    (chunkOrder : list nat) : M Results :=
  foldM (polish_chunk w st params referenceSequences chunks chunkOrder)
        (allocate_results (diploid st) (length chunks))
        (seq 0 (length chunks)).

(** ** Merging (lines 119-227) *)

(** The loop of [handleMerge] from [chunkIdx] on; [rest] holds the
    chunks at the positions [chunkIdx], [chunkIdx + 1], ... and is empty
    when [chunkIdx == chunkCount]. *)
Fixpoint merge_loop (w : World) (chunkResults : list (option string))
    (fh : string) (rest : list BamChunk)
    (chunkIdx contigStartIdx : nat) (referenceSequenceName : string) : M unit :=
  let write :=
    let contigSequence :=
      mergeContigChunksThreaded w chunkResults contigStartIdx chunkIdx
                                referenceSequenceName in
    emit (EvFastaWrite fh referenceSequenceName contigSequence) in
  match rest with
  | [] => write
  | c :: rest' =>
      if negb (String.eqb referenceSequenceName (refSeqName c)) then
        write ;;
        merge_loop w chunkResults fh rest' (S chunkIdx) chunkIdx (refSeqName c)
      else
        merge_loop w chunkResults fh rest' (S chunkIdx) contigStartIdx
                   referenceSequenceName
  end.

Definition handleMerge (w : World) (chunks : list BamChunk)
    (chunkResults : list (option string)) (polishedReferenceOutFh : string)
  : M unit :=
  match chunks with
  | [] => stop Undefined   (* assert(bamChunker->chunkCount > 0) *)
  | c0 :: rest =>
      merge_loop w chunkResults polishedReferenceOutFh rest 1 0 (refSeqName c0)
  end.

Fixpoint diploid_merge_loop (w : World) (res : Results)
    (fhH1 fhH2 : string) (rest : list BamChunk)
    (chunkIdx contigStartIdx : nat) (referenceSequenceName : string) : M unit :=
  let write :=
    let contigSequences :=
      mergeContigChunksDiploidThreaded w (chunkResults res) (chunkResultsH2 res)
        (readSetsH1 res) (readSetsH2 res) contigStartIdx chunkIdx
        referenceSequenceName in
    emit (EvFastaWrite fhH1 referenceSequenceName (fst contigSequences)) ;;
    emit (EvFastaWrite fhH2 referenceSequenceName (snd contigSequences)) in
  match rest with
  | [] => write
  | c :: rest' =>
      if negb (String.eqb referenceSequenceName (refSeqName c)) then
        write ;;
        diploid_merge_loop w res fhH1 fhH2 rest' (S chunkIdx) chunkIdx (refSeqName c)
      else
        diploid_merge_loop w res fhH1 fhH2 rest' (S chunkIdx) contigStartIdx
                           referenceSequenceName
  end.

Definition handleDiploidMerge (w : World) (chunks : list BamChunk) (res : Results)
    (polishedReferenceOutFhH1 polishedReferenceOutFhH2 : string) : M unit :=
  match chunks with
  | [] => stop Undefined   (* assert(bamChunker->chunkCount > 0) *)
  | c0 :: rest =>
      diploid_merge_loop w res polishedReferenceOutFhH1 polishedReferenceOutFhH2
                         rest 1 0 (refSeqName c0)
  end.

(** ** [main] *)

(** Lines 418-545: from the parsed command line to the open output
    files. *)
Record Startup := {
  su_opts : Opts;
  su_params : PolishParams;
  su_reference : gmap string string
}.

Definition startup (b : Build) (w : World) (st : Opts) : M Startup :=
  st <- diploid_sanity w st ;;
  sanity_check w st ;;
  let st := thread_init b st in
  let st := feature_init st in
  let params := read_params w st in
  rle_check st params ;;
  referenceSequences <- parseReferenceSequences w (referenceFastaFile st) ;;
  open_outputs w st ;;
  ret {| su_opts := st; su_params := params; su_reference := referenceSequences |}.

(** Lines 547-554: the chunker, the log line with its chunk count, and
    the test for an empty set of chunks. *)
Definition set_up_chunker (w : World) (s : Startup) : M (list BamChunk) :=
  let chunks :=
    bamChunker_construct2 w (bamInFile (su_opts s)) (regionStr (su_opts s))
                          (su_params s) in
  emit (EvChunkerSetUp (length chunks)) ;;
  (if (length chunks =? 0)%nat
   then st_errAbort "> Found no valid reads!" else ret tt) ;;
  ret chunks.

(** Lines 569-939: result arrays, chunk order, the chunk loop, the
    merge, and [return 0]. *)
Definition polish_and_merge (w : World) (s : Startup) (chunks : list BamChunk)
  : M Z :=
  let st := su_opts s in
  let chunkOrder := make_chunkOrder w (su_params s) (length chunks) in
  res <- polish_chunks w st (su_params s) (su_reference s) chunks chunkOrder ;;
  (if diploid st
   then handleDiploidMerge w chunks res
          (polishedReferenceOutFile st) (polishedReferenceOutFileH2 st)
   else handleMerge w chunks (chunkResults res) (polishedReferenceOutFile st)) ;;
  ret 0%Z.

(** The end of the process: the value [main] returns, or the early
    exit. *)
Definition outcome_of (r : Res Z) : Outcome :=
  match r with
  | Ok code => Return code
  | Stop o => o
  end.

Definition run (m : M Z) : list Event * Outcome := (m.1, outcome_of m.2).

Definition main (b : Build) (w : World) (argv : list string) : list Event * Outcome :=
  run (st <- read_command_line b w argv ;;
       s <- startup b w st ;;
       chunks <- set_up_chunker w s ;;
       polish_and_merge w s chunks).

(** ** A small world to run the driver in

    One contig whose FASTA header carries metadata, two chunks, every
    input readable except the alignment index.  The alignment of a
    chunk is the piece of the reference between [chunkStart] and
    [chunkEnd], the repeat-count estimation leaves it as it is, and the
    phasing makes the second haplotype the first one in lower case. *)
Module Sample.

Definition files : list string := ["in.bam"; "ref.fa"; "params.json"].

Definition chunk (name : string) (bs s e be : Z) : BamChunk :=
  {| refSeqName := name; chunkBoundaryStart := bs; chunkStart := s;
     chunkEnd := e; chunkBoundaryEnd := be |}.

(** Splits at every occurrence of a one-character separator. *)
Fixpoint split_at (sep : ascii) (s : string) : list string :=
  match s with
  | EmptyString => [EmptyString]
  | String c r =>
      if Ascii.eqb c sep then EmptyString :: split_at sep r
      else match split_at sep r with
           | p :: ps => String c p :: ps
           | [] => [String c EmptyString]
           end
  end.

Definition concat_slots (slots : list (option string)) (from to : nat) : string :=
  String.concat "" (omap id (take (to - from) (drop from slots))).

Definition world : World := {|
  readable := fun p => existsb (String.eqb p) files;
  isDir := fun _ => false;
  writable := fun _ => true;
  stString_splitByString := fun s sep =>
    match sep with String c _ => split_at c s | EmptyString => [s] end;
  params_readParams := fun _ =>
    {| Params.maxDepth := 64; Params.useRunLengthEncoding := true;
       Params.shuffleChunks := true; Params.useReadAlleles := false;
       Params.useReadAllelesInPhasing := true |};
  fastaReadToMap := fun _ => {[ "contig1 length=8" := "ACGTACGT" ]};
  stHash_getKeys := fun m => (map_to_list m).*1;
  bamChunker_construct2 := fun _ _ _ =>
    [chunk "contig1" 0 0 4 6; chunk "contig1" 2 4 8 8];
  stList_shuffle := @rev nat;
  RleString := string;
  rleString_construct := fun s => s;
  rleString_construct_no_rle := fun s => s;
  rleString_expand := fun s => s;
  Poa := string;
  poa_realignAll := fun c reference _ =>
    substring (Z.to_nat (chunkStart c - chunkBoundaryStart c))
              (Z.to_nat (chunkEnd c - chunkStart c)) (default "" reference);
  refString := fun poa => poa;
  poa_estimateRepeatCountsUsingBayesianModel := fun poa _ => poa;
  BubbleGraph := string;
  bubbleGraph_constructFromPoa := fun poa _ => poa;
  bubbleGraph_phaseBubbleGraph := fun _ _ _ _ =>
    ({| GenomeFragment.refStart := 1; GenomeFragment.length := 2;
        GenomeFragment.haplotypeString1 := [1; 0];
        GenomeFragment.haplotypeString2 := [0; 1] |}, ["r1"], ["r2"]);
  bubbleGraph_getConsensusPath := fun _ _ => [0; 0; 0; 0];
  bubbleGraph_getNewPoa := fun _ hap poa _ =>
    match hap with
    | _ :: 1 :: _ => poa
    | _ => CLib.strlower poa
    end;
  poa_estimatePhasedRepeatCountsUsingBayesianModel := fun poa _ _ _ => poa;
  mergeContigChunksThreaded := fun slots from to _ => concat_slots slots from to;
  mergeContigChunksDiploidThreaded := fun s1 s2 _ _ from to _ =>
    (concat_slots s1 from to, concat_slots s2 from to)
|}.

Definition argv (options : list string) : list string :=
  ["marginPolish"; "in.bam"; "ref.fa"; "params.json"] ++ options.

(** The sample world with another reference and other chunks. *)
Definition world_with (reference : gmap string string) (chunks : list BamChunk)
  : World := {|
  readable := readable world;
  isDir := isDir world;
  writable := writable world;
  stString_splitByString := stString_splitByString world;
  params_readParams := params_readParams world;
  fastaReadToMap := fun _ => reference;
  stHash_getKeys := stHash_getKeys world;
  bamChunker_construct2 := fun _ _ _ => chunks;
  stList_shuffle := stList_shuffle world;
  RleString := RleString world;
  rleString_construct := rleString_construct world;
  rleString_construct_no_rle := rleString_construct_no_rle world;
  rleString_expand := rleString_expand world;
  Poa := Poa world;
  poa_realignAll := poa_realignAll world;
  refString := refString world;
  poa_estimateRepeatCountsUsingBayesianModel :=
    poa_estimateRepeatCountsUsingBayesianModel world;
  BubbleGraph := BubbleGraph world;
  bubbleGraph_constructFromPoa := bubbleGraph_constructFromPoa world;
  bubbleGraph_phaseBubbleGraph := bubbleGraph_phaseBubbleGraph world;
  bubbleGraph_getConsensusPath := bubbleGraph_getConsensusPath world;
  bubbleGraph_getNewPoa := bubbleGraph_getNewPoa world;
  poa_estimatePhasedRepeatCountsUsingBayesianModel :=
    poa_estimatePhasedRepeatCountsUsingBayesianModel world;
  mergeContigChunksThreaded := mergeContigChunksThreaded world;
  mergeContigChunksDiploidThreaded := mergeContigChunksDiploidThreaded world
|}.

Definition reference : gmap string string := {[ "contig1 length=8" := "ACGTACGT" ]}.

Definition chunks : list BamChunk :=
  [chunk "contig1" 0 0 4 6; chunk "contig1" 2 4 8 8].

End Sample.

(** ** Observations on a trace *)

(** The header names written to one FASTA file, in order. *)
Definition fasta_headers (path : string) (tr : list Event) : list string :=
  omap (fun e => match e with
                 | EvFastaWrite p name _ => if String.eqb p path then Some name else None
                 | _ => None
                 end) tr.

(** The files that received a contig. *)
Definition fasta_files (tr : list Event) : list string :=
  omap (fun e => match e with EvFastaWrite p _ _ => Some p | _ => None end) tr.

(** The files opened for the polished assembly. *)
Definition opened_files (tr : list Event) : list string :=
  omap (fun e => match e with EvFopenW p => Some p | _ => None end) tr.

(** The chunks whose polishing was started, in order. *)
Definition polished_chunks (tr : list Event) : list nat :=
  omap (fun e => match e with EvChunkPolished i => Some i | _ => None end) tr.

(** The bases of the repeat-count dumps. *)
Definition repeat_count_dumps (tr : list Event) : list string :=
  omap (fun e => match e with EvRepeatCounts base _ => Some base | _ => None end) tr.

(** Polishing a chunk or writing a contig. *)
Definition is_work (e : Event) : bool :=
  match e with
  | EvChunkPolished _ | EvFastaWrite _ _ _ => true
  | _ => false
  end.

(** Every event of a computation satisfies [P]. *)
Definition emits {A} (P : Event -> Prop) (m : M A) : Prop := Forall P m.1.

(** A computation that emits nothing. *)
Definition silent {A} (m : M A) : Prop := emits (fun _ => False) m.

(** An event other than the chunker's log line. *)
Definition not_chunker (e : Event) : Prop := forall n, e <> EvChunkerSetUp n.

(** The four ways a run of [main] can go. *)
Inductive main_run (b : Build) (w : World) (argv : list string) : Prop :=
| run_stops_at_options t o :
    read_command_line b w argv = (t, Stop o) ->
    main b w argv = (t, o) ->
    main_run b w argv
| run_stops_at_startup st t o :
    read_command_line b w argv = ([], Ok st) ->
    startup b w st = (t, Stop o) ->
    main b w argv = (t, o) ->
    main_run b w argv
| run_finds_no_chunk st t s :
    read_command_line b w argv = ([], Ok st) ->
    startup b w st = (t, Ok s) ->
    bamChunker_construct2 w (bamInFile (su_opts s)) (regionStr (su_opts s))
      (su_params s) = [] ->
    main b w argv = (t ++ [EvChunkerSetUp 0], Abort "> Found no valid reads!") ->
    main_run b w argv
| run_polishes st t s chunks :
    read_command_line b w argv = ([], Ok st) ->
    startup b w st = (t, Ok s) ->
    bamChunker_construct2 w (bamInFile (su_opts s)) (regionStr (su_opts s))
      (su_params s) = chunks ->
    chunks <> [] ->
    main b w argv =
      (t ++ EvChunkerSetUp (length chunks) :: (polish_and_merge w s chunks).1,
       outcome_of (polish_and_merge w s chunks).2) ->
    main_run b w argv.

(** An early exit of a computation, if any, satisfies [P]. *)
Definition stops_with {A} (P : Outcome -> Prop) (m : M A) : Prop :=
  match m.2 with
  | Stop o => P o
  | Ok _ => True
  end.

(** An exit that is not a [return] from [main]. *)
Definition not_return (o : Outcome) : Prop := forall c, o <> Return c.

(** The files that hold the polished assembly: one in haploid mode,
    two in diploid mode. *)
Definition out_files (st : Opts) : list string :=
  polishedReferenceOutFile st ::
  (if diploid st then [polishedReferenceOutFileH2 st] else []).

(** The alignment that an iteration builds for [bamChunk]: the one of
    the chunk and its piece of the reference. *)
Definition chunk_poa (w : World) (params : PolishParams)
    (referenceSequences : gmap string string) (bamChunk : BamChunk)
    (poa : Poa w) : Prop :=
  exists rleReference,
    (bamChunk_getReferenceSubstring (rleString_construct w)
       (rleString_construct_no_rle w) bamChunk referenceSequences params).2
    = Ok rleReference /\
    poa = poa_realignAll w bamChunk rleReference params.

(** Slot [j] of the result arrays holds what the polishing of chunk
    [j] yields: the consensus string (and, in diploid mode, the second
    string and the two read sets). *)
Definition holds_result (w : World) (st : Opts) (params : PolishParams)
    (referenceSequences : gmap string string)
    (chunks : list BamChunk) (res : Results) (j : nat) : Prop :=
  exists c poa, chunks !! j = Some c /\
    chunk_poa w params referenceSequences c poa /\
    if diploid st then
      exists d, (polish_diploid w params c poa).2 = Ok d /\
        chunkResults res !! j = Some (Some (consensusH1 d)) /\
        chunkResultsH2 res !! j = Some (Some (consensusH2 d)) /\
        readSetsH1 res !! j = Some (Some (readsH1 d)) /\
        readSetsH2 res !! j = Some (Some (readsH2 d))
    else
      chunkResults res !! j = Some (Some (polish_haploid w params poa)).

(** [res'] is [res] after the stores of the iteration for the chunk
    [bamChunk] of index [chunkIdx]. *)
Definition stored (w : World) (st : Opts) (params : PolishParams)
    (referenceSequences : gmap string string) (bamChunk : BamChunk)
    (res : Results) (chunkIdx : nat) (res' : Results) : Prop :=
  exists poa, chunk_poa w params referenceSequences bamChunk poa /\
    if diploid st then
      exists d, (polish_diploid w params bamChunk poa).2 = Ok d /\
                res' = store_diploid res chunkIdx d
    else res' = store_haploid res chunkIdx (polish_haploid w params poa).

(** The chunk indices found at the places [sched] of the chunk order. *)
Definition chunks_at (chunkOrder : list nat) (sched : list nat) : list nat :=
  omap (fun i => chunkOrder !! i) sched.

(** Slot [j] is the same in both states of the arrays. *)
Definition same_slot (res res' : Results) (j : nat) : Prop :=
  chunkResults res' !! j = chunkResults res !! j /\
  chunkResultsH2 res' !! j = chunkResultsH2 res !! j /\
  readSetsH1 res' !! j = readSetsH1 res !! j /\
  readSetsH2 res' !! j = readSetsH2 res !! j.

(** The arrays have [n] slots each, as allocated. *)
Definition allocated (is_diploid : bool) (n : nat) (res : Results) : Prop :=
  length (chunkResults res) = n /\
  (is_diploid = true ->
   length (chunkResultsH2 res) = n /\ length (readSetsH1 res) = n /\
   length (readSetsH2 res) = n).

(** ** Names in the reference, as the specification words them *)

(** The prefix of a name before its first white-space character. *)
Definition strip_after_whitespace (name : string) : string := CLib.take_token name.

Fixpoint has_whitespace (name : string) : bool :=
  match name with
  | EmptyString => false
  | String c r => CLib.isspace c || has_whitespace r
  end.

Definition starts_with_whitespace (name : string) : bool :=
  match name with
  | String c _ => CLib.isspace c
  | EmptyString => false
  end.

(** The key under which [munge_name] leaves a contig: the first word
    of its name, or the name itself when it has no word. *)
Definition munged_name (name : string) : string :=
  match CLib.skip_space name with
  | EmptyString => name
  | r => CLib.take_token r
  end.

(** The table [c] while the loop of [parseReferenceSequences] runs on
    the input table [m]: the names still to do are bound as in the
    input, the names done are bound under their keys, and nothing else
    is bound. *)
Definition munge_inv (m : gmap string string) (done todo : list string)
    (c : gmap string string) : Prop :=
  (forall n, n ∈ todo -> c !! n = m !! n) /\
  (forall n, n ∈ done -> c !! munged_name n = m !! n) /\
  (forall k, is_Some (c !! k) ->
             k ∈ todo \/ exists n, n ∈ done /\ k = munged_name n).

(** Looking a contig up by its stripped name gives its sequence. *)
Definition stripped_lookup_ok (w : World) (referenceFastaFile : string) : Prop :=
  exists t m',
    parseReferenceSequences w referenceFastaFile = (t, Ok m') /\
    forall name seq,
      fastaReadToMap w referenceFastaFile !! name = Some seq ->
      m' !! strip_after_whitespace name = Some seq.

(** [stHash_getKeys] lists every key of the table once. *)
Definition lists_keys (keys : list string) (m : gmap string string) : Prop :=
  NoDup keys /\ forall k, k ∈ keys <-> is_Some (m !! k).

Module Variants.

(** The sample world with a chunker that finds no chunk. *)
Definition no_chunks : World := Sample.world_with Sample.reference [].

(** The sample world with a reference of two contigs whose headers
    share their first word. *)
Definition two_haplotypes : gmap string string :=
  {[ "chr1 hap=a" := "AAAA"; "chr1 hap=b" := "CCCC" ]}.

Definition shared_first_word : World :=
  Sample.world_with two_haplotypes Sample.chunks.

(** The sample world with a reference whose only header has a blank
    after the [>]. *)
Definition blank_after_mark : World :=
  Sample.world_with {[ " contig1 length=8" := "ACGTACGT" ]} Sample.chunks.

(** The sample world with a reference whose header is a bare name. *)
Definition clean_reference : World :=
  Sample.world_with {[ "contig1" := "ACGTACGT" ]} Sample.chunks.

(** A name of 130 characters without white space, and the sample world
    with a reference that carries it. *)
Definition name_of_130 : string :=
  string_of_list_ascii (repeat "a"%char 130).

Definition long_name : World :=
  Sample.world_with {[ name_of_130 := "ACGTACGT" ]} Sample.chunks.

End Variants.

(** ** The contigs of a merge *)

(** The ranges [(contigStartIdx, chunkIdx, name)] for which the loop of
    [handleMerge] calls the merger, from [chunkIdx] on. *)
Fixpoint contig_ranges (rest : list BamChunk)
    (chunkIdx contigStartIdx : nat) (referenceSequenceName : string)
  : list (nat * nat * string) :=
  match rest with
  | [] => [(contigStartIdx, chunkIdx, referenceSequenceName)]
  | c :: rest' =>
      if negb (String.eqb referenceSequenceName (refSeqName c)) then
        (contigStartIdx, chunkIdx, referenceSequenceName)
        :: contig_ranges rest' (S chunkIdx) chunkIdx (refSeqName c)
      else contig_ranges rest' (S chunkIdx) contigStartIdx referenceSequenceName
  end.

(** Ranges that follow each other from [a] to [b], none of them empty. *)
Fixpoint tiles (a b : nat) (ranges : list (nat * nat * string)) : Prop :=
  match ranges with
  | [] => a = b
  | (s, e, _) :: ranges' => s = a /\ (s < e)%nat /\ tiles e b ranges'
  end.

(** Every chunk of a range carries the name of the range. *)
Definition range_named (chunks : list BamChunk) (r : nat * nat * string) : Prop :=
  forall i, (r.1.1 <= i < r.1.2)%nat -> refSeqName <$> chunks !! i = Some r.2.

(** Ranges that follow each other carry different names. *)
Fixpoint neighbours_differ (ranges : list (nat * nat * string)) : Prop :=
  match ranges with
  | r :: ((r' :: _) as ranges') => r.2 <> r'.2 /\ neighbours_differ ranges'
  | _ => True
  end.

(** A list of names in which equal names stand together. *)
Fixpoint grouped (names : list string) : Prop :=
  match names with
  | [] => True
  | x :: l => (x ∈ l -> head l = Some x) /\ grouped l
  end.

(** The numbers of the command line after the tests of the option
    loop: a depth is the initial -1 or not negative, the thread count
    is positive, the maximal run length is the initial 0 or positive. *)
Definition validated (st : Opts) : Prop :=
  (-1 <= maxDepth st)%Z /\ (1 <= numThreads st)%Z /\
  (0 <= splitWeightMaxRunLength st)%Z.

(** The chunk names a contig of the reference and its bounds lie in
    it: the start is not negative, not after the end and not after the
    end of the contig. *)
Definition within_reference (referenceSequences : gmap string string)
    (bamChunk : BamChunk) : Prop :=
  exists s, referenceSequences !! refSeqName bamChunk = Some s /\
            (0 <= chunkBoundaryStart bamChunk)%Z /\
            (chunkBoundaryStart bamChunk <= chunkBoundaryEnd bamChunk)%Z /\
            (chunkBoundaryStart bamChunk <= Z.of_nat (String.length s))%Z.

(** The dump files that the options ask for, for one chunk. *)
Definition dump_files (st : Opts) (chunkIdx : nat) (bamChunk : BamChunk)
  : list string :=
  match outputPoaDotBase st with
  | Some base => [dump_filename base "poa" chunkIdx bamChunk "dot"]
  | None => []
  end ++
  match outputPoaTsvBase st with
  | Some base => [dump_filename base "poa" chunkIdx bamChunk "tsv"]
  | None => []
  end ++
  match outputRepeatCountBase st with
  | Some base => [dump_filename base "repeatCount" chunkIdx bamChunk "tsv"]
  | None => []
  end.

(** The writing of a contig. *)
Definition is_write (e : Event) : bool :=
  match e with
  | EvFastaWrite _ _ _ => true
  | _ => false
  end.

(** The names of the output files for an output base and a mode. *)
Definition assembly_files (st : Opts) : list string :=
  if diploid st
  then [outputBase st +:+ ".h1.fa"; outputBase st +:+ ".h2.fa"]
  else [outputBase st +:+ ".fa"].

(** The polished assembly of the chunks [chunks] with the result arrays
    [res], as FASTA records: for each run of chunks of one contig, in
    the order of the chunks, the merge of its slots under the name of
    the contig; in diploid mode the merge of the first haplotype for the
    first file and the merge of the second haplotype for the second. *)
Definition assembly_writes (w : World) (st : Opts) (chunks : list BamChunk)
    (res : Results) : list Event :=
  match chunks with
  | [] => []
  | c0 :: rest =>
      let ranges := contig_ranges rest 1 0 (refSeqName c0) in
      if diploid st then
        flat_map (fun r =>
                    let contigSequences :=
                      mergeContigChunksDiploidThreaded w (chunkResults res)
                        (chunkResultsH2 res) (readSetsH1 res) (readSetsH2 res)
                        r.1.1 r.1.2 r.2 in
                    [EvFastaWrite (outputBase st +:+ ".h1.fa") r.2 contigSequences.1;
                     EvFastaWrite (outputBase st +:+ ".h2.fa") r.2 contigSequences.2])
                 ranges
      else
        map (fun r => EvFastaWrite (outputBase st +:+ ".fa") r.2
                        (mergeContigChunksThreaded w (chunkResults res)
                           r.1.1 r.1.2 r.2))
            ranges
  end.

(** * Properties *)

(** ** The C library pieces on examples *)

Example atoi_30 : CLib.atoi "30" = 30.
Proof. reflexivity. Qed.

Example atoi_sign_and_tail : CLib.atoi " -7x" = -7.
Proof. reflexivity. Qed.

Example atoi_wraps : CLib.atoi "4294967296" = 0.
Proof. reflexivity. Qed.

Example sscanf_metadata :
  CLib.sscanf_s 128 "contig001 length=1000" = CLib.ScanOne "contig001".
Proof. reflexivity. Qed.

Example sscanf_leading_space : CLib.sscanf_s 128 " c1 x" = CLib.ScanOne "c1".
Proof. reflexivity. Qed.

Example getopt_sample :
  CLib.getopt_long optstring (long_options std)
    ["params.json"; "-p"; "30"; "--diploid"; "-fF"; "split"; "-x"; "--"; "-h"]
  = [CLib.Opt "p" (Some "30"); CLib.Opt "2" None; CLib.Opt "f" None;
     CLib.Opt "F" (Some "split"); CLib.Opt "?" None].
Proof. reflexivity. Qed.

(** The character 2 is not in the option string: the short form of
    [--diploid] comes back as an unknown option. *)
Example getopt_short_2 :
  CLib.getopt_long optstring (long_options std) ["params.json"; "-2"]
  = [CLib.Opt "?" None].
Proof. reflexivity. Qed.

(** ** The effect monad *)

Lemma bind_Ok {A B} (t : list Event) (a : A) (f : A -> M B) :
  bind (t, Ok a) f = (t ++ (f a).1, (f a).2).
Proof. unfold bind. destruct (f a); reflexivity. Qed.

Lemma bind_Stop {A B} (t : list Event) (o : Outcome) (f : A -> M B) :
  bind (t, Stop o) f = (t, Stop o).
Proof. reflexivity. Qed.

Lemma bind_ret {A B} (a : A) (f : A -> M B) : bind (ret a) f = f a.
Proof. unfold ret. rewrite bind_Ok. simpl. destruct (f a); reflexivity. Qed.

Lemma bind_inv {A B} (m : M A) (f : A -> M B) t r :
  bind m f = (t, r) ->
  (exists o, m = (t, Stop o) /\ r = Stop o) \/
  (exists t1 a t2, m = (t1, Ok a) /\ f a = (t2, r) /\ t = t1 ++ t2).
Proof.
  destruct m as [t1 [a|o]].
  - rewrite bind_Ok. intros H. right. exists t1, a, (f a).1.
    inversion H; subst. split; [reflexivity|]. split; [|reflexivity].
    destruct (f a); reflexivity.
  - rewrite bind_Stop. intros H. inversion H; subst. left. eauto.
Qed.

Lemma emits_ret {A} P (a : A) : emits P (ret a).
Proof. constructor. Qed.

Lemma emits_stop {A} P o : emits P (@stop A o).
Proof. constructor. Qed.

Lemma emits_emit (P : Event -> Prop) e : P e -> emits P (emit e).
Proof. intros H. repeat constructor. exact H. Qed.

Lemma emits_bind {A B} P (m : M A) (f : A -> M B) :
  emits P m -> (forall a, emits P (f a)) -> emits P (bind m f).
Proof.
  unfold emits. destruct m as [t [a|o]]; intros Hm Hf.
  - rewrite bind_Ok. simpl in *. apply Forall_app. split; [exact Hm | apply Hf].
  - exact Hm.
Qed.

Lemma emits_foldM {A S} P (body : S -> A -> M S) l :
  (forall s a, emits P (body s a)) -> forall s, emits P (foldM body s l).
Proof.
  intros Hb. induction l as [|a l IH]; intros s; simpl.
  - apply emits_ret.
  - apply emits_bind; [apply Hb | intros s'; apply IH].
Qed.

Lemma emits_if {A} P (c : bool) (m1 m2 : M A) :
  emits P m1 -> emits P m2 -> emits P (if c then m1 else m2).
Proof. destruct c; auto. Qed.

Lemma emits_weaken {A} (P Q : Event -> Prop) (m : M A) :
  (forall e, P e -> Q e) -> emits P m -> emits Q m.
Proof. unfold emits. intros H Hm. eapply Forall_impl; eauto. Qed.

Arguments bind : simpl never.
Arguments ret : simpl never.
Arguments emit : simpl never.
Arguments stop : simpl never.
Arguments st_errAbort : simpl never.

Create HintDb emits.
#[local] Hint Resolve emits_ret emits_stop emits_emit emits_bind emits_foldM
  emits_if : emits.

Lemma silent_nil {A} (m : M A) : silent m -> m.1 = [].
Proof. unfold silent, emits. destruct m.1; [reflexivity|]. intros H; inversion H; contradiction. Qed.

(** ** Option parsing *)

Lemma option_case_p (w : World) (st : Opts) (D : string) :
  0 <= CLib.atoi D ->
  option_case w st (CLib.Opt "p" (Some D)) =
  ret (Set_.outputRepeatCountBase (Some (getFileBase w D "repeatCount"))
         (Set_.maxDepth (CLib.atoi D) st)).
Proof.
  intros HD.
  change (option_case w st (CLib.Opt "p" (Some D))) with
    (a <- the_optarg (CLib.Opt "p" (Some D)) ;;
     (if (maxDepth (Set_.maxDepth (CLib.atoi a) st) <? 0)%Z
      then st_errAbort "Invalid maxDepth" else ret tt) ;;
     case_i w (CLib.Opt "p" (Some D)) (Set_.maxDepth (CLib.atoi a) st)).
  change (the_optarg (CLib.Opt "p" (Some D))) with (ret D).
  rewrite bind_ret.
  change (maxDepth (Set_.maxDepth (CLib.atoi D) st)) with (CLib.atoi D).
  replace (CLib.atoi D <? 0)%Z with false by (symmetry; apply Z.ltb_ge; exact HD).
  rewrite bind_ret. unfold case_i.
  change (the_optarg (CLib.Opt "p" (Some D))) with (ret D).
  rewrite bind_ret. reflexivity.
Qed.

Lemma option_case_unknown (w : World) (st : Opts) (a : option string) :
  option_case w st (CLib.Opt "?" a) = ([EvUsage], Stop (Return 0)).
Proof. reflexivity. Qed.

Lemma too_few_arguments (b : Build) (w : World) (argv : list string) :
  (length argv < 4)%nat -> main b w argv = ([EvUsage], Return 0).
Proof.
  intros H. unfold main, read_command_line.
  destruct argv as [|a0 [|a1 [|a2 [|a3 rest]]]]; try reflexivity.
  simpl in H. lia.
Qed.

(** C1 (the claim fails on the code).  The case for [-p] has no [break]:
    after setting the depth, control runs on into the case for [-i], so
    [-p 30] also sets the base of the repeat-count dumps to its own
    argument, and every chunk then writes a repeat-count file that the
    run without [-p] does not write. *)
Theorem C1_depth_flag_sets_repeat_count_base :
  forall (b : Build) (w : World),
    (exists st0 st1,
        read_command_line b w (Sample.argv []) = ([], Ok st0) /\
        read_command_line b w (Sample.argv ["-p"; "30"]) = ([], Ok st1) /\
        maxDepth st1 = 30 /\
        outputRepeatCountBase st0 = None /\
        outputRepeatCountBase st1 = Some (getFileBase w "30" "repeatCount") /\
        st1 <> Set_.maxDepth 30 st0) /\
    repeat_count_dumps (main std Sample.world (Sample.argv [])).1 = [] /\
    repeat_count_dumps (main std Sample.world (Sample.argv ["-p"; "30"])).1
      = ["30"; "30"].
Proof.
  intros b w. split; [|split; reflexivity].
  eexists _, _. split; [destruct b as [[] ?]; reflexivity|].
  split; [destruct b as [[] ?]; reflexivity|].
  repeat split; try reflexivity. discriminate.
Qed.

(** ** The checks on the input files *)



(** C3 (the claim fails on the code).  Too few arguments and an
    unrecognised option both print the usage text (the latter after the
    diagnostic of [getopt_long]) and [return 0]; the neighbouring error
    path for an unknown feature type prints its message and the same
    text and returns 1. *)
Theorem C3_usage_errors_return_zero :
  forall (b : Build) (w : World),
    main b w ["marginPolish"] = ([EvUsage], Return 0) /\
    main b w ["marginPolish"; "in.bam"; "ref.fa"] = ([EvUsage], Return 0) /\
    main b w (Sample.argv ["-x"]) = ([EvGetoptError; EvUsage], Return 0) /\
    main b w (Sample.argv ["--bogus"]) = ([EvGetoptError; EvUsage], Return 0) /\
    exit_status (main b w (Sample.argv ["-x"])).2 = Some 0 /\
    main b w (Sample.argv ["-F"; "bogus"])
      = ([EvUnrecognizedFeatureType "bogus"; EvUsage], Return 1).
Proof.
  intros b w. destruct b as [[] ?]; repeat split; reflexivity.
Qed.

(** The short form of [--diploid] never reaches [case '2']: the run ends
    at the usage text. *)
Example main_short_diploid_flag :
  main std Sample.world (Sample.argv ["-2"]) = ([EvGetoptError; EvUsage], Return 0) /\
  (main std Sample.world (Sample.argv ["--diploid"])).2 = Return 0.
Proof. split; reflexivity. Qed.

(** C4 (the claim fails on the code).  [-F diploidRleWeight] stores the
    channel variant, so without [-L] the run length cap becomes the
    channel default and not the diploid one. *)
Theorem C4_diploid_feature_is_channel :
  forall (b : Build) (w : World),
    parse_featureType "diploidRleWeight" = Some HFEAT_CHANNEL_RLE_WEIGHT /\
    exists st,
      read_command_line b w (Sample.argv ["-F"; "diploidRleWeight"]) = ([], Ok st) /\
      helenFeatureType (feature_init st) = HFEAT_CHANNEL_RLE_WEIGHT /\
      splitWeightMaxRunLength (feature_init st)
        = POAFEATURE_CHANNEL_MAX_RUN_LENGTH_DEFAULT /\
      splitWeightMaxRunLength (feature_init st)
        <> POAFEATURE_DIPLOID_MAX_RUN_LENGTH_DEFAULT.
Proof.
  intros b w. split; [reflexivity|].
  eexists. split; [destruct b as [[] ?]; reflexivity|].
  repeat split; try reflexivity. discriminate.
Qed.

(** ** Shape of each stage *)

(** One pass through the [switch]: either the loop goes on without any
    output, or the usage text is printed (after the message for an
    unknown feature type in case ['F']) and [main] returns, or the
    process stops otherwise. *)
Lemma option_case_shape (w : World) (st : Opts) (o : CLib.opt) :
  (exists st', option_case w st o = ([], Ok st')) \/
  option_case w st o = ([EvUsage], Stop (Return 0)) \/
  (exists a, option_case w st o
             = ([EvUnrecognizedFeatureType a; EvUsage], Stop (Return 1))) \/
  (exists out, option_case w st o = ([], Stop out) /\
               ((exists msg, out = Abort msg) \/ out = Undefined)).
Proof.
  destruct o as [k a]. unfold option_case, case_i, the_optarg. simpl CLib.key.
  simpl CLib.optarg.
  destruct k as [[] [] [] [] [] [] [] []]; cbv iota beta;
    try (right; left; reflexivity);
    destruct a as [a|]; rewrite ?bind_ret, ?bind_Stop; cbv zeta;
    try (right; right; right; eexists; split; [reflexivity|]; eauto);
    try (left; eexists; reflexivity);
    repeat match goal with
           | |- context [if ?c then _ else _] => destruct c
           | |- context [match parse_featureType ?x with _ => _ end] =>
               destruct (parse_featureType x)
           | |- context [match helenFeatureType ?x with _ => _ end] =>
               destruct (helenFeatureType x)
           end;
    rewrite ?bind_ret, ?bind_Stop;
    first [ left; eexists; reflexivity
          | right; left; reflexivity
          | right; right; left; eexists; reflexivity
          | right; right; right; eexists; split; [reflexivity|]; eauto ].
Qed.

(** One turn of the loop: the same, with the diagnostic of
    [getopt_long] before the usage text for a ['?']. *)
Lemma option_turn_shape (w : World) (st : Opts) (o : CLib.opt) :
  (exists st', option_turn w st o = ([], Ok st') /\
               option_case w st o = ([], Ok st')) \/
  (exists t, option_turn w st o = (t, Stop (Return 0)) /\
             (t = [EvUsage] \/ t = [EvGetoptError; EvUsage])) \/
  (exists a, option_turn w st o
             = ([EvUnrecognizedFeatureType a; EvUsage], Stop (Return 1))) \/
  (exists out, option_turn w st o = ([], Stop out) /\
               ((exists msg, out = Abort msg) \/ out = Undefined)).
Proof.
  unfold option_turn.
  destruct (Ascii.eqb (CLib.key o) "?") eqn:E.
  - apply Ascii.eqb_eq in E. destruct o as [k a]. simpl in E. subst k.
    right. left. eexists. split; [reflexivity|]. auto.
  - rewrite bind_ret.
    destruct (option_case_shape w st o)
      as [(st' & H) | [H | [(a & H) | (out & H & Hout)]]]; rewrite H.
    + left. eauto.
    + right. left. eauto.
    + right. right. left. eauto.
    + right. right. right. eauto.
Qed.

Lemma foldM_Ok_silent {A S} (body : S -> A -> M S) (l : list A) :
  (forall s a t s', body s a = (t, Ok s') -> t = []) ->
  forall s t s', foldM body s l = (t, Ok s') -> t = [].
Proof.
  intros Hb. induction l as [|a l IH]; intros s t s' H; simpl in H.
  - inversion H; reflexivity.
  - apply bind_inv in H as [(o & _ & Ho) | (t1 & s1 & t2 & H1 & H2 & ->)].
    + discriminate.
    + apply Hb in H1 as ->. apply IH in H2 as ->. reflexivity.
Qed.

(** Options that parse leave no trace. *)
Lemma read_command_line_Ok (b : Build) (w : World) (argv : list string) t st :
  read_command_line b w argv = (t, Ok st) -> t = [].
Proof.
  unfold read_command_line.
  destruct argv as [|a0 [|a1 [|a2 [|a3 rest]]]]; try discriminate.
  unfold parse_options. apply foldM_Ok_silent.
  intros s o t' s' H.
  destruct (option_turn_shape w s o)
    as [(x & E & _) | [(x & E & _) | [(x & E) | (x & E & _)]]];
    rewrite E in H; inversion H; reflexivity.
Qed.

Ltac emits_step :=
  match goal with
  | |- emits _ (bind _ _) => apply emits_bind; [|intros ?]
  | |- emits _ (ret _) => apply emits_ret
  | |- emits _ (stop _) => apply emits_stop
  | |- emits _ (st_errAbort _) => apply emits_stop
  | |- emits _ (emit _) => apply emits_emit
  | |- emits _ (foldM _ _ _) => apply emits_foldM; intros ? ?
  | |- emits _ (when _ _) => unfold when
  | |- emits _ (get _ _) => unfold get
  | |- emits _ (if ?c then _ else _) => destruct c
  | |- emits _ (match ?x with _ => _ end) => destruct x
  | |- emits _ (let _ := _ in _) => cbv zeta
  end.

(** The only output of option parsing is the usage text and the
    diagnostic that comes before it. *)
Lemma read_command_line_emits (b : Build) (w : World) (argv : list string) :
  emits (fun e => e = EvUsage \/ e = EvGetoptError \/
                  exists a, e = EvUnrecognizedFeatureType a)
        (read_command_line b w argv).
Proof.
  unfold read_command_line.
  destruct argv as [|a0 [|a1 [|a2 [|a3 rest]]]];
    try (repeat emits_step; auto).
  unfold parse_options. apply emits_foldM. intros s o. unfold emits.
  destruct (option_turn_shape w s o)
    as [(x & E & _) | [(x & E & [-> | ->]) | [(x & E) | (x & E & _)]]];
    rewrite E; simpl;
    repeat first [apply List.Forall_nil | apply List.Forall_cons; [eauto 6|]].
Qed.

Lemma diploid_sanity_silent (w : World) (st : Opts) : silent (diploid_sanity w st).
Proof. unfold silent, diploid_sanity. repeat emits_step. Qed.

Lemma index_check_silent (w : World) (bam : string) : silent (index_check w bam).
Proof. unfold silent, index_check. repeat emits_step. Qed.

Lemma sanity_check_silent (w : World) (st : Opts) : silent (sanity_check w st).
Proof.
  unfold silent, sanity_check.
  repeat first [apply index_check_silent | emits_step].
Qed.

Lemma rle_check_silent (st : Opts) (params : PolishParams) : silent (rle_check st params).
Proof. unfold silent, rle_check. repeat emits_step. Qed.

Lemma parseReferenceSequences_silent (w : World) (file : string) :
  silent (parseReferenceSequences w file).
Proof. unfold silent, parseReferenceSequences, munge_name. repeat emits_step. Qed.

(** Before the chunker the driver only opens its output files. *)
Lemma startup_emits (b : Build) (w : World) (st : Opts) :
  emits (fun e => exists p, e = EvFopenW p) (startup b w st).
Proof.
  unfold startup.
  apply emits_bind;
    [eapply emits_weaken; [|apply diploid_sanity_silent]; contradiction|intros st1].
  apply emits_bind;
    [eapply emits_weaken; [|apply sanity_check_silent]; contradiction|intros _].
  apply emits_bind;
    [eapply emits_weaken; [|apply rle_check_silent]; contradiction|intros _].
  apply emits_bind;
    [eapply emits_weaken; [|apply parseReferenceSequences_silent]; contradiction
    |intros refs].
  unfold open_outputs. repeat emits_step; eauto.
Qed.

Lemma bamChunk_getReferenceSubstring_silent {RleString : Type}
    (construct construct_no_rle : string -> RleString) bamChunk refs params :
  silent (bamChunk_getReferenceSubstring construct construct_no_rle bamChunk refs params).
Proof.
  unfold silent, bamChunk_getReferenceSubstring, stString_getSubString.
  repeat emits_step.
Qed.

Lemma getPaddedHaplotypeString_silent hap gf consensusPath :
  silent (getPaddedHaplotypeString hap gf consensusPath).
Proof.
  unfold silent, getPaddedHaplotypeString, load, store. repeat emits_step.
Qed.

Lemma polish_diploid_silent w params bamChunk poa :
  silent (polish_diploid w params bamChunk poa).
Proof.
  unfold silent, polish_diploid. cbv zeta.
  repeat first [apply getPaddedHaplotypeString_silent | emits_step].
Qed.

Ltac emits_call :=
  first [ eapply emits_weaken;
          [|apply bamChunk_getReferenceSubstring_silent]; contradiction
        | eapply emits_weaken; [|apply polish_diploid_silent]; contradiction
        | emits_step ].

Lemma polish_chunk_emits w st params refs chunks chunkOrder res i :
  emits (fun e => not_chunker e /\ (forall p, e <> EvFopenW p)
                  /\ (forall p n s, e <> EvFastaWrite p n s))
        (polish_chunk w st params refs chunks chunkOrder res i).
Proof.
  unfold polish_chunk, dump.
  repeat emits_call; repeat split; intros; discriminate.
Qed.

Lemma polish_chunks_emits w st params refs chunks chunkOrder :
  emits (fun e => not_chunker e /\ (forall p, e <> EvFopenW p)
                  /\ (forall p n s, e <> EvFastaWrite p n s))
        (polish_chunks w st params refs chunks chunkOrder).
Proof. unfold polish_chunks. apply emits_foldM. intros. apply polish_chunk_emits. Qed.

Lemma merge_loop_emits w slots fh rest chunkIdx start name :
  emits (fun e => exists n s, e = EvFastaWrite fh n s)
        (merge_loop w slots fh rest chunkIdx start name).
Proof.
  revert chunkIdx start name.
  induction rest as [|c rest IH]; intros; simpl; repeat emits_step; eauto.
Qed.

Lemma diploid_merge_loop_emits w res f1 f2 rest chunkIdx start name :
  emits (fun e => exists n s, e = EvFastaWrite f1 n s \/ e = EvFastaWrite f2 n s)
        (diploid_merge_loop w res f1 f2 rest chunkIdx start name).
Proof.
  revert chunkIdx start name.
  induction rest as [|c rest IH]; intros; simpl; repeat emits_step; eauto.
Qed.

(** After the chunker's log line the driver polishes and writes
    contigs to the output files it opened. *)
Lemma polish_and_merge_emits (w : World) (s : Startup) (chunks : list BamChunk) :
  emits (fun e => not_chunker e /\ (forall p, e <> EvFopenW p) /\
                  forall p n seq, e = EvFastaWrite p n seq ->
                    p = polishedReferenceOutFile (su_opts s) \/
                    (diploid (su_opts s) = true /\
                     p = polishedReferenceOutFileH2 (su_opts s)))
        (polish_and_merge w s chunks).
Proof.
  unfold polish_and_merge. cbv zeta. apply emits_bind.
  - eapply emits_weaken; [|apply polish_chunks_emits].
    intros e (H1 & H2 & H3). repeat split; auto. intros p n seq ->.
    exfalso. eapply H3; reflexivity.
  - intros res. apply emits_bind; [|intros; apply emits_ret].
    destruct (diploid (su_opts s)) eqn:Ed.
    + unfold handleDiploidMerge. destruct chunks; [apply emits_stop|].
      eapply emits_weaken; [|apply diploid_merge_loop_emits].
      intros e (n & sq & [-> | ->]); (split; [intros k; discriminate|]);
        (split; [intros k; discriminate|]);
        intros p n' s' H; inversion H; subst; auto.
    + unfold handleMerge. destruct chunks; [apply emits_stop|].
      eapply emits_weaken; [|apply merge_loop_emits].
      intros e (n & sq & ->). (split; [intros k; discriminate|]).
      (split; [intros k; discriminate|]).
      intros p n' s' H; inversion H; subst; auto.
Qed.

(** ** The runs of [main], stage by stage *)


Lemma main_cases (b : Build) (w : World) (argv : list string) : main_run b w argv.
Proof.
  destruct (read_command_line b w argv) as [t0 [st|o]] eqn:E0.
  2:{ eapply run_stops_at_options; [exact E0|].
      unfold main, run. rewrite E0, bind_Stop. reflexivity. }
  pose proof (read_command_line_Ok _ _ _ _ _ E0) as ->.
  destruct (startup b w st) as [t1 [s|o]] eqn:E1.
  2:{ eapply run_stops_at_startup; [exact E0 | exact E1 |].
      unfold main, run. rewrite E0, bind_Ok, E1, bind_Stop. reflexivity. }
  destruct (bamChunker_construct2 w (bamInFile (su_opts s)) (regionStr (su_opts s))
              (su_params s)) as [|c chunks] eqn:E2.
  - eapply run_finds_no_chunk; [exact E0 | exact E1 | exact E2 |].
    assert (E3 : set_up_chunker w s =
                 ([EvChunkerSetUp 0], Stop (Abort "> Found no valid reads!")))
      by (unfold set_up_chunker; rewrite E2; reflexivity).
    unfold main, run. rewrite E0, bind_Ok, E1, bind_Ok, E3, bind_Stop.
    reflexivity.
  - eapply run_polishes; [exact E0 | exact E1 | exact E2 | discriminate |].
    assert (E3 : set_up_chunker w s =
                 ([EvChunkerSetUp (length (c :: chunks))], Ok (c :: chunks)))
      by (unfold set_up_chunker; rewrite E2; reflexivity).
    unfold main, run. rewrite E0, bind_Ok, E1, bind_Ok, E3, bind_Ok.
    reflexivity.
Qed.

(** C7.  When the chunker is set up with zero chunks, the process ends
    through [st_errAbort] (exit status 1, hence nonzero) and its trace
    holds neither the polishing of a chunk nor the writing of a contig. *)
Theorem C7_no_chunks_aborts_before_work (b : Build) (w : World) (argv : list string) :
  EvChunkerSetUp 0 ∈ (main b w argv).1 ->
  (main b w argv).2 = Abort "> Found no valid reads!" /\
  (exists code, exit_status (main b w argv).2 = Some code /\ code <> 0) /\
  Forall (fun e => is_work e = false) (main b w argv).1.
Proof.
  intros Hin.
  destruct (main_cases b w argv) as [t o E0 Em | st t o E0 E1 Em
                                    | st t s E0 E1 E2 Em | st t s chunks E0 E1 E2 Hne Em];
    rewrite Em in *; simpl in Hin |- *.
  - pose proof (read_command_line_emits b w argv) as He.
    unfold emits in He. rewrite E0 in He. simpl in He.
    rewrite Forall_forall in He.
    apply He in Hin as [Hin | [Hin | (a & Hin)]]; discriminate.
  - pose proof (startup_emits b w st) as He.
    unfold emits in He. rewrite E1 in He. simpl in He.
    rewrite Forall_forall in He. apply He in Hin as (p & Hp). discriminate.
  - split; [reflexivity|]. split; [exists 1; split; [reflexivity | lia]|].
    pose proof (startup_emits b w st) as He.
    unfold emits in He. rewrite E1 in He. simpl in He.
    apply Forall_app. split; [|repeat constructor].
    eapply Forall_impl; [exact He|]. intros e (p & ->). reflexivity.
  - exfalso. apply elem_of_app in Hin as [Hin | Hin].
    + pose proof (startup_emits b w st) as He.
      unfold emits in He. rewrite E1 in He. simpl in He.
      rewrite Forall_forall in He. apply He in Hin as (p & Hp). discriminate.
    + apply elem_of_cons in Hin as [Hin | Hin].
      * inversion Hin as [Hl]. destruct chunks; [congruence | discriminate].
      * pose proof (polish_and_merge_emits w s chunks) as He.
        unfold emits in He. rewrite Forall_forall in He.
        apply He in Hin as (Hn & _). exact (Hn 0%nat eq_refl).
Qed.

(** The run of C7 on the sample world whose chunker finds no chunk. *)
Lemma C7_no_chunks_witness :
  EvChunkerSetUp 0 ∈ (main std Variants.no_chunks (Sample.argv [])).1 /\
  (main std Variants.no_chunks (Sample.argv [])).2 = Abort "> Found no valid reads!".
Proof.
  assert (H : EvChunkerSetUp 0 ∈ (main std Variants.no_chunks (Sample.argv [])).1)
    by (apply list_elem_of_lookup; exists 1%nat; reflexivity).
  split; [exact H|].
  exact (proj1 (C7_no_chunks_aborts_before_work std Variants.no_chunks (Sample.argv []) H)).
Defined.

(** ** The output files *)

Lemma h1_h2_differ (base : string) : base +:+ ".h1.fa" <> base +:+ ".h2.fa".
Proof.
  induction base as [|c base IH]; simpl; [discriminate|].
  intros H. apply IH. inversion H. reflexivity.
Qed.

Lemma diploid_sanity_Ok (w : World) (st : Opts) t st' :
  diploid_sanity w st = (t, Ok st') ->
  outputBase st' = outputBase st /\ diploid st' = diploid st.
Proof.
  unfold diploid_sanity, ret, st_errAbort, stop.
  destruct (diploid st) eqn:Ed; [destruct (trueReferenceBam st) |];
    [destruct (stString_splitByString w s ",") as [|p0 [|p1 [|p2 ps]]] | |];
    intros H; inversion H; subst; simpl; auto.
Qed.

Lemma thread_init_keeps (b : Build) (st : Opts) :
  outputBase (thread_init b st) = outputBase st /\
  diploid (thread_init b st) = diploid st.
Proof.
  unfold thread_init. destruct (OPENMP b), (numThreads st <=? 0)%Z; auto.
Qed.

Lemma feature_init_keeps (st : Opts) :
  outputBase (feature_init st) = outputBase st /\
  diploid (feature_init st) = diploid st.
Proof.
  unfold feature_init.
  destruct (helenFeatureType st) eqn:E1, (setDefaultHelenFeature st),
    (diploid st) eqn:E3; simpl; rewrite ?E1; simpl;
    destruct (splitWeightMaxRunLength st =? 0)%Z; simpl; rewrite ?E3; auto.
Qed.

Lemma out_files_keep (st st' : Opts) :
  outputBase st' = outputBase st -> diploid st' = diploid st ->
  polishedReferenceOutFile st' = polishedReferenceOutFile st /\
  polishedReferenceOutFileH2 st' = polishedReferenceOutFileH2 st.
Proof.
  unfold polishedReferenceOutFile, polishedReferenceOutFileH2.
  intros -> ->. auto.
Qed.

(** [open_outputs] opens the first file, then the second one in
    diploid mode; when it returns, all of them are open. *)
Lemma open_outputs_inv (w : World) (st : Opts) t r :
  open_outputs w st = (t, r) ->
  Forall (fun e => e = EvFopenW (polishedReferenceOutFile st) \/
                   (diploid st = true /\ e = EvFopenW (polishedReferenceOutFileH2 st))) t /\
  (r = Ok tt ->
   opened_files t = polishedReferenceOutFile st ::
                    (if diploid st then [polishedReferenceOutFileH2 st] else [])).
Proof.
  unfold open_outputs, bind, emit, ret, st_errAbort, stop.
  destruct (writable w (polishedReferenceOutFile st)),
    (diploid st) eqn:Ed, (writable w (polishedReferenceOutFileH2 st));
    simpl; intros H; inversion H; subst; split;
    try discriminate; try reflexivity;
    repeat match goal with
           | |- Forall _ [] => constructor
           | |- Forall _ (_ :: _) =>
               constructor; [first [left; reflexivity | right; split; reflexivity]|]
           end.
Qed.

Lemma startup_inv (b : Build) (w : World) (st : Opts) t r :
  startup b w st = (t, r) ->
  Forall (fun e => e = EvFopenW (polishedReferenceOutFile st) \/
                   (diploid st = true /\ e = EvFopenW (polishedReferenceOutFileH2 st))) t /\
  forall s, r = Ok s ->
    outputBase (su_opts s) = outputBase st /\
    diploid (su_opts s) = diploid st /\
    opened_files t = polishedReferenceOutFile st ::
                     (if diploid st then [polishedReferenceOutFileH2 st] else []).
Proof.
  intros H. unfold startup in H.
  apply bind_inv in H as [(o & E & ->) | (t1 & st1 & t2 & E & H & ->)].
  { pose proof (silent_nil _ (diploid_sanity_silent w st)) as Hn.
    rewrite E in Hn. simpl in Hn. subst. split; [constructor | discriminate]. }
  pose proof (silent_nil _ (diploid_sanity_silent w st)) as Hn.
  rewrite E in Hn. simpl in Hn. subst t1. simpl app.
  apply diploid_sanity_Ok in E as [Eb Ed].
  apply bind_inv in H as [(o & E & ->) | (t1 & [] & t2' & E & H & ->)].
  { pose proof (silent_nil _ (sanity_check_silent w st1)) as Hn.
    rewrite E in Hn. simpl in Hn. subst. split; [constructor | discriminate]. }
  pose proof (silent_nil _ (sanity_check_silent w st1)) as Hn.
  rewrite E in Hn. simpl in Hn. subst t1. simpl app. clear E.
  cbv zeta in H.
  set (st2 := feature_init (thread_init b st1)) in *.
  assert (Hk : outputBase st2 = outputBase st /\ diploid st2 = diploid st).
  { subst st2. destruct (feature_init_keeps (thread_init b st1)) as [-> ->].
    destruct (thread_init_keeps b st1) as [-> ->]. auto. }
  destruct Hk as [Hb2 Hd2].
  destruct (out_files_keep st st2 Hb2 Hd2) as [Hf1 Hf2].
  apply bind_inv in H as [(o & E & ->) | (t1 & [] & t2'' & E & H & ->)].
  { pose proof (silent_nil _ (rle_check_silent st2 (read_params w st2))) as Hn.
    rewrite E in Hn. simpl in Hn. subst. split; [constructor | discriminate]. }
  pose proof (silent_nil _ (rle_check_silent st2 (read_params w st2))) as Hn.
  rewrite E in Hn. simpl in Hn. subst t1. simpl app. clear E.
  apply bind_inv in H as [(o & E & ->) | (t1 & refs & t3 & E & H & ->)].
  { pose proof (silent_nil _ (parseReferenceSequences_silent w (referenceFastaFile st2))) as Hn.
    rewrite E in Hn. simpl in Hn. subst. split; [constructor | discriminate]. }
  pose proof (silent_nil _ (parseReferenceSequences_silent w (referenceFastaFile st2))) as Hn.
  rewrite E in Hn. simpl in Hn. subst t1. simpl app. clear E.
  apply bind_inv in H as [(o & E & ->) | (t1 & [] & t4 & E & H & ->)].
  { apply open_outputs_inv in E as [HF _].
    rewrite Hf1, Hf2, Hd2 in HF. split; [exact HF | discriminate]. }
  apply open_outputs_inv in E as [HF Ho].
  unfold ret in H. inversion H; subst t4 r. rewrite app_nil_r.
  rewrite Hf1, Hf2, Hd2 in HF, Ho. split; [exact HF|].
  intros s Hs. inversion Hs; subst s. simpl. auto.
Qed.

Lemma bind_emit {B} (e : Event) (f : unit -> M B) :
  bind (emit e) f = (e :: (f tt).1, (f tt).2).
Proof. unfold emit. rewrite bind_Ok. reflexivity. Qed.

Lemma bind_assoc {A B C} (m : M A) (f : A -> M B) (g : B -> M C) :
  bind (bind m f) g = bind m (fun a => bind (f a) g).
Proof.
  destruct m as [t [a|o]]; [|reflexivity].
  rewrite (bind_Ok t a f), (bind_Ok t a (fun a => bind (f a) g)).
  destruct (f a) as [t' [x|o]]; cbn [fst snd].
  - rewrite !bind_Ok. cbn [fst snd]. rewrite app_assoc. reflexivity.
  - rewrite !bind_Stop. reflexivity.
Qed.

Lemma stops_ret {A} P (a : A) : stops_with P (ret a).
Proof. exact I. Qed.

Lemma stops_emit P e : stops_with P (emit e).
Proof. exact I. Qed.

Lemma stops_stop {A} (P : Outcome -> Prop) o : P o -> stops_with P (@stop A o).
Proof. intros H. exact H. Qed.

Lemma stops_bind {A B} P (m : M A) (f : A -> M B) :
  stops_with P m -> (forall a, stops_with P (f a)) -> stops_with P (bind m f).
Proof.
  unfold stops_with. destruct m as [t [a|o]]; intros Hm Hf.
  - rewrite bind_Ok. apply Hf.
  - exact Hm.
Qed.

Lemma stops_foldM {A S} P (body : S -> A -> M S) l :
  (forall s a, stops_with P (body s a)) -> forall s, stops_with P (foldM body s l).
Proof.
  intros Hb. induction l as [|a l IH]; intros s; simpl.
  - apply stops_ret.
  - apply stops_bind; [apply Hb | intros s'; apply IH].
Qed.

Ltac stops_step :=
  match goal with
  | |- stops_with _ (bind _ _) => apply stops_bind; [|intros ?]
  | |- stops_with _ (ret _) => apply stops_ret
  | |- stops_with _ (emit _) => apply stops_emit
  | |- stops_with _ (stop _) => apply stops_stop
  | |- stops_with _ (st_errAbort _) => apply stops_stop
  | |- stops_with _ (foldM _ _ _) => apply stops_foldM; intros ? ?
  | |- stops_with _ (when _ _) => unfold when
  | |- stops_with _ (get _ _) => unfold get
  | |- stops_with _ (if ?c then _ else _) => destruct c
  | |- stops_with _ (match ?x with _ => _ end) => destruct x
  | |- stops_with _ (let _ := _ in _) => cbv zeta
  end.

(** After the options, the only [return] is the one at the end of
    [main]. *)
Lemma startup_stops (b : Build) (w : World) (st : Opts) :
  stops_with not_return (startup b w st).
Proof.
  unfold startup, diploid_sanity, sanity_check, index_check, rle_check,
    parseReferenceSequences, munge_name, open_outputs.
  repeat stops_step; intros c; discriminate.
Qed.

(** ** The two merges *)

Lemma merge_loop_spec w slots fh rest chunkIdx start name :
  (merge_loop w slots fh rest chunkIdx start name).2 = Ok tt /\
  fh ∈ fasta_files (merge_loop w slots fh rest chunkIdx start name).1.
Proof.
  revert chunkIdx start name.
  induction rest as [|c rest IH]; intros; simpl.
  - split; [reflexivity | apply list_elem_of_here].
  - destruct (negb (String.eqb name (refSeqName c))).
    + rewrite bind_emit. simpl. destruct (IH (S chunkIdx) chunkIdx (refSeqName c)) as [H1 H2].
      split; [exact H1 | apply list_elem_of_here].
    + apply IH.
Qed.

Lemma diploid_merge_loop_Ok w res f1 f2 rest chunkIdx start name :
  (diploid_merge_loop w res f1 f2 rest chunkIdx start name).2 = Ok tt.
Proof.
  revert chunkIdx start name.
  induction rest as [|c rest IH]; intros; simpl; [reflexivity|].
  destruct (negb (String.eqb name (refSeqName c))); [|apply IH].
  rewrite bind_assoc, bind_emit. cbn beta. rewrite bind_emit. simpl. apply IH.
Qed.

Lemma diploid_merge_loop_spec w res f1 f2 rest chunkIdx start name :
  f1 <> f2 ->
  (diploid_merge_loop w res f1 f2 rest chunkIdx start name).2 = Ok tt /\
  fasta_headers f1 (diploid_merge_loop w res f1 f2 rest chunkIdx start name).1 =
  fasta_headers f2 (diploid_merge_loop w res f1 f2 rest chunkIdx start name).1 /\
  f1 ∈ fasta_files (diploid_merge_loop w res f1 f2 rest chunkIdx start name).1 /\
  f2 ∈ fasta_files (diploid_merge_loop w res f1 f2 rest chunkIdx start name).1.
Proof.
  intros Hne.
  assert (E12 : String.eqb f1 f2 = false) by (apply String.eqb_neq; exact Hne).
  assert (E21 : String.eqb f2 f1 = false)
    by (apply String.eqb_neq; intros E; apply Hne; symmetry; exact E).
  revert chunkIdx start name.
  induction rest as [|c rest IH]; intros; simpl.
  - rewrite !String.eqb_refl, E12, E21.
    split; [reflexivity|]. split; [reflexivity|].
    split; [apply list_elem_of_here | apply list_elem_of_further, list_elem_of_here].
  - destruct (negb (String.eqb name (refSeqName c))).
    + rewrite bind_assoc, bind_emit. cbn beta. rewrite bind_emit. simpl.
      rewrite !String.eqb_refl, E12, E21.
      destruct (IH (S chunkIdx) chunkIdx (refSeqName c)) as (H1 & H2 & H3 & H4).
      split; [exact H1|]. split; [rewrite H2; reflexivity|].
      split; [apply list_elem_of_here | apply list_elem_of_further, list_elem_of_here].
    + apply IH.
Qed.

Lemma no_fasta_headers (path : string) (tr : list Event) :
  Forall (fun e => forall p n s, e <> EvFastaWrite p n s) tr ->
  fasta_headers path tr = [].
Proof.
  induction 1 as [|e tr He _ IH]; [reflexivity|].
  destruct e; try exact IH. exfalso. eapply He. reflexivity.
Qed.

Lemma no_fasta_files (tr : list Event) :
  Forall (fun e => forall p n s, e <> EvFastaWrite p n s) tr ->
  fasta_files tr = [].
Proof.
  induction 1 as [|e tr He _ IH]; [reflexivity|].
  destruct e; try exact IH. exfalso. eapply He. reflexivity.
Qed.

Lemma fasta_headers_app (path : string) (t1 t2 : list Event) :
  fasta_headers path (t1 ++ t2) = fasta_headers path t1 ++ fasta_headers path t2.
Proof. unfold fasta_headers. apply omap_app. Qed.

Lemma fasta_files_app (t1 t2 : list Event) :
  fasta_files (t1 ++ t2) = fasta_files t1 ++ fasta_files t2.
Proof. unfold fasta_files. apply omap_app. Qed.

Lemma opened_files_app (t1 t2 : list Event) :
  opened_files (t1 ++ t2) = opened_files t1 ++ opened_files t2.
Proof. unfold opened_files. apply omap_app. Qed.

Lemma handleDiploidMerge_headers w chunks res f1 f2 :
  f1 <> f2 ->
  fasta_headers f1 (handleDiploidMerge w chunks res f1 f2).1 =
  fasta_headers f2 (handleDiploidMerge w chunks res f1 f2).1.
Proof.
  intros Hne. destruct chunks as [|c0 rest]; [reflexivity|].
  apply diploid_merge_loop_spec. exact Hne.
Qed.

(** What the last stage writes to the output files. *)
Lemma polish_and_merge_writes (w : World) (s : Startup) (chunks : list BamChunk) :
  chunks <> [] ->
  (diploid (su_opts s) = true ->
   fasta_headers (polishedReferenceOutFile (su_opts s)) (polish_and_merge w s chunks).1 =
   fasta_headers (polishedReferenceOutFileH2 (su_opts s)) (polish_and_merge w s chunks).1) /\
  (forall c, (polish_and_merge w s chunks).2 = Ok c ->
     polishedReferenceOutFile (su_opts s) ∈ fasta_files (polish_and_merge w s chunks).1 /\
     (diploid (su_opts s) = true ->
      polishedReferenceOutFileH2 (su_opts s) ∈ fasta_files (polish_and_merge w s chunks).1)).
Proof.
  intros Hne. unfold polish_and_merge. cbv zeta.
  pose proof (polish_chunks_emits w (su_opts s) (su_params s) (su_reference s) chunks
                (make_chunkOrder w (su_params s) (length chunks))) as He.
  unfold emits in He.
  destruct (polish_chunks w (su_opts s) (su_params s) (su_reference s) chunks
              (make_chunkOrder w (su_params s) (length chunks))) as [t [res|o]].
  2:{ rewrite bind_Stop. simpl in *. split; [|discriminate].
      intros _. assert (Hn : Forall (fun e => forall p n q, e <> EvFastaWrite p n q) t)
        by (eapply Forall_impl; [exact He|]; intros e (_ & _ & H); exact H).
      rewrite !(no_fasta_headers _ _ Hn). reflexivity. }
  rewrite bind_Ok. cbn [fst snd] in *.
  assert (Hn : Forall (fun e => forall p n q, e <> EvFastaWrite p n q) t)
    by (eapply Forall_impl; [exact He|]; intros e (_ & _ & H); exact H).
  rewrite !fasta_headers_app, fasta_files_app.
  rewrite !(no_fasta_headers _ _ Hn), (no_fasta_files _ Hn).
  cbn [app].
  destruct chunks as [|c0 rest]; [contradiction|].
  destruct (diploid (su_opts s)) eqn:Ed.
  - unfold polishedReferenceOutFile, polishedReferenceOutFileH2. rewrite Ed.
    unfold handleDiploidMerge.
    destruct (diploid_merge_loop_spec w res _ _ rest 1 0 (refSeqName c0)
                (h1_h2_differ (outputBase (su_opts s)))) as (H1 & H2 & H3 & H4).
    destruct (diploid_merge_loop w res (outputBase (su_opts s) +:+ ".h1.fa")
                (outputBase (su_opts s) +:+ ".h2.fa") rest 1 0 (refSeqName c0))
      as [tm rm]. cbn [fst snd] in *. subst rm.
    rewrite bind_Ok. cbn [fst snd]. unfold ret. cbn [fst snd]. rewrite app_nil_r.
    split; [intros _; exact H2|]. intros c _. split; [exact H3 | intros _; exact H4].
  - unfold polishedReferenceOutFile. rewrite Ed. unfold handleMerge.
    destruct (merge_loop_spec w (chunkResults res) (outputBase (su_opts s) +:+ ".fa")
                rest 1 0 (refSeqName c0)) as (H1 & H2).
    destruct (merge_loop w (chunkResults res) (outputBase (su_opts s) +:+ ".fa")
                rest 1 0 (refSeqName c0)) as [tm rm]. cbn [fst snd] in *. subst rm.
    rewrite bind_Ok. cbn [fst snd]. unfold ret. cbn [fst snd]. rewrite app_nil_r.
    split; [discriminate|]. intros c _. split; [exact H2 | discriminate].
Qed.

Lemma no_opened_files (tr : list Event) :
  Forall (fun e => forall p, e <> EvFopenW p) tr -> opened_files tr = [].
Proof.
  induction 1 as [|e tr He _ IH]; [reflexivity|].
  destruct e; try exact IH. exfalso. eapply He. reflexivity.
Qed.

Lemma polish_chunks_stops w st params refs chunks chunkOrder :
  stops_with not_return (polish_chunks w st params refs chunks chunkOrder).
Proof.
  unfold polish_chunks, polish_chunk, dump, polish_diploid,
    bamChunk_getReferenceSubstring, stString_getSubString,
    getPaddedHaplotypeString, load, store.
  repeat stops_step; intros c; discriminate.
Qed.

Lemma polish_and_merge_stops (w : World) (s : Startup) (chunks : list BamChunk) :
  stops_with not_return (polish_and_merge w s chunks).
Proof.
  unfold polish_and_merge. cbv zeta.
  apply stops_bind; [apply polish_chunks_stops|intros res].
  apply stops_bind; [|intros; apply stops_ret].
  destruct (diploid (su_opts s)).
  - unfold handleDiploidMerge. destruct chunks as [|c0 rest];
      [intros c; discriminate|].
    unfold stops_with.
    rewrite diploid_merge_loop_Ok. exact I.
  - unfold handleMerge. destruct chunks as [|c0 rest];
      [intros c; discriminate|].
    unfold stops_with. rewrite (proj1 (merge_loop_spec _ _ _ _ _ _ _)). exact I.
Qed.

Lemma startup_trace_files (st : Opts) (t : list Event) :
  Forall (fun e => e = EvFopenW (polishedReferenceOutFile st) \/
                   (diploid st = true /\ e = EvFopenW (polishedReferenceOutFileH2 st))) t ->
  (forall p, p ∈ opened_files t -> p ∈ out_files st) /\
  fasta_files t = [] /\ forall path, fasta_headers path t = [].
Proof.
  intros HF. split; [|split].
  - intros p Hp. unfold opened_files in Hp.
    apply list_elem_of_omap in Hp as (e & He & Hp).
    rewrite Forall_forall in HF. unfold out_files.
    destruct (HF e He) as [-> | [Hd ->]]; inversion Hp; subst.
    + apply list_elem_of_here.
    + rewrite Hd. apply list_elem_of_further, list_elem_of_here.
  - apply no_fasta_files. eapply Forall_impl; [exact HF|].
    intros e [-> | [_ ->]] p n s; discriminate.
  - intros path. apply no_fasta_headers. eapply Forall_impl; [exact HF|].
    intros e [-> | [_ ->]] p n s; discriminate.
Qed.

(** Every file opened for the assembly and every file that receives a
    contig is one of [out_files]; a run that returns 0 after its options
    were parsed has opened all of them and written to each. *)
Lemma main_files (b : Build) (w : World) (argv : list string) t st :
  read_command_line b w argv = (t, Ok st) ->
  (forall p, p ∈ opened_files (main b w argv).1 \/ p ∈ fasta_files (main b w argv).1 ->
             p ∈ out_files st) /\
  ((main b w argv).2 = Return 0 ->
   opened_files (main b w argv).1 = out_files st /\
   forall p, p ∈ out_files st -> p ∈ fasta_files (main b w argv).1).
Proof.
  intros E.
  destruct (main_cases b w argv) as [t' o E0 Em | st' t1 o E0 E1 Em
                                    | st' t1 s E0 E1 E2 Em
                                    | st' t1 s chunks E0 E1 E2 Hne Em];
    rewrite E in E0; [discriminate | | |];
    (assert (st' = st) by congruence); subst st'; clear E0;
    rewrite Em; cbn [fst snd].
  - destruct (startup_inv _ _ _ _ _ E1) as [HF _].
    destruct (startup_trace_files _ _ HF) as (Ho & Hf & _).
    split.
    + intros p [Hp | Hp]; [auto | rewrite Hf in Hp; inversion Hp].
    + pose proof (startup_stops b w st) as Hs. unfold stops_with in Hs.
      rewrite E1 in Hs. simpl in Hs. intros ->. exfalso. exact (Hs 0 eq_refl).
  - destruct (startup_inv _ _ _ _ _ E1) as [HF _].
    destruct (startup_trace_files _ _ HF) as (Ho & Hf & _).
    split; [|discriminate].
    rewrite opened_files_app, fasta_files_app, Hf. cbn [opened_files fasta_files omap app].
    rewrite app_nil_r. intros p [Hp | Hp]; [auto | inversion Hp].
  - destruct (startup_inv _ _ _ _ _ E1) as [HF Hs].
    destruct (Hs s eq_refl) as (Hb & Hd & Hop).
    destruct (out_files_keep _ _ Hb Hd) as [Hf1 Hf2].
    destruct (startup_trace_files _ _ HF) as (Ho & Hf & _).
    pose proof (polish_and_merge_emits w s chunks) as He. unfold emits in He.
    assert (Hno : opened_files (polish_and_merge w s chunks).1 = []).
    { apply no_opened_files. eapply Forall_impl; [exact He|].
      intros e (_ & H & _); exact H. }
    assert (Hopen : opened_files
                      (t1 ++ EvChunkerSetUp (length chunks) :: (polish_and_merge w s chunks).1)
                    = out_files st).
    { rewrite opened_files_app. change (opened_files (EvChunkerSetUp ?n :: ?l))
        with (opened_files l). rewrite Hno, app_nil_r. exact Hop. }
    assert (Hfiles : fasta_files
                       (t1 ++ EvChunkerSetUp (length chunks) :: (polish_and_merge w s chunks).1)
                     = fasta_files (polish_and_merge w s chunks).1).
    { rewrite fasta_files_app, Hf. reflexivity. }
    rewrite Hopen, Hfiles. split.
    + intros p [Hp | Hp]; [exact Hp|].
      unfold fasta_files in Hp. apply list_elem_of_omap in Hp as (e & Hin & Hp).
      rewrite Forall_forall in He. destruct (He e Hin) as (_ & _ & Hw).
      destruct e; inversion Hp; subst.
      unfold out_files. destruct (Hw _ _ _ eq_refl) as [-> | [Hd2 ->]].
      * rewrite Hf1. apply list_elem_of_here.
      * rewrite Hf2, <- Hd, Hd2. apply list_elem_of_further, list_elem_of_here.
    + intros Hret. split; [reflexivity|].
      pose proof (polish_and_merge_stops w s chunks) as Hst. unfold stops_with in Hst.
      destruct (polish_and_merge_writes w s chunks Hne) as [_ Hw].
      destruct ((polish_and_merge w s chunks).2) as [c|o] eqn:Er.
      2:{ simpl in Hret. subst o. exfalso. exact (Hst 0 eq_refl). }
      destruct (Hw c eq_refl) as [H1 H2]. rewrite Hf1 in H1. rewrite Hf2, Hd in H2.
      intros p Hp. unfold out_files in Hp.
      apply elem_of_cons in Hp as [-> | Hp]; [exact H1|].
      destruct (diploid st) eqn:Ed2; [|inversion Hp].
      apply list_elem_of_singleton in Hp as ->. apply H2. reflexivity.
Qed.

(** C8.  In a diploid run the header names written to the first
    haplotype's file are, in order, the header names written to the
    second haplotype's file. *)
Theorem C8_diploid_headers_agree (b : Build) (w : World) (argv : list string) t st :
  read_command_line b w argv = (t, Ok st) ->
  diploid st = true ->
  fasta_headers (outputBase st +:+ ".h1.fa") (main b w argv).1 =
  fasta_headers (outputBase st +:+ ".h2.fa") (main b w argv).1.
Proof.
  intros E Hdip.
  destruct (main_cases b w argv) as [t' o E0 Em | st' t1 o E0 E1 Em
                                    | st' t1 s E0 E1 E2 Em
                                    | st' t1 s chunks E0 E1 E2 Hne Em];
    rewrite E in E0; [discriminate | | |];
    (assert (st' = st) by congruence); subst st'; clear E0;
    rewrite Em; cbn [fst snd];
    destruct (startup_inv _ _ _ _ _ E1) as [HF Hs];
    destruct (startup_trace_files _ _ HF) as (_ & _ & Hh).
  - rewrite !Hh. reflexivity.
  - rewrite !fasta_headers_app, !Hh. reflexivity.
  - rewrite !fasta_headers_app, !Hh. cbn [app].
    change (fasta_headers ?p (EvChunkerSetUp ?n :: ?l)) with (fasta_headers p l).
    destruct (Hs s eq_refl) as (Hb & Hd & _).
    destruct (polish_and_merge_writes w s chunks Hne) as [Hw _].
    rewrite Hd in Hw. specialize (Hw Hdip).
    unfold polishedReferenceOutFile, polishedReferenceOutFileH2 in Hw.
    rewrite Hd, Hdip, Hb in Hw. exact Hw.
Qed.

(** The diploid sample run: both files receive the header [contig1]. *)
Lemma C8_diploid_headers_witness :
  fasta_headers "out.h1.fa"
    (main std Sample.world (Sample.argv ["--diploid"; "-o"; "out"])).1 = ["contig1"] /\
  fasta_headers "out.h1.fa"
    (main std Sample.world (Sample.argv ["--diploid"; "-o"; "out"])).1 =
  fasta_headers "out.h2.fa"
    (main std Sample.world (Sample.argv ["--diploid"; "-o"; "out"])).1.
Proof.
  split; [reflexivity|].
  exact (C8_diploid_headers_agree std Sample.world
           (Sample.argv ["--diploid"; "-o"; "out"]) []
           (Set_.outputBase "out"
              (Set_.diploid true (initial_opts "in.bam" "ref.fa" "params.json")))
           eq_refl eq_refl).
Defined.

(** ** The chunk loop *)

Ltac case_innermost :=
  match goal with
  | |- context [match ?x with _ => _ end] =>
      lazymatch x with
      | context [match _ with _ => _ end] => fail
      | _ => destruct x eqn:?
      end
  end.

(** An iteration that completes has polished the chunk at its own
    place in the chunk order and stored the result there. *)
Lemma polish_chunk_inv w st params refs chunks chunkOrder res i t res' :
  polish_chunk w st params refs chunks chunkOrder res i = (t, Ok res') ->
  exists chunkIdx bamChunk,
    chunkOrder !! i = Some chunkIdx /\
    chunks !! chunkIdx = Some bamChunk /\
    polished_chunks t = [chunkIdx] /\
    stored w st params refs bamChunk res chunkIdx res'.
Proof.
  unfold polish_chunk, stored, chunk_poa.
  cbv [bind ret stop st_errAbort emit when get dump].
  repeat (case_innermost; cbv beta iota zeta);
    intros H; inversion H; subst;
    repeat match goal with
           | E : bamChunk_getReferenceSubstring ?c ?n ?b ?r ?p = (?l, _) |- _ =>
               let Hn := fresh in
               pose proof (silent_nil _ (bamChunk_getReferenceSubstring_silent c n b r p))
                 as Hn;
               rewrite E in Hn; simpl in Hn; subst l
           | E : polish_diploid ?w ?p ?b ?a = (?l, _) |- _ =>
               let Hn := fresh in
               pose proof (silent_nil _ (polish_diploid_silent w p b a)) as Hn;
               rewrite E in Hn; simpl in Hn; subst l
           end;
    eexists _, _; (split; [eauto|]); (split; [eauto|]); (split; [reflexivity|]);
    eexists; (split; [eexists; split; [|reflexivity];
                      match goal with E : _ = _ |- _ => rewrite E; reflexivity end|]);
    first [ reflexivity
          | eexists; split; [|reflexivity];
            match goal with E : polish_diploid _ _ _ _ = _ |- _ => rewrite E end;
            reflexivity ].
Qed.

Lemma polished_chunks_app (t1 t2 : list Event) :
  polished_chunks (t1 ++ t2) = polished_chunks t1 ++ polished_chunks t2.
Proof. unfold polished_chunks. apply omap_app. Qed.

Lemma same_slot_refl (res : Results) (j : nat) : same_slot res res j.
Proof. repeat split. Qed.

Lemma same_slot_trans (r1 r2 r3 : Results) (j : nat) :
  same_slot r1 r2 j -> same_slot r2 r3 j -> same_slot r1 r3 j.
Proof.
  intros (A1 & A2 & A3 & A4) (B1 & B2 & B3 & B4).
  repeat split; congruence.
Qed.

Lemma same_slot_holds w st params refs chunks (res res' : Results) (j : nat) :
  same_slot res res' j ->
  holds_result w st params refs chunks res j ->
  holds_result w st params refs chunks res' j.
Proof.
  intros (A1 & A2 & A3 & A4) (c & poa & Hc & Hpoa & H).
  exists c, poa. split; [exact Hc|]. split; [exact Hpoa|].
  destruct (diploid st).
  - destruct H as (d & Hd & H). exists d. split; [exact Hd|].
    rewrite A1, A2, A3, A4. exact H.
  - rewrite A1. exact H.
Qed.

(** A store touches the slot [chunkIdx] of each array and no other. *)
Lemma store_same_slot w st params refs bamChunk res chunkIdx res' (j : nat) :
  stored w st params refs bamChunk res chunkIdx res' ->
  j <> chunkIdx ->
  same_slot res res' j.
Proof.
  intros (poa & _ & H) Hj. destruct (diploid st).
  - destruct H as (d & _ & ->). repeat split; simpl;
      apply list_lookup_insert_ne; congruence.
  - subst res'. repeat split; simpl;
      try reflexivity; apply list_lookup_insert_ne; congruence.
Qed.

Lemma store_allocated w st params refs bamChunk res chunkIdx res' (n : nat) :
  stored w st params refs bamChunk res chunkIdx res' ->
  allocated (diploid st) n res ->
  allocated (diploid st) n res'.
Proof.
  intros (poa & _ & H) [H1 H2]. destruct (diploid st).
  - destruct H as (d & _ & ->). split; simpl; rewrite ?length_insert; auto.
  - subst res'. split; simpl; rewrite ?length_insert; auto; discriminate.
Qed.

Lemma store_holds w st params refs chunks bamChunk res chunkIdx res' :
  stored w st params refs bamChunk res chunkIdx res' ->
  allocated (diploid st) (length chunks) res ->
  chunks !! chunkIdx = Some bamChunk ->
  holds_result w st params refs chunks res' chunkIdx.
Proof.
  intros (poa & Hpoa & H) [H1 H2] Hc.
  assert (Hlt : (chunkIdx < length chunks)%nat) by (eapply lookup_lt_Some; exact Hc).
  exists bamChunk, poa. split; [exact Hc|]. split; [exact Hpoa|].
  destruct (diploid st).
  - destruct H as (d & Hd & ->). destruct (H2 eq_refl) as (A & B & C).
    exists d. split; [exact Hd|]. simpl.
    repeat split; apply list_lookup_insert_eq; lia.
  - subst res'. simpl. apply list_lookup_insert_eq. lia.
Qed.

Lemma chunks_at_seq (chunkOrder : list nat) (m : nat) :
  forall a, chunks_at chunkOrder (seq a m) = take m (drop a chunkOrder).
Proof.
  unfold chunks_at. induction m as [|m IH]; intros a; [rewrite take_0; reflexivity|].
  simpl seq. simpl omap. rewrite IH.
  destruct (chunkOrder !! a) as [x|] eqn:E.
  - rewrite (drop_S _ _ _ E). reflexivity.
  - apply lookup_ge_None in E.
    rewrite (drop_ge chunkOrder a), (drop_ge chunkOrder (S a)) by lia.
    rewrite !take_nil. reflexivity.
Qed.

Section Loop.
Variables (w : World) (st : Opts) (params : PolishParams).
Variables (refs : gmap string string) (chunks : list BamChunk).
Variable chunkOrder : list nat.

(** The iterations numbered in [sched], run one after the other in that
    order: they polish the chunks found at these places of the chunk
    order, leave the result of each in its slot, and leave every other
    slot as it was. *)
Lemma polish_sched_spec (sched : list nat) :
  forall (res : Results) t res',
    foldM (polish_chunk w st params refs chunks chunkOrder) res sched
      = (t, Ok res') ->
    allocated (diploid st) (length chunks) res ->
    polished_chunks t = chunks_at chunkOrder sched /\
    allocated (diploid st) (length chunks) res' /\
    forall j, (j ∈ chunks_at chunkOrder sched ->
               holds_result w st params refs chunks res' j) /\
              (j ∉ chunks_at chunkOrder sched -> same_slot res res' j).
Proof.
  induction sched as [|i sched IH]; intros res t res' H Hal.
  - simpl in H. inversion H; subst.
    split; [reflexivity|]. split; [exact Hal|].
    intros j. split; [intros Hj; inversion Hj | intros _; apply same_slot_refl].
  - simpl in H.
    apply bind_inv in H as [(o & _ & Ho) | (t1 & res1 & t2 & H1 & H2 & ->)];
      [discriminate|].
    apply polish_chunk_inv in H1 as (chunkIdx & bamChunk & Ho & Hc & Hp & Hres).
    assert (Hal1 : allocated (diploid st) (length chunks) res1)
      by (eapply store_allocated; eassumption).
    assert (Hf1 : holds_result w st params refs chunks res1 chunkIdx)
      by (eapply store_holds; eassumption).
    assert (Hs1 : forall j, j <> chunkIdx -> same_slot res res1 j)
      by (intros j Hj; eapply store_same_slot; eassumption).
    destruct (IH res1 t2 res' H2 Hal1) as (Hp2 & Hal2 & Hslots).
    unfold chunks_at in *. simpl omap. rewrite Ho.
    rewrite polished_chunks_app, Hp, Hp2.
    split; [reflexivity|]. split; [exact Hal2|].
    intros j. destruct (Hslots j) as [Hin Hout]. split.
    + intros Hj.
      destruct (decide (j ∈ omap (fun i => chunkOrder !! i) sched)) as [Hd | Hd].
      * apply Hin. exact Hd.
      * apply elem_of_cons in Hj as [-> | Hj]; [|contradiction].
        eapply same_slot_holds; [apply Hout; exact Hd | exact Hf1].
    + intros Hj. apply not_elem_of_cons in Hj as [Hne Hj].
      eapply same_slot_trans; [apply Hs1; exact Hne | apply Hout; exact Hj].
Qed.
End Loop.

Lemma allocate_results_allocated (d : bool) (n : nat) :
  allocated d n (allocate_results d n).
Proof.
  unfold allocated, allocate_results. simpl. rewrite length_replicate.
  split; [reflexivity|]. intros ->. rewrite !length_replicate. auto.
Qed.

Lemma make_chunkOrder_perm (w : World) (params : PolishParams) (n : nat) :
  (forall l, stList_shuffle w l ≡ₚ l) ->
  make_chunkOrder w params n ≡ₚ seq 0 n.
Proof.
  intros Hs. unfold make_chunkOrder.
  destruct (Params.shuffleChunks params); [apply Hs | reflexivity].
Qed.

(** C10.  Provided [stList_shuffle] permutes its list: the chunk order
    is a permutation of 0..chunkCount-1 with or without shuffling; an
    iteration stores into the result arrays at its own chunk index only;
    and when the loop is through, the chunks polished are exactly those
    of the chunk order, each once, and every slot holds the consensus
    string of its chunk (in diploid mode: both strings and both read
    sets).  The last part holds for the iterations in the order of the
    loop and in any other order. *)
Theorem C10_every_slot_written_once
    (w : World) (st : Opts) (params : PolishParams)
    (refs : gmap string string) (chunks : list BamChunk) :
  (forall l, stList_shuffle w l ≡ₚ l) ->
  let chunkOrder := make_chunkOrder w params (length chunks) in
  chunkOrder ≡ₚ seq 0 (length chunks) /\
  (forall res i t res',
      polish_chunk w st params refs chunks chunkOrder res i = (t, Ok res') ->
      exists chunkIdx,
        chunkOrder !! i = Some chunkIdx /\
        polished_chunks t = [chunkIdx] /\
        forall j, j <> chunkIdx -> same_slot res res' j) /\
  (forall t res,
      polish_chunks w st params refs chunks chunkOrder = (t, Ok res) ->
      polished_chunks t = chunkOrder /\
      forall j, (j < length chunks)%nat ->
                holds_result w st params refs chunks res j) /\
  (forall sched t res,
      sched ≡ₚ seq 0 (length chunks) ->
      foldM (polish_chunk w st params refs chunks chunkOrder)
            (allocate_results (diploid st) (length chunks)) sched = (t, Ok res) ->
      polished_chunks t ≡ₚ seq 0 (length chunks) /\
      forall j, (j < length chunks)%nat ->
                holds_result w st params refs chunks res j).
Proof.
  intros Hs chunkOrder.
  assert (Hperm : chunkOrder ≡ₚ seq 0 (length chunks))
    by (apply make_chunkOrder_perm; exact Hs).
  assert (Hlen : length chunkOrder = length chunks)
    by (rewrite (Permutation_length Hperm); apply length_seq).
  assert (Hall : chunks_at chunkOrder (seq 0 (length chunks)) = chunkOrder)
    by (rewrite chunks_at_seq, drop_0, <- Hlen; apply firstn_all).
  assert (Hany : forall sched t res,
             sched ≡ₚ seq 0 (length chunks) ->
             foldM (polish_chunk w st params refs chunks chunkOrder)
                   (allocate_results (diploid st) (length chunks)) sched = (t, Ok res) ->
             polished_chunks t = chunks_at chunkOrder sched /\
             chunks_at chunkOrder sched ≡ₚ seq 0 (length chunks) /\
             forall j, (j < length chunks)%nat ->
                       holds_result w st params refs chunks res j).
  { intros sched t res Hsched H.
    destruct (polish_sched_spec w st params refs chunks chunkOrder sched
                _ t res H (allocate_results_allocated _ _)) as (Hp & _ & Hslots).
    assert (Hat : chunks_at chunkOrder sched ≡ₚ seq 0 (length chunks)).
    { unfold chunks_at. rewrite Hsched. fold (chunks_at chunkOrder (seq 0 (length chunks))).
      rewrite Hall. exact Hperm. }
    split; [exact Hp|]. split; [exact Hat|].
    intros j Hj. apply (proj1 (Hslots j)). rewrite Hat. apply elem_of_seq. lia. }
  split; [exact Hperm|]. split; [|split].
  - intros res i t res' H.
    apply polish_chunk_inv in H as (chunkIdx & bamChunk & Ho & Hc & Hp & Hres).
    exists chunkIdx. split; [exact Ho|]. split; [exact Hp|].
    intros j Hj. eapply store_same_slot; eassumption.
  - intros t res H. unfold polish_chunks in H.
    destruct (Hany _ t res (reflexivity _) H) as (Hp & _ & Hh).
    rewrite Hall in Hp. split; [exact Hp | exact Hh].
  - intros sched t res Hsched H.
    destruct (Hany sched t res Hsched H) as (Hp & Hat & Hh).
    split; [rewrite Hp; exact Hat | exact Hh].
Qed.

(** The sample world: its shuffle (reversal) is a permutation, its loop
    polishes chunk 1 and then chunk 0, and both slots hold the result of
    their chunk. *)
Lemma C10_every_slot_witness :
  (forall l, stList_shuffle Sample.world l ≡ₚ l) /\
  exists t res,
    polish_chunks Sample.world (initial_opts "in.bam" "ref.fa" "params.json")
      (params_readParams Sample.world "params.json")
      {[ "contig1" := "ACGTACGT" ]}
      (bamChunker_construct2 Sample.world "in.bam" None
         (params_readParams Sample.world "params.json"))
      (make_chunkOrder Sample.world (params_readParams Sample.world "params.json") 2)
    = (t, Ok res) /\
    polished_chunks t = [1; 0]%nat /\
    forall j, (j < 2)%nat ->
      holds_result Sample.world (initial_opts "in.bam" "ref.fa" "params.json")
        (params_readParams Sample.world "params.json")
        {[ "contig1" := "ACGTACGT" ]}
        (bamChunker_construct2 Sample.world "in.bam" None
           (params_readParams Sample.world "params.json")) res j.
Proof.
  assert (H : forall l, stList_shuffle Sample.world l ≡ₚ l)
    by (intros l; symmetry; apply Permutation_rev).
  split; [exact H|].
  eexists _, _. split; [vm_compute; reflexivity|].
  exact (proj1 (proj2 (proj2
           (C10_every_slot_written_once Sample.world
              (initial_opts "in.bam" "ref.fa" "params.json")
              (params_readParams Sample.world "params.json")
              {[ "contig1" := "ACGTACGT" ]}
              (bamChunker_construct2 Sample.world "in.bam" None
                 (params_readParams Sample.world "params.json"))
              H))) _ _ eq_refl).
Defined.

(** ** Names in the reference *)

Lemma take_token_no_whitespace (s : string) :
  has_whitespace (CLib.take_token s) = false.
Proof.
  induction s as [|c s IH]; [reflexivity|]. simpl.
  destruct (CLib.isspace c) eqn:E; [reflexivity|]. simpl. rewrite E, IH. reflexivity.
Qed.

Lemma take_token_fixed (s : string) :
  has_whitespace s = false -> CLib.take_token s = s.
Proof.
  induction s as [|c s IH]; [reflexivity|]. simpl.
  destruct (CLib.isspace c); [discriminate|]. simpl. intros H. rewrite IH; auto.
Qed.

Lemma take_token_moves (s : string) :
  has_whitespace s = true -> CLib.take_token s <> s.
Proof.
  intros H E. pose proof (take_token_no_whitespace s) as H'.
  rewrite E in H'. congruence.
Qed.

Lemma skip_space_fixed (s : string) :
  starts_with_whitespace s = false -> CLib.skip_space s = s.
Proof. destruct s as [|c s]; [reflexivity|]. simpl. intros ->. reflexivity. Qed.

Lemma skip_space_starts (s : string) :
  starts_with_whitespace (CLib.skip_space s) = false.
Proof.
  induction s as [|c s IH]; [reflexivity|]. simpl.
  destruct (CLib.isspace c) eqn:E; [exact IH|]. simpl. exact E.
Qed.

(** Without leading white space, the key is the prefix before the first
    white-space character. *)
Lemma munged_name_strip (name : string) :
  starts_with_whitespace name = false ->
  munged_name name = strip_after_whitespace name.
Proof.
  intros H. unfold munged_name, strip_after_whitespace.
  rewrite (skip_space_fixed _ H). destruct name; reflexivity.
Qed.

Lemma munged_name_idem (name : string) :
  munged_name (munged_name name) = munged_name name.
Proof.
  unfold munged_name at 2.
  pose proof (skip_space_starts name) as Hs.
  destruct (CLib.skip_space name) as [|c r] eqn:E.
  - unfold munged_name. rewrite E. reflexivity.
  - simpl in Hs.
    assert (Hw : has_whitespace (CLib.take_token (String c r)) = false)
      by apply take_token_no_whitespace.
    assert (Hl : starts_with_whitespace (CLib.take_token (String c r)) = false)
      by (simpl; rewrite Hs; simpl; exact Hs).
    unfold munged_name. rewrite (skip_space_fixed _ Hl), E.
    destruct (CLib.take_token (String c r)) as [|a s];
      [reflexivity | apply take_token_fixed; exact Hw].
Qed.

(** The scan of a name whose first word fits the buffer. *)
Lemma sscanf_s_munged (name : string) :
  (String.length (munged_name name) < 128)%nat ->
  CLib.sscanf_s 128 name = CLib.ScanEOF /\ munged_name name = name \/
  CLib.sscanf_s 128 name = CLib.ScanOne (munged_name name).
Proof.
  unfold CLib.sscanf_s, munged_name.
  destruct (CLib.skip_space name) as [|c r]; [left; split; reflexivity|].
  intros H. right. apply Nat.ltb_lt in H. rewrite H. reflexivity.
Qed.

(** One pass of the loop of [parseReferenceSequences]. *)
Lemma munge_name_step (c : gmap string string) (name : string) :
  (String.length (munged_name name) < 128)%nat ->
  munge_name c name =
  ret (if String.eqb name (munged_name name) then c
       else delete name
              match c !! name with
              | Some s => <[munged_name name := s]> c
              | None => delete (munged_name name) c
              end).
Proof.
  intros H. unfold munge_name.
  destruct (sscanf_s_munged name H) as [[-> E] | ->].
  - rewrite E, String.eqb_refl. reflexivity.
  - destruct (String.eqb name (munged_name name)); reflexivity.
Qed.

Section Munge.
Variable m : gmap string string.
Hypothesis fits : forall n, is_Some (m !! n) ->
                            (String.length (munged_name n) < 128)%nat.
Hypothesis distinct : forall n1 n2, is_Some (m !! n1) -> is_Some (m !! n2) ->
                                    munged_name n1 = munged_name n2 -> n1 = n2.

Lemma munge_fold (todo : list string) :
  forall (done : list string) (c : gmap string string),
    NoDup (done ++ todo) ->
    (forall k, k ∈ done ++ todo -> is_Some (m !! k)) ->
    munge_inv m done todo c ->
    exists c', foldM munge_name c todo = ([], Ok c') /\
               munge_inv m (done ++ todo) [] c'.
Proof.
  induction todo as [|n todo IH]; intros done c Hnd Hdom (Ia & Ib & Ic).
  - exists c. split; [reflexivity|]. rewrite app_nil_r. repeat split; auto.
  - assert (Hn : is_Some (m !! n))
      by (apply Hdom, elem_of_app; right; apply list_elem_of_here).
    apply NoDup_app in Hnd as (Hnd1 & Hnd2 & Hnd3).
    apply NoDup_cons in Hnd3 as [Hn3 Hnd3].
    assert (Hn1 : n ∉ done)
      by (intros Hin; apply (Hnd2 n Hin), list_elem_of_here).
    simpl. rewrite (munge_name_step c n (fits n Hn)), bind_ret.
    assert (Hstep : munge_inv m (done ++ [n]) todo
              (if String.eqb n (munged_name n) then c
               else delete n match c !! n with
                             | Some s => <[munged_name n := s]> c
                             | None => delete (munged_name n) c
                             end)).
    { destruct (String.eqb n (munged_name n)) eqn:E.
      - apply String.eqb_eq in E. repeat split.
        + intros n' Hin. apply Ia. apply list_elem_of_further. exact Hin.
        + intros n0 Hin. apply elem_of_app in Hin as [Hin | Hin]; [auto|].
          apply list_elem_of_singleton in Hin as ->. rewrite <- E.
          apply Ia, list_elem_of_here.
        + intros k Hk. destruct (Ic k Hk) as [Hin | (n0 & Hin & ->)].
          * apply elem_of_cons in Hin as [-> | Hin]; [|left; exact Hin].
            right. exists n. split; [|exact E].
            apply elem_of_app. right. apply list_elem_of_here.
          * right. exists n0. split; [|reflexivity].
            apply elem_of_app. left. exact Hin.
      - apply String.eqb_neq in E.
        rewrite (Ia n (list_elem_of_here _ _)).
        destruct Hn as [s Hs]. rewrite Hs. repeat split.
        + intros n' Hin.
          assert (n' <> n) by (intros ->; contradiction).
          assert (n' <> munged_name n).
          { intros ->. apply E.
            apply distinct; [eauto | |].
            - apply Hdom, elem_of_app. right. apply list_elem_of_further. exact Hin.
            - symmetry. apply munged_name_idem. }
          rewrite lookup_delete_ne, lookup_insert_ne by congruence.
          apply Ia, list_elem_of_further. exact Hin.
        + intros n0 Hin. apply elem_of_app in Hin as [Hin | Hin].
          * assert (Hn0 : is_Some (m !! n0))
              by (apply Hdom, elem_of_app; left; exact Hin).
            assert (munged_name n0 <> n).
            { intros E0. apply E. rewrite <- E0 at 2. rewrite <- E0.
              symmetry. apply munged_name_idem. }
            assert (munged_name n0 <> munged_name n).
            { intros E0. apply distinct in E0; eauto. subst. contradiction. }
            rewrite lookup_delete_ne, lookup_insert_ne by congruence.
            apply Ib. exact Hin.
          * apply list_elem_of_singleton in Hin as ->.
            rewrite lookup_delete_ne by congruence.
            rewrite lookup_insert_eq. symmetry. exact Hs.
        + intros k Hk.
          destruct (decide (k = n)) as [-> | Hkn];
            [rewrite lookup_delete_eq in Hk; destruct Hk; discriminate|].
          rewrite lookup_delete_ne in Hk by congruence.
          destruct (decide (k = munged_name n)) as [-> | Hkm].
          * right. exists n. split; [|reflexivity].
            apply elem_of_app. right. apply list_elem_of_here.
          * rewrite lookup_insert_ne in Hk by congruence.
            destruct (Ic k Hk) as [Hin | (n0 & Hin & ->)].
            -- apply elem_of_cons in Hin as [-> | Hin]; [contradiction|].
               left. exact Hin.
            -- right. exists n0. split; [|reflexivity].
               apply elem_of_app. left. exact Hin. }
    edestruct (IH (done ++ [n])) as (c' & Hc' & Hinv); [| |exact Hstep|].
    + rewrite <- app_assoc. simpl. apply NoDup_app. repeat split; auto.
      apply NoDup_cons. split; assumption.
    + intros k Hk. apply Hdom. rewrite <- app_assoc in Hk. exact Hk.
    + exists c'. split; [exact Hc'|]. rewrite <- app_assoc in Hinv. exact Hinv.
Qed.
End Munge.

(** [parseReferenceSequences] on a reference whose keys fit the buffer
    and differ from each other: each contig ends up under its key, and
    only keys are bound. *)
Lemma parseReferenceSequences_munged (w : World) (file : string) :
  let m := fastaReadToMap w file in
  lists_keys (stHash_getKeys w m) m ->
  (forall n, is_Some (m !! n) -> (String.length (munged_name n) < 128)%nat) ->
  (forall n1 n2, is_Some (m !! n1) -> is_Some (m !! n2) ->
                 munged_name n1 = munged_name n2 -> n1 = n2) ->
  exists m',
    parseReferenceSequences w file = ([], Ok m') /\
    (forall name, is_Some (m !! name) -> m' !! munged_name name = m !! name) /\
    (forall k, is_Some (m' !! k) ->
               exists name, is_Some (m !! name) /\ k = munged_name name).
Proof.
  intros m [Hnd Hkeys] Hfits Hdist. unfold parseReferenceSequences. fold m.
  destruct (munge_fold m Hfits Hdist (stHash_getKeys w m) [] m) as (m' & Hm' & Ia & Ib & Ic).
  - exact Hnd.
  - intros k Hk. apply Hkeys. exact Hk.
  - repeat split.
    + intros n Hin. inversion Hin.
    + intros k Hk. left. apply Hkeys. exact Hk.
  - exists m'. split; [exact Hm'|]. simpl in *. split.
    + intros name Hn. apply Ib, Hkeys. exact Hn.
    + intros k Hk. destruct (Ic k Hk) as [Hin | (n & Hin & ->)]; [inversion Hin|].
      exists n. split; [apply Hkeys; exact Hin | reflexivity].
Qed.

Lemma lists_keys_map_to_list (m : gmap string string) :
  lists_keys (map_to_list m).*1 m.
Proof.
  split; [apply NoDup_fst_map_to_list|].
  intros k. rewrite list_elem_of_fmap. split.
  - intros ([k' v] & -> & Hin). apply elem_of_map_to_list in Hin. eauto.
  - intros [v Hv]. exists (k, v). split; [reflexivity|].
    apply elem_of_map_to_list. exact Hv.
Qed.

(** The sample reference after [parseReferenceSequences], and the two
    references on which the stripped lookup breaks. *)
Example parse_sample :
  parseReferenceSequences Sample.world "ref.fa" =
  ([], Ok {[ "contig1" := "ACGTACGT" ]}).
Proof. vm_compute. reflexivity. Qed.

Example parse_blank_after_mark :
  parseReferenceSequences Variants.blank_after_mark "ref.fa" =
  ([], Ok {[ "contig1" := "ACGTACGT" ]}).
Proof. vm_compute. reflexivity. Qed.

Example parse_shared_first_word :
  exists seq, parseReferenceSequences Variants.shared_first_word "ref.fa" =
              ([], Ok {[ "chr1" := seq ]}).
Proof. eexists. vm_compute. reflexivity. Qed.

(** C6, the claim as worded fails.  Two contigs whose headers share
    their first word end up under one key, so one of them is no longer
    found; and a header with a blank after the mark is filed under its
    first word, not under the (empty) prefix before its first blank. *)
Lemma C6_stripped_lookup_counterexample :
  ~ stripped_lookup_ok Variants.shared_first_word "ref.fa" /\
  ~ stripped_lookup_ok Variants.blank_after_mark "ref.fa".
Proof.
  split; intros (t & m' & H & Hl).
  - pose proof (Hl "chr1 hap=a" "AAAA" eq_refl) as Ha.
    pose proof (Hl "chr1 hap=b" "CCCC" eq_refl) as Hb.
    change (strip_after_whitespace "chr1 hap=a") with "chr1" in Ha.
    change (strip_after_whitespace "chr1 hap=b") with "chr1" in Hb.
    congruence.
  - rewrite parse_blank_after_mark in H. inversion H; subst.
    pose proof (Hl " contig1 length=8" "ACGTACGT" eq_refl) as Ha.
    change (strip_after_whitespace " contig1 length=8") with "" in Ha.
    discriminate Ha.
Qed.

(** C6, amended.  For a reference whose names do not begin with white
    space, whose stripped names are shorter than 128 characters and
    pairwise distinct: [parseReferenceSequences] returns a table in which
    every contig is found under the prefix of its name before the first
    white-space character, bound to its unchanged sequence; names that
    contain white space are no longer keys, and every key is such a
    prefix. *)
Theorem C6_names_stripped (w : World) (file : string) :
  let m := fastaReadToMap w file in
  lists_keys (stHash_getKeys w m) m ->
  (forall name, is_Some (m !! name) ->
                starts_with_whitespace name = false /\
                (String.length (strip_after_whitespace name) < 128)%nat) ->
  (forall n1 n2, is_Some (m !! n1) -> is_Some (m !! n2) ->
                 strip_after_whitespace n1 = strip_after_whitespace n2 -> n1 = n2) ->
  exists m',
    parseReferenceSequences w file = ([], Ok m') /\
    (forall name seq, m !! name = Some seq ->
                      m' !! strip_after_whitespace name = Some seq) /\
    (forall name, is_Some (m !! name) -> has_whitespace name = true ->
                  m' !! name = None) /\
    (forall k, is_Some (m' !! k) ->
               exists name, is_Some (m !! name) /\ k = strip_after_whitespace name).
Proof.
  intros m Hkeys Hnames Hdist.
  assert (Hkey : forall n, is_Some (m !! n) ->
                           munged_name n = strip_after_whitespace n)
    by (intros n Hn; apply munged_name_strip, Hnames, Hn).
  destruct (parseReferenceSequences_munged w file Hkeys) as (m' & Hm' & Hfound & Hdom).
  - intros n Hn. fold m in Hn. rewrite (Hkey n Hn). apply Hnames, Hn.
  - intros n1 n2 H1 H2. fold m in H1, H2. rewrite (Hkey n1 H1), (Hkey n2 H2).
    apply Hdist; assumption.
  - fold m in Hfound, Hdom. exists m'. split; [exact Hm'|]. split; [|split].
    + intros name seq Hs. rewrite <- (Hkey name) by eauto.
      rewrite Hfound by eauto. exact Hs.
    + intros name Hn Hw. destruct (m' !! name) as [s|] eqn:E; [|reflexivity].
      exfalso. destruct (Hdom name) as (n0 & Hn0 & Hk); [eauto|].
      rewrite (Hkey n0 Hn0) in Hk.
      apply (take_token_moves name Hw). unfold strip_after_whitespace in Hk.
      rewrite Hk at 2. rewrite Hk. apply take_token_fixed, take_token_no_whitespace.
    + intros k Hk. destruct (Hdom k Hk) as (n0 & Hn0 & ->).
      exists n0. split; [exact Hn0 | apply Hkey, Hn0].
Qed.

(** The sample reference: the contig with the header
    [contig1 length=8] is found under [contig1]. *)
Lemma C6_names_stripped_witness :
  exists m',
    parseReferenceSequences Sample.world "ref.fa" = ([], Ok m') /\
    m' !! "contig1" = Some "ACGTACGT" /\
    m' !! "contig1 length=8" = None.
Proof.
  assert (Hone : forall n, is_Some (fastaReadToMap Sample.world "ref.fa" !! n) ->
                           n = "contig1 length=8").
  { intros n [s Hs].
    change (fastaReadToMap Sample.world "ref.fa")
      with ({[ "contig1 length=8" := "ACGTACGT" ]} : gmap string string) in Hs.
    apply lookup_singleton_Some in Hs as [<- _]. reflexivity. }
  destruct (C6_names_stripped Sample.world "ref.fa") as (m' & Hm' & Hfound & Hgone & _).
  - apply lists_keys_map_to_list.
  - intros n Hn. rewrite (Hone n Hn). split; [reflexivity | vm_compute; lia].
  - intros n1 n2 H1 H2 _. rewrite (Hone n1 H1), (Hone n2 H2). reflexivity.
  - exists m'. split; [exact Hm'|]. split.
    + exact (Hfound "contig1 length=8" "ACGTACGT" eq_refl).
    + apply Hgone; [eexists; reflexivity | reflexivity].
Defined.

(** * Further properties of the driver *)

(** ** What the merges write *)

Lemma merge_loop_ranges w slots fh rest chunkIdx start name :
  merge_loop w slots fh rest chunkIdx start name =
  (map (fun r => EvFastaWrite fh r.2
                   (mergeContigChunksThreaded w slots r.1.1 r.1.2 r.2))
       (contig_ranges rest chunkIdx start name), Ok tt).
Proof.
  revert chunkIdx start name.
  induction rest as [|c rest IH]; intros; simpl; [reflexivity|].
  destruct (negb (String.eqb name (refSeqName c))); [|apply IH].
  rewrite bind_emit, IH. reflexivity.
Qed.

Lemma diploid_merge_loop_ranges w res f1 f2 rest chunkIdx start name :
  diploid_merge_loop w res f1 f2 rest chunkIdx start name =
  (flat_map (fun r =>
               let contigSequences :=
                 mergeContigChunksDiploidThreaded w (chunkResults res)
                   (chunkResultsH2 res) (readSetsH1 res) (readSetsH2 res)
                   r.1.1 r.1.2 r.2 in
               [EvFastaWrite f1 r.2 contigSequences.1;
                EvFastaWrite f2 r.2 contigSequences.2])
            (contig_ranges rest chunkIdx start name), Ok tt).
Proof.
  revert chunkIdx start name.
  induction rest as [|c rest IH]; intros; simpl; [reflexivity|].
  destruct (negb (String.eqb name (refSeqName c))); [|apply IH].
  rewrite bind_assoc, bind_emit. cbn beta. rewrite bind_emit, IH. reflexivity.
Qed.

Lemma contig_ranges_head rest chunkIdx start name :
  exists e tl, contig_ranges rest chunkIdx start name = (start, e, name) :: tl.
Proof.
  revert chunkIdx start name.
  induction rest as [|c rest IH]; intros; simpl; [eauto|].
  destruct (negb (String.eqb name (refSeqName c))); [eauto | apply IH].
Qed.

Lemma contig_ranges_tiles rest :
  forall chunkIdx start name,
    (start < chunkIdx)%nat ->
    tiles start (chunkIdx + List.length rest) (contig_ranges rest chunkIdx start name).
Proof.
  induction rest as [|c rest IH]; intros chunkIdx start name Hlt; simpl.
  - repeat split; [exact Hlt | lia].
  - destruct (negb (String.eqb name (refSeqName c))).
    + simpl. split; [reflexivity|]. split; [exact Hlt|].
      replace (chunkIdx + S (List.length rest))%nat
        with (S chunkIdx + List.length rest)%nat by lia.
      apply IH. lia.
    + replace (chunkIdx + S (List.length rest))%nat
        with (S chunkIdx + List.length rest)%nat by lia.
      apply IH. lia.
Qed.

Lemma contig_ranges_named chunks rest :
  forall chunkIdx start name,
    (forall k, chunks !! (chunkIdx + k)%nat = rest !! k) ->
    (forall i, (start <= i < chunkIdx)%nat -> refSeqName <$> chunks !! i = Some name) ->
    Forall (range_named chunks) (contig_ranges rest chunkIdx start name).
Proof.
  induction rest as [|c rest IH]; intros chunkIdx start name Hrest Hrun; simpl.
  - repeat constructor. exact Hrun.
  - assert (Hc : chunks !! chunkIdx = Some c)
      by (rewrite <- (Nat.add_0_r chunkIdx); rewrite Hrest; reflexivity).
    assert (Hrest' : forall k, chunks !! (S chunkIdx + k)%nat = rest !! k).
    { intros k. replace (S chunkIdx + k)%nat with (chunkIdx + S k)%nat by lia.
      rewrite Hrest. reflexivity. }
    destruct (String.eqb name (refSeqName c)) eqn:E; simpl.
    + apply String.eqb_eq in E. apply IH; [exact Hrest'|].
      intros i Hi. destruct (decide (i = chunkIdx)) as [-> | Hne].
      * rewrite Hc. simpl. rewrite E. reflexivity.
      * apply Hrun. lia.
    + constructor; [exact Hrun|]. apply IH; [exact Hrest'|].
      intros i Hi. assert (i = chunkIdx) by lia. subst i. rewrite Hc. reflexivity.
Qed.

Lemma contig_ranges_differ rest :
  forall chunkIdx start name,
    neighbours_differ (contig_ranges rest chunkIdx start name).
Proof.
  induction rest as [|c rest IH]; intros chunkIdx start name; simpl; [exact I|].
  destruct (String.eqb name (refSeqName c)) eqn:E; simpl; [apply IH|].
  destruct (contig_ranges_head rest (S chunkIdx) chunkIdx (refSeqName c))
    as (e & tl & Eq).
  pose proof (IH (S chunkIdx) chunkIdx (refSeqName c)) as Hd.
  rewrite Eq in *. split; [|exact Hd].
  simpl. apply String.eqb_neq. exact E.
Qed.

(** [handleMerge] calls the merger once for every maximal run of chunks
    with the same contig name and writes the contigs in chunk order: the
    ranges follow each other from 0 to the chunk count, none is empty,
    the chunks of a range all carry its name, and ranges that follow
    each other carry different names. *)
Theorem handleMerge_contigs (w : World) (c0 : BamChunk) (rest : list BamChunk)
    (chunkResults : list (option string)) (fh : string) :
  exists ranges,
    handleMerge w (c0 :: rest) chunkResults fh =
      (map (fun r => EvFastaWrite fh r.2
                       (mergeContigChunksThreaded w chunkResults r.1.1 r.1.2 r.2))
           ranges, Ok tt) /\
    tiles 0 (List.length (c0 :: rest)) ranges /\
    Forall (range_named (c0 :: rest)) ranges /\
    neighbours_differ ranges.
Proof.
  exists (contig_ranges rest 1 0 (refSeqName c0)).
  split; [apply merge_loop_ranges|]. split; [|split].
  - apply (contig_ranges_tiles rest 1 0). lia.
  - apply contig_ranges_named; [intros k; reflexivity|].
    intros i Hi. assert (i = 0)%nat by lia. subst i. reflexivity.
  - apply contig_ranges_differ.
Qed.

(** [handleDiploidMerge] goes through the same ranges as [handleMerge]
    and, for each, writes the first haplotype's contig to the first file
    and then the second haplotype's contig to the second file, both from
    one call of the diploid merger. *)
Theorem handleDiploidMerge_contigs (w : World) (c0 : BamChunk)
    (rest : list BamChunk) (res : Results) (f1 f2 : string) :
  exists ranges,
    handleMerge w (c0 :: rest) (chunkResults res) f1 =
      (map (fun r => EvFastaWrite f1 r.2
                       (mergeContigChunksThreaded w (chunkResults res) r.1.1 r.1.2 r.2))
           ranges, Ok tt) /\
    handleDiploidMerge w (c0 :: rest) res f1 f2 =
      (flat_map (fun r =>
                   [EvFastaWrite f1 r.2
                      (mergeContigChunksDiploidThreaded w (chunkResults res)
                         (chunkResultsH2 res) (readSetsH1 res) (readSetsH2 res)
                         r.1.1 r.1.2 r.2).1;
                    EvFastaWrite f2 r.2
                      (mergeContigChunksDiploidThreaded w (chunkResults res)
                         (chunkResultsH2 res) (readSetsH1 res) (readSetsH2 res)
                         r.1.1 r.1.2 r.2).2])
                ranges, Ok tt) /\
    tiles 0 (List.length (c0 :: rest)) ranges.
Proof.
  exists (contig_ranges rest 1 0 (refSeqName c0)).
  split; [apply merge_loop_ranges|]. split; [apply diploid_merge_loop_ranges|].
  apply (contig_ranges_tiles rest 1 0). lia.
Qed.

Lemma contig_ranges_names_incl rest :
  forall chunkIdx start name x,
    x ∈ (contig_ranges rest chunkIdx start name).*2 ->
    x ∈ name :: map refSeqName rest.
Proof.
  induction rest as [|c rest IH]; intros chunkIdx start name x; simpl.
  - intros H. apply list_elem_of_singleton in H as ->. apply list_elem_of_here.
  - destruct (String.eqb name (refSeqName c)) eqn:E; simpl.
    + apply String.eqb_eq in E. intros H. apply IH in H. rewrite E.
      apply list_elem_of_further. rewrite <- E. exact H.
    + intros H. apply elem_of_cons in H as [-> | H]; [apply list_elem_of_here|].
      apply list_elem_of_further. eapply IH. exact H.
Qed.

Lemma contig_ranges_NoDup rest :
  forall chunkIdx start name,
    grouped (name :: map refSeqName rest) ->
    NoDup (contig_ranges rest chunkIdx start name).*2.
Proof.
  induction rest as [|c rest IH]; intros chunkIdx start name [Hg1 Hg2]; simpl.
  - apply NoDup_singleton.
  - simpl in Hg1. destruct (String.eqb name (refSeqName c)) eqn:E; simpl.
    + apply String.eqb_eq in E. apply IH. rewrite E. exact Hg2.
    + apply String.eqb_neq in E. apply NoDup_cons. split; [|apply IH; exact Hg2].
      intros Hin. apply contig_ranges_names_incl in Hin.
      apply Hg1 in Hin. congruence.
Qed.

Lemma fasta_headers_writes (fh : string) (f : nat * nat * string -> string)
    (ranges : list (nat * nat * string)) :
  fasta_headers fh (map (fun r => EvFastaWrite fh r.2 (f r)) ranges) = ranges.*2.
Proof.
  induction ranges as [|r ranges IH]; [reflexivity|].
  unfold fasta_headers in *. simpl. rewrite String.eqb_refl. f_equal. exact IH.
Qed.

(** When the chunks of each contig stand together in the chunk list,
    [handleMerge] writes every contig name once. *)
Theorem handleMerge_headers_NoDup (w : World) (c0 : BamChunk)
    (rest : list BamChunk) (chunkResults : list (option string)) (fh : string) :
  grouped (map refSeqName (c0 :: rest)) ->
  NoDup (fasta_headers fh (handleMerge w (c0 :: rest) chunkResults fh).1).
Proof.
  intros Hg. unfold handleMerge. rewrite merge_loop_ranges. cbn [fst].
  rewrite (fasta_headers_writes fh
             (fun r => mergeContigChunksThreaded w chunkResults r.1.1 r.1.2 r.2)).
  apply contig_ranges_NoDup. exact Hg.
Qed.

Lemma handleMerge_headers_NoDup_witness :
  NoDup (fasta_headers "out.fa"
           (handleMerge Sample.world
              [Sample.chunk "a" 0 0 4 4; Sample.chunk "a" 4 4 8 8;
               Sample.chunk "b" 0 0 4 4] [] "out.fa").1).
Proof.
  apply handleMerge_headers_NoDup. simpl.
  split; [intros _; reflexivity|].
  split; [intros H; apply list_elem_of_singleton in H; discriminate|].
  split; [intros H; inversion H | exact I].
Defined.

(** ** [getPaddedHaplotypeString] *)

Lemma padded_length (cp hap : list Z) (r a : nat) :
  (a <= List.length hap)%nat -> (r + a <= List.length cp)%nat ->
  List.length (take r cp ++ take a hap ++ drop (r + a) cp) = List.length cp.
Proof.
  intros Ha Hr. rewrite !length_app, !length_take, length_drop. lia.
Qed.

Lemma padded_store (cp hap : list Z) (r a : nat) (x : Z) :
  hap !! a = Some x -> (r + a < List.length cp)%nat ->
  <[(a + r)%nat := x]> (take r cp ++ take a hap ++ drop (r + a) cp) =
  take r cp ++ take (S a) hap ++ drop (r + S a) cp.
Proof.
  intros Hx Hlt.
  assert (Ha : (a < List.length hap)%nat) by (eapply lookup_lt_Some; exact Hx).
  destruct (lookup_lt_is_Some_2 cp (r + a)) as [y Hy]; [exact Hlt|].
  rewrite insert_app_r_alt by (rewrite length_take; lia).
  rewrite length_take, Nat.min_l by lia.
  rewrite insert_app_r_alt by (rewrite length_take; lia).
  rewrite length_take, Nat.min_l by lia.
  replace (a + r - r - a)%nat with 0%nat by lia.
  rewrite (drop_S _ _ _ Hy). simpl.
  rewrite (take_S_r _ _ _ Hx), <- app_assoc. simpl.
  replace (r + S a)%nat with (S (r + a)) by lia. reflexivity.
Qed.

Lemma padded_loop (hap cp : list Z) (r : nat) :
  Z.of_nat (List.length cp) < 2 ^ 64 ->
  forall m a,
    (a + m <= List.length hap)%nat -> (r + a + m <= List.length cp)%nat ->
    foldM (fun paddedHap k =>
             x <- load hap (Z.of_nat k) ;;
             store paddedHap (uint64 (Z.of_nat k + Z.of_nat r)) x)
          (take r cp ++ take a hap ++ drop (r + a) cp) (seq a m) =
    ([], Ok (take r cp ++ take (a + m) hap ++ drop (r + a + m) cp)).
Proof.
  intros Hbig. induction m as [|m IH]; intros a Ha Hr.
  - simpl. rewrite !Nat.add_0_r. reflexivity.
  - simpl seq. simpl foldM.
    destruct (lookup_lt_is_Some_2 hap a) as [x Hx]; [lia|].
    unfold load, get. rewrite Nat2Z.id, Hx, bind_ret.
    unfold store, uint64. rewrite Z.mod_small by lia.
    replace (Z.to_nat (Z.of_nat a + Z.of_nat r)) with (a + r)%nat by lia.
    rewrite padded_length by lia.
    replace (a + r <? List.length cp)%nat with true
      by (symmetry; apply Nat.ltb_lt; lia).
    rewrite bind_ret, padded_store by (auto; lia).
    rewrite IH by lia.
    replace (S a + m)%nat with (a + S m)%nat by lia.
    replace (r + S a + m)%nat with (r + a + S m)%nat by lia. reflexivity.
Qed.

(** When the fragment lies within the consensus path and the haplotype
    array holds its [length] entries, [getPaddedHaplotypeString] returns
    the consensus path with the entries from [refStart] on replaced by
    the haplotype: the path before the fragment, the haplotype, the path
    after the fragment. *)
Theorem getPaddedHaplotypeString_splice (hap : list Z) (gf : stGenomeFragment)
    (consensusPath : list Z) :
  0 <= GenomeFragment.refStart gf ->
  0 <= GenomeFragment.length gf ->
  GenomeFragment.length gf <= Z.of_nat (List.length hap) ->
  GenomeFragment.refStart gf + GenomeFragment.length gf
    <= Z.of_nat (List.length consensusPath) ->
  Z.of_nat (List.length consensusPath) < 2 ^ 64 ->
  getPaddedHaplotypeString hap gf consensusPath =
  ([], Ok (take (Z.to_nat (GenomeFragment.refStart gf)) consensusPath
             ++ take (Z.to_nat (GenomeFragment.length gf)) hap
             ++ drop (Z.to_nat (GenomeFragment.refStart gf
                                + GenomeFragment.length gf)) consensusPath)).
Proof.
  intros Hr Hl Hhap Hcp Hbig. unfold getPaddedHaplotypeString.
  pose proof (padded_loop hap consensusPath (Z.to_nat (GenomeFragment.refStart gf))
                Hbig (Z.to_nat (GenomeFragment.length gf)) 0) as H.
  rewrite Z2Nat.id in H by exact Hr.
  rewrite Nat.add_0_r, take_0 in H. simpl app in H. rewrite take_drop in H.
  rewrite H by lia. simpl. rewrite Z2Nat.inj_add by lia. reflexivity.
Qed.

Lemma getPaddedHaplotypeString_splice_witness :
  getPaddedHaplotypeString [7; 8]
    {| GenomeFragment.refStart := 1; GenomeFragment.length := 2;
              GenomeFragment.haplotypeString1 := [7; 8];
              GenomeFragment.haplotypeString2 := [8; 7] |} [0; 0; 0; 0]
  = ([], Ok [0; 7; 8; 0]).
Proof.
  exact (getPaddedHaplotypeString_splice [7; 8]
           {| GenomeFragment.refStart := 1; GenomeFragment.length := 2;
              GenomeFragment.haplotypeString1 := [7; 8];
              GenomeFragment.haplotypeString2 := [8; 7] |}
           [0; 0; 0; 0]
           ltac:(simpl; lia) ltac:(simpl; lia) ltac:(simpl; lia)
           ltac:(simpl; lia) ltac:(simpl; lia)).
Defined.

Lemma foldM_app {A S} (body : S -> A -> M S) (l1 l2 : list A) :
  forall s, foldM body s (l1 ++ l2) =
            bind (foldM body s l1) (fun s' => foldM body s' l2).
Proof.
  induction l1 as [|a l1 IH]; intros s; simpl.
  - rewrite bind_ret. reflexivity.
  - destruct (body s a) as [t [s1|o]]; [|reflexivity].
    rewrite !bind_Ok, IH.
    destruct (foldM body s1 l1) as [t' [s2|o']].
    + rewrite !bind_Ok. cbn [fst snd]. rewrite bind_Ok. cbn [fst snd].
      rewrite app_assoc. reflexivity.
    + rewrite !bind_Stop. cbn [fst snd]. rewrite bind_Stop. reflexivity.
Qed.

(** When a fragment that is not empty reaches beyond the end of the
    consensus path, the loop of [getPaddedHaplotypeString] stores
    outside the array. *)
Theorem getPaddedHaplotypeString_overrun (hap : list Z) (gf : stGenomeFragment)
    (consensusPath : list Z) :
  0 <= GenomeFragment.refStart gf ->
  0 < GenomeFragment.length gf ->
  GenomeFragment.length gf <= Z.of_nat (List.length hap) ->
  Z.of_nat (List.length consensusPath)
    < GenomeFragment.refStart gf + GenomeFragment.length gf ->
  GenomeFragment.refStart gf + GenomeFragment.length gf <= 2 ^ 64 ->
  (getPaddedHaplotypeString hap gf consensusPath).2 = Stop Undefined.
Proof.
  intros Hr Hpos Hhap Hover Hwrap. unfold getPaddedHaplotypeString.
  set (r := Z.to_nat (GenomeFragment.refStart gf)).
  set (n := Z.to_nat (GenomeFragment.length gf)).
  set (k0 := (List.length consensusPath - r)%nat).
  assert (Hk0 : (k0 < n)%nat) by (subst k0 n r; lia).
  replace (GenomeFragment.refStart gf) with (Z.of_nat r) by (subst r; lia).
  assert (Hseq : seq 0 n = seq 0 k0 ++ k0 :: seq (S k0) (n - S k0)).
  { replace n with (k0 + S (n - S k0))%nat at 1 by lia.
    rewrite seq_app. reflexivity. }
  rewrite Hseq, foldM_app.
  assert (Hfirst : exists p,
             foldM (fun paddedHap k =>
                      x <- load hap (Z.of_nat k) ;;
                      store paddedHap (uint64 (Z.of_nat k + Z.of_nat r)) x)
                   consensusPath (seq 0 k0) = ([], Ok p) /\
             List.length p = List.length consensusPath).
  { destruct (decide (r <= List.length consensusPath)%nat) as [Hle | Hgt].
    - pose proof (padded_loop hap consensusPath r ltac:(lia) k0 0) as H.
      rewrite Nat.add_0_r, take_0 in H. simpl app in H. rewrite take_drop in H.
      eexists. split; [apply H; subst k0 n; lia|].
      apply padded_length; subst k0 n; lia.
    - replace k0 with 0%nat by (subst k0; lia). exists consensusPath.
      split; reflexivity. }
  destruct Hfirst as (p & Hp & Hlen). rewrite Hp, bind_Ok. cbn [snd]. simpl foldM.
  destruct (lookup_lt_is_Some_2 hap k0) as [x Hx]; [subst n; lia|].
  unfold load, get. rewrite Nat2Z.id, Hx, bind_ret.
  unfold store, uint64. rewrite Z.mod_small by (subst n r; lia).
  replace (Z.to_nat (Z.of_nat k0 + Z.of_nat r) <? List.length p)%nat with false
    by (symmetry; apply Nat.ltb_ge; subst k0; lia).
  reflexivity.
Qed.

Lemma getPaddedHaplotypeString_overrun_witness :
  (getPaddedHaplotypeString [7; 8]
     {| GenomeFragment.refStart := 3; GenomeFragment.length := 2;
              GenomeFragment.haplotypeString1 := [7; 8];
              GenomeFragment.haplotypeString2 := [8; 7] |}
     [0; 0; 0; 0]).2 = Stop Undefined.
Proof.
  exact (getPaddedHaplotypeString_overrun [7; 8]
           {| GenomeFragment.refStart := 3; GenomeFragment.length := 2;
              GenomeFragment.haplotypeString1 := [7; 8];
              GenomeFragment.haplotypeString2 := [8; 7] |}
           [0; 0; 0; 0]
           ltac:(simpl; lia) ltac:(simpl; lia) ltac:(simpl; lia)
           ltac:(simpl; lia) ltac:(simpl; lia)).
Defined.

(** ** [bamChunk_getReferenceSubstring] *)

Lemma substring_prefix (m : nat) :
  forall s, (m <= String.length s)%nat ->
            exists post, s = substring 0 m s +:+ post /\
                         String.length (substring 0 m s) = m.
Proof.
  induction m as [|m IH]; intros s Hm.
  - exists s. destruct s; split; reflexivity.
  - destruct s as [|c s]; [simpl in Hm; lia|].
    destruct (IH s) as (post & Hs & Hl); [simpl in Hm; lia|].
    exists post. split; [|simpl; rewrite Hl; reflexivity].
    change (String c s = String c (substring 0 m s +:+ post)).
    rewrite <- Hs. reflexivity.
Qed.

Lemma substring_piece (n : nat) :
  forall m s, (n + m <= String.length s)%nat ->
              exists pre post, s = pre +:+ substring n m s +:+ post /\
                               String.length pre = n /\
                               String.length (substring n m s) = m.
Proof.
  induction n as [|n IH]; intros m s Hs.
  - destruct (substring_prefix m s) as (post & E & Hl); [lia|].
    exists EmptyString, post. simpl. auto.
  - destruct s as [|c s]; [simpl in Hs; lia|].
    destruct (IH m s) as (pre & post & E & Hp & Hl); [simpl in Hs; lia|].
    exists (String c pre), post.
    split; [|simpl; rewrite Hp; auto].
    change (String c s = String c (pre +:+ substring n m s +:+ post)).
    rewrite <- E. reflexivity.
Qed.

(** For a chunk that starts inside its contig, the string handed to the
    [RleString] constructor is the piece of the contig from
    [chunkBoundaryStart] up to [chunkBoundaryEnd], or up to the end of
    the contig where that comes first. *)
Theorem bamChunk_getReferenceSubstring_slice {RleString : Type}
    (rleString_construct rleString_construct_no_rle : string -> RleString)
    (bamChunk : BamChunk) (referenceSequences : gmap string string)
    (params : PolishParams) (fullReferenceString : string) :
  referenceSequences !! refSeqName bamChunk = Some fullReferenceString ->
  0 <= chunkBoundaryStart bamChunk ->
  chunkBoundaryStart bamChunk <= chunkBoundaryEnd bamChunk ->
  chunkBoundaryStart bamChunk <= Z.of_nat (String.length fullReferenceString) ->
  exists pre referenceString post,
    fullReferenceString = pre +:+ referenceString +:+ post /\
    Z.of_nat (String.length pre) = chunkBoundaryStart bamChunk /\
    Z.of_nat (String.length referenceString) =
      Z.min (Z.of_nat (String.length fullReferenceString)) (chunkBoundaryEnd bamChunk)
      - chunkBoundaryStart bamChunk /\
    bamChunk_getReferenceSubstring rleString_construct rleString_construct_no_rle
      bamChunk referenceSequences params =
    ([], Ok (Some (if Params.useRunLengthEncoding params
                   then rleString_construct referenceString
                   else rleString_construct_no_rle referenceString))).
Proof.
  intros Href H0 Hbe Hlen. unfold bamChunk_getReferenceSubstring. rewrite Href.
  cbv zeta.
  set (refLen := Z.of_nat (String.length fullReferenceString)) in *.
  set (bs := chunkBoundaryStart bamChunk) in *.
  set (len := (if (refLen <? chunkBoundaryEnd bamChunk)%Z
               then refLen else chunkBoundaryEnd bamChunk) - bs).
  assert (Hlen' : len = Z.min refLen (chunkBoundaryEnd bamChunk) - bs).
  { subst len. destruct (Z.ltb_spec refLen (chunkBoundaryEnd bamChunk)); lia. }
  destruct (substring_piece (Z.to_nat bs) (Z.to_nat len) fullReferenceString)
    as (pre & post & E & Hp & Hl); [subst refLen; lia|].
  exists pre, (substring (Z.to_nat bs) (Z.to_nat len) fullReferenceString), post.
  split; [exact E|]. split; [lia|]. split; [lia|].
  unfold stString_getSubString.
  replace ((0 <=? bs)%Z && (0 <=? len)%Z
           && (bs + len <=? Z.of_nat (String.length fullReferenceString))%Z)
    with true.
  - rewrite bind_ret. reflexivity.
  - symmetry. rewrite !andb_true_iff, !Z.leb_le. fold refLen. lia.
Qed.

Lemma bamChunk_getReferenceSubstring_slice_witness :
  bamChunk_getReferenceSubstring (fun s => s) (fun s => s)
    (Sample.chunk "contig1" 2 4 8 12) {[ "contig1" := "ACGTACGT" ]}
    (params_readParams Sample.world "params.json")
  = ([], Ok (Some "GTACGT")).
Proof.
  destruct (bamChunk_getReferenceSubstring_slice (fun s => s) (fun s => s)
              (Sample.chunk "contig1" 2 4 8 12) {[ "contig1" := "ACGTACGT" ]}
              (params_readParams Sample.world "params.json") "ACGTACGT")
    as (pre & sub & post & _ & _ & _ & H);
    [reflexivity | simpl; lia | simpl; lia | simpl; lia |].
  reflexivity.
Defined.



(** ** [parseReferenceSequences] without assumptions on the names *)

Lemma munged_name_clean (n : string) :
  has_whitespace n = false -> munged_name n = n.
Proof.
  intros H.
  assert (Hs : starts_with_whitespace n = false).
  { destruct n as [|c n]; [reflexivity|]. simpl in *.
    apply orb_false_iff in H as [H _]. exact H. }
  rewrite (munged_name_strip n Hs). apply take_token_fixed. exact H.
Qed.

Lemma munge_fold_general (m : gmap string string) :
  (forall n, is_Some (m !! n) -> (String.length (munged_name n) < 128)%nat) ->
  forall (todo done : list string) (c : gmap string string),
    NoDup (done ++ todo) ->
    (forall k, k ∈ done ++ todo -> is_Some (m !! k)) ->
    (forall n, n ∈ todo -> munged_name n <> n -> c !! n = m !! n) ->
    (forall n, n ∈ done -> is_Some (c !! munged_name n)) ->
    (forall n, n ∈ todo -> munged_name n = n -> is_Some (c !! n)) ->
    (forall k v, c !! k = Some v ->
                 (k ∈ todo /\ munged_name k <> k /\ m !! k = Some v) \/
                 exists n, m !! n = Some v /\ munged_name n = k) ->
    exists c', foldM munge_name c todo = ([], Ok c') /\
               (forall n, n ∈ done ++ todo -> is_Some (c' !! munged_name n)) /\
               (forall k v, c' !! k = Some v ->
                            exists n, m !! n = Some v /\ munged_name n = k).
Proof.
  intros fits. induction todo as [|n todo IH]; intros done c Hnd Hdom I1 I5a I5b I4.
  - exists c. split; [reflexivity|]. rewrite app_nil_r. split; [exact I5a|].
    intros k v Hk. destruct (I4 k v Hk) as [(Hin & _) | H]; [inversion Hin | exact H].
  - assert (Hn : is_Some (m !! n))
      by (apply Hdom, elem_of_app; right; apply list_elem_of_here).
    apply NoDup_app in Hnd as (Hnd1 & Hnd2 & Hnd3).
    apply NoDup_cons in Hnd3 as [Hn3 Hnd3].
    assert (Hn1 : n ∉ done)
      by (intros Hin; apply (Hnd2 n Hin), list_elem_of_here).
    simpl. rewrite (munge_name_step c n (fits n Hn)), bind_ret.
    edestruct (IH (done ++ [n])) as (c' & Hc' & Hkeys & Hvals);
      [| | | | | |exists c'; split; [exact Hc'|]; split;
                  [rewrite <- app_assoc in Hkeys; exact Hkeys | exact Hvals]].
    + rewrite <- app_assoc. simpl. apply NoDup_app. repeat split; auto.
      apply NoDup_cons. split; assumption.
    + intros k Hk. apply Hdom. rewrite <- app_assoc in Hk. exact Hk.
    + (* names still to do that will move *)
      intros n' Hin Hmv.
      assert (n' <> n) by (intros ->; contradiction).
      destruct (String.eqb n (munged_name n)) eqn:E;
        [apply I1; [apply list_elem_of_further; exact Hin | exact Hmv]|].
      apply String.eqb_neq in E.
      assert (n' <> munged_name n)
        by (intros ->; apply Hmv, munged_name_idem).
      rewrite (I1 n (list_elem_of_here _ _)) by congruence.
      destruct Hn as [s Hs]. rewrite Hs.
      rewrite lookup_delete_ne, lookup_insert_ne by congruence.
      apply I1; [apply list_elem_of_further; exact Hin | exact Hmv].
    + (* names done *)
      intros n0 Hin. apply elem_of_app in Hin as [Hin | Hin].
      * destruct (String.eqb n (munged_name n)) eqn:E; [apply I5a; exact Hin|].
        apply String.eqb_neq in E.
        assert (munged_name n0 <> n).
        { intros E0. apply E. rewrite <- E0 at 2. rewrite <- E0.
          symmetry. apply munged_name_idem. }
        rewrite (I1 n (list_elem_of_here _ _)) by congruence.
        destruct Hn as [s Hs]. rewrite Hs.
        rewrite lookup_delete_ne by congruence.
        destruct (decide (munged_name n = munged_name n0)) as [E1 | E1].
        -- rewrite <- E1, lookup_insert_eq. eauto.
        -- rewrite lookup_insert_ne by exact E1. apply I5a. exact Hin.
      * apply list_elem_of_singleton in Hin as ->.
        destruct (String.eqb n (munged_name n)) eqn:E.
        -- apply String.eqb_eq in E. rewrite <- E.
           apply I5b; [apply list_elem_of_here | congruence].
        -- apply String.eqb_neq in E.
           rewrite (I1 n (list_elem_of_here _ _)) by congruence.
           destruct Hn as [s Hs]. rewrite Hs.
           rewrite lookup_delete_ne by congruence.
           rewrite lookup_insert_eq. eauto.
    + (* names still to do that stay *)
      intros n' Hin Hst.
      assert (n' <> n) by (intros ->; contradiction).
      destruct (String.eqb n (munged_name n)) eqn:E;
        [apply I5b; [apply list_elem_of_further; exact Hin | exact Hst]|].
      apply String.eqb_neq in E.
      rewrite (I1 n (list_elem_of_here _ _)) by congruence.
      destruct Hn as [s Hs]. rewrite Hs.
      rewrite lookup_delete_ne by congruence.
      destruct (decide (munged_name n = n')) as [E1 | E1].
      * rewrite E1, lookup_insert_eq. eauto.
      * rewrite lookup_insert_ne by exact E1.
        apply I5b; [apply list_elem_of_further; exact Hin | exact Hst].
    + (* what is bound *)
      intros k v Hk.
      destruct (String.eqb n (munged_name n)) eqn:E.
      * apply String.eqb_eq in E.
        destruct (I4 k v Hk) as [(Hin & Hmv & Hm) | H]; [|right; exact H].
        apply elem_of_cons in Hin as [-> | Hin]; [congruence|].
        left. auto.
      * apply String.eqb_neq in E.
        rewrite (I1 n (list_elem_of_here _ _)) in Hk by congruence.
        destruct Hn as [s Hs]. rewrite Hs in Hk.
        destruct (decide (k = n)) as [-> | Hkn];
          [rewrite lookup_delete_eq in Hk; discriminate|].
        rewrite lookup_delete_ne in Hk by congruence.
        destruct (decide (munged_name n = k)) as [E1 | E1].
        -- rewrite E1, lookup_insert_eq in Hk. inversion Hk; subst v.
           right. exists n. split; [exact Hs | exact E1].
        -- rewrite lookup_insert_ne in Hk by exact E1.
           destruct (I4 k v Hk) as [(Hin & Hmv & Hm) | H]; [|right; exact H].
           apply elem_of_cons in Hin as [-> | Hin]; [congruence|].
           left. auto.
Qed.

(** Whatever the names are, as long as the first word of each fits the
    buffer: the table that [parseReferenceSequences] returns binds only
    first words, each to the unchanged sequence of a contig with that
    first word, and the first word of every contig is bound. *)
Theorem parseReferenceSequences_first_words (w : World) (file : string) :
  let m := fastaReadToMap w file in
  lists_keys (stHash_getKeys w m) m ->
  (forall n, is_Some (m !! n) -> (String.length (munged_name n) < 128)%nat) ->
  exists m',
    parseReferenceSequences w file = ([], Ok m') /\
    (forall k v, m' !! k = Some v ->
                 exists n, m !! n = Some v /\ munged_name n = k) /\
    (forall n, is_Some (m !! n) -> is_Some (m' !! munged_name n)).
Proof.
  intros m [Hnd Hkeys] Hfits. unfold parseReferenceSequences. fold m.
  destruct (munge_fold_general m Hfits (stHash_getKeys w m) [] m)
    as (m' & Hm' & Hbound & Hvals).
  - exact Hnd.
  - intros k Hk. apply Hkeys. exact Hk.
  - intros n _ _. reflexivity.
  - intros n Hin. inversion Hin.
  - intros n Hin _. apply Hkeys. exact Hin.
  - intros k v Hk. destruct (decide (munged_name k = k)) as [E | E].
    + right. exists k. auto.
    + left. split; [apply Hkeys; eauto | auto].
  - exists m'. split; [exact Hm'|]. split; [exact Hvals|].
    intros n Hn. apply Hbound. simpl. apply Hkeys. exact Hn.
Qed.

(** On the reference with two headers that share their first word, the
    one key left is bound to the sequence of one of the two. *)
Lemma parseReferenceSequences_first_words_witness :
  exists m',
    parseReferenceSequences Variants.shared_first_word "ref.fa" = ([], Ok m') /\
    (m' !! "chr1" = Some "AAAA" \/ m' !! "chr1" = Some "CCCC").
Proof.
  assert (Htwo : forall n, is_Some (Variants.two_haplotypes !! n) ->
                           n = "chr1 hap=a" \/ n = "chr1 hap=b").
  { intros n [s Hs]. unfold Variants.two_haplotypes in Hs.
    apply lookup_insert_Some in Hs as [[<- _] | [_ Hs]]; [left; reflexivity|].
    apply lookup_singleton_Some in Hs as [<- _]. right. reflexivity. }
  destruct (parseReferenceSequences_first_words Variants.shared_first_word "ref.fa")
    as (m' & Hm' & Hvals & Hbound).
  - apply lists_keys_map_to_list.
  - intros n Hn. destruct (Htwo n Hn) as [-> | ->]; vm_compute; lia.
  - exists m'. split; [exact Hm'|].
    destruct (Hbound "chr1 hap=a") as [v Hv]; [eexists; reflexivity|].
    change (munged_name "chr1 hap=a") with "chr1" in Hv.
    destruct (Hvals _ _ Hv) as (n & Hn & _).
    destruct (Htwo n (ex_intro _ v Hn)) as [-> | ->];
      change (fastaReadToMap Variants.shared_first_word "ref.fa")
        with Variants.two_haplotypes in Hn;
      vm_compute in Hn; inversion Hn; subst v; auto.
Defined.

(** A reference whose names hold no white space and are shorter than
    128 characters comes back unchanged. *)
Theorem parseReferenceSequences_clean (w : World) (file : string) :
  (forall n, n ∈ stHash_getKeys w (fastaReadToMap w file) ->
             has_whitespace n = false /\ (String.length n < 128)%nat) ->
  parseReferenceSequences w file = ([], Ok (fastaReadToMap w file)).
Proof.
  unfold parseReferenceSequences.
  generalize (stHash_getKeys w (fastaReadToMap w file)) as keys.
  generalize (fastaReadToMap w file) as c.
  intros c keys. revert c.
  induction keys as [|n keys IH]; intros c H; [reflexivity|].
  destruct (H n (list_elem_of_here _ _)) as [Hw Hl].
  pose proof (munged_name_clean n Hw) as E.
  simpl. rewrite munge_name_step by (rewrite E; exact Hl).
  rewrite E, String.eqb_refl, bind_ret.
  apply IH. intros n' Hin. apply H. apply list_elem_of_further. exact Hin.
Qed.

Lemma parseReferenceSequences_clean_witness :
  parseReferenceSequences Variants.clean_reference "ref.fa" =
  ([], Ok {[ "contig1" := "ACGTACGT" ]}).
Proof.
  apply (parseReferenceSequences_clean Variants.clean_reference "ref.fa").
  intros n Hn. vm_compute in Hn.
  apply list_elem_of_singleton in Hn as ->. split; [reflexivity | vm_compute; lia].
Defined.

Lemma munge_name_overrun (c : gmap string string) (n : string) :
  (128 <= String.length (CLib.take_token (CLib.skip_space n)))%nat ->
  munge_name c n = ([], Stop Undefined).
Proof.
  intros H. unfold munge_name, CLib.sscanf_s.
  destruct (CLib.skip_space n) as [|a r]; [simpl in H; lia|].
  replace (String.length (CLib.take_token (String a r)) <? 128)%nat with false
    by (symmetry; apply Nat.ltb_ge; exact H).
  reflexivity.
Qed.

Lemma munge_name_shape (c : gmap string string) (n : string) :
  (exists c', munge_name c n = ([], Ok c')) \/
  munge_name c n = ([], Stop Undefined).
Proof.
  unfold munge_name. destruct (CLib.sscanf_s 128 n) as [|tok|]; [left | | right];
    [eexists; reflexivity | | reflexivity].
  destruct (negb (String.eqb n tok)); left; eexists; reflexivity.
Qed.

(** A header whose first word has 128 characters or more makes the scan
    in [parseReferenceSequences] write past its buffer, whatever the
    other headers are. *)
Theorem parseReferenceSequences_overrun (w : World) (file : string) (n : string) :
  n ∈ stHash_getKeys w (fastaReadToMap w file) ->
  (128 <= String.length (CLib.take_token (CLib.skip_space n)))%nat ->
  (parseReferenceSequences w file).2 = Stop Undefined.
Proof.
  unfold parseReferenceSequences.
  generalize (stHash_getKeys w (fastaReadToMap w file)) as keys.
  generalize (fastaReadToMap w file) as c.
  intros c keys Hin Hlong. revert c.
  induction keys as [|a keys IH]; intros c; [inversion Hin|].
  simpl. apply elem_of_cons in Hin as [<- | Hin].
  - rewrite munge_name_overrun by exact Hlong. reflexivity.
  - destruct (munge_name_shape c a) as [(c' & E) | E]; rewrite E.
    + rewrite bind_Ok. cbn [snd]. apply IH. exact Hin.
    + reflexivity.
Qed.

Lemma parseReferenceSequences_overrun_witness :
  (parseReferenceSequences Variants.long_name "ref.fa").2 = Stop Undefined.
Proof.
  apply (parseReferenceSequences_overrun Variants.long_name "ref.fa"
           Variants.name_of_130).
  - vm_compute. apply list_elem_of_here.
  - vm_compute. lia.
Defined.

(** ** The option loop *)

Ltac option_case_cases o :=
  destruct o as [k a]; unfold option_case, case_i, the_optarg;
  simpl CLib.key; simpl CLib.optarg;
  destruct k as [[] [] [] [] [] [] [] []]; cbv iota beta;
  try destruct a as [a|]; rewrite ?bind_ret, ?bind_Stop; cbv zeta;
  repeat match goal with
         | |- context [if ?c then _ else _] => destruct c eqn:?
         | |- context [match parse_featureType ?x with _ => _ end] =>
             destruct (parse_featureType x) eqn:?
         | |- context [match helenFeatureType ?x with _ => _ end] =>
             destruct (helenFeatureType x) eqn:?
         end;
  rewrite ?bind_ret, ?bind_Stop; unfold st_errAbort, stop, ret, emit, bind.

Lemma parse_featureType_chosen (a : string) (ft : HelenFeatureType) :
  parse_featureType a = Some ft -> ft <> HFEAT_NONE.
Proof.
  unfold parse_featureType.
  repeat match goal with
         | |- context [if ?c then _ else _] => destruct c
         end; intros H; inversion H; discriminate.
Qed.

(** What one pass through the [switch] leaves as it was, and what it
    keeps true. *)
Lemma option_case_keeps (w : World) (st : Opts) (o : CLib.opt) t st' :
  option_case w st o = (t, Ok st') ->
  (bamInFile st' = bamInFile st /\ referenceFastaFile st' = referenceFastaFile st /\
   paramsFile st' = paramsFile st) /\
  (validated st -> validated st') /\
  (helenFeatureType st <> HFEAT_NONE -> helenFeatureType st' <> HFEAT_NONE) /\
  (CLib.key o <> "F"%char -> helenFeatureType st' = helenFeatureType st) /\
  (CLib.key o = "F"%char ->
   exists a, CLib.optarg o = Some a /\ parse_featureType a = Some (helenFeatureType st')).
Proof.
  option_case_cases o; intros H; inversion H; subst; simpl in *;
    repeat match goal with
           | E : (_ <? _)%Z = false |- _ => apply Z.ltb_ge in E
           | E : (_ <=? _)%Z = false |- _ => apply Z.leb_gt in E
           end;
    (split; [auto|]); (split; [unfold validated; simpl; lia|]);
    (split; [first [congruence
                   | intros _; eapply parse_featureType_chosen; eassumption]|]);
    (split; [congruence|]);
    intros Hk; try discriminate Hk; eauto.
Qed.

Lemma option_turn_keeps (w : World) (st : Opts) (o : CLib.opt) t st' :
  option_turn w st o = (t, Ok st') -> option_case w st o = ([], Ok st').
Proof.
  intros H.
  destruct (option_turn_shape w st o)
    as [(x & E & E') | [(x & E & _) | [(x & E) | (x & E & _)]]];
    rewrite E in H; inversion H; subst. exact E'.
Qed.

Lemma options_loop (w : World) (opts : list CLib.opt) :
  forall st t r,
    foldM (option_turn w) st opts = (t, r) ->
    match r with
    | Ok st' =>
        t = [] /\
        (bamInFile st' = bamInFile st /\
         referenceFastaFile st' = referenceFastaFile st /\
         paramsFile st' = paramsFile st) /\
        (validated st -> validated st')
    | Stop out =>
        (out = Return 0 /\ (t = [EvUsage] \/ t = [EvGetoptError; EvUsage])) \/
        (out = Return 1 /\ exists a, t = [EvUnrecognizedFeatureType a; EvUsage]) \/
        (t = [] /\ ((exists msg, out = Abort msg) \/ out = Undefined))
    end.
Proof.
  induction opts as [|o opts IH]; intros st t r H; simpl in H.
  - inversion H; subst. auto.
  - apply bind_inv in H as [(out & E & ->) | (t1 & st1 & t2 & E & H & ->)].
    + destruct (option_turn_shape w st o)
        as [(x & E' & _) | [(x & E' & Ht) | [(x & E') | (x & E' & Hout)]]];
        rewrite E' in E; inversion E; subst; eauto 6.
    + assert (t1 = []) as ->.
      { destruct (option_turn_shape w st o)
          as [(x & E' & _) | [(x & E' & _) | [(x & E') | (x & E' & _)]]];
          rewrite E' in E; inversion E; reflexivity. }
      apply option_turn_keeps in E.
      pose proof (option_case_keeps _ _ _ _ _ E) as ((Hb & Hf & Hp) & Hv & _).
      apply IH in H. destruct r as [st'|out]; simpl.
      * destruct H as (-> & (Hb' & Hf' & Hp') & Hv').
        split; [reflexivity|]. split; [repeat split; congruence|].
        intros Hst. apply Hv', Hv, Hst.
      * exact H.
Qed.

(** Whatever options follow them, the three inputs of a run are the
    first three arguments of the command line. *)
Theorem read_command_line_inputs (b : Build) (w : World)
    (prog bam ref params : string) (options : list string) t st :
  read_command_line b w (prog :: bam :: ref :: params :: options) = (t, Ok st) ->
  bamInFile st = bam /\ referenceFastaFile st = ref /\ paramsFile st = params.
Proof.
  unfold read_command_line, parse_options. intros H.
  apply options_loop in H as (_ & H & _). exact H.
Qed.

Lemma read_command_line_inputs_witness :
  exists st,
    read_command_line std Sample.world
      (Sample.argv ["-o"; "out"; "--depth"; "30"; "-f"]) = ([], Ok st) /\
    bamInFile st = "in.bam" /\ referenceFastaFile st = "ref.fa" /\
    paramsFile st = "params.json".
Proof.
  eexists. split; [vm_compute; reflexivity|].
  eapply (read_command_line_inputs std Sample.world "marginPolish" "in.bam" "ref.fa"
            "params.json" ["-o"; "out"; "--depth"; "30"; "-f"]).
  vm_compute. reflexivity.
Defined.



(** The usage text comes last, after at most one diagnostic, and is
    followed by a [return]. *)
Lemma read_command_line_stops (b : Build) (w : World) (argv : list string) t out :
  read_command_line b w argv = (t, Stop out) ->
  (out = Return 0 /\ (t = [EvUsage] \/ t = [EvGetoptError; EvUsage])) \/
  (out = Return 1 /\ exists a, t = [EvUnrecognizedFeatureType a; EvUsage]) \/
  (t = [] /\ ((exists msg, out = Abort msg) \/ out = Undefined)).
Proof.
  unfold read_command_line.
  destruct argv as [|a0 [|a1 [|a2 [|a3 rest]]]];
    try (intros H; inversion H; subst; auto).
  unfold parse_options in H. apply options_loop in H. exact H.
Qed.

(** ** Runs of [main] as a whole *)

Lemma polish_and_merge_no_usage (w : World) (s : Startup) (chunks : list BamChunk) :
  emits (fun e => e <> EvUsage) (polish_and_merge w s chunks).
Proof.
  unfold polish_and_merge. cbv zeta. apply emits_bind.
  - unfold polish_chunks, polish_chunk, dump. repeat emits_call; discriminate.
  - intros res. apply emits_bind; [|intros; apply emits_ret].
    destruct (diploid (su_opts s)).
    + unfold handleDiploidMerge. destruct chunks; [apply emits_stop|].
      eapply emits_weaken; [|apply diploid_merge_loop_emits].
      intros e (n & sq & [-> | ->]); discriminate.
    + unfold handleMerge. destruct chunks; [apply emits_stop|].
      eapply emits_weaken; [|apply merge_loop_emits].
      intros e (n & sq & ->); discriminate.
Qed.

(** The last stage: polishing first, without a contig written; then
    the contigs and nothing else, followed by [return 0]. *)
Lemma polish_and_merge_split (w : World) (s : Startup) (chunks : list BamChunk) :
  chunks <> [] ->
  exists tp tm,
    (polish_and_merge w s chunks).1 = tp ++ tm /\
    Forall (fun e => is_write e = false) tp /\
    Forall (fun e => is_write e = true) tm /\
    ((polish_and_merge w s chunks).2 = Ok 0%Z \/
     (tm = [] /\ exists o, (polish_and_merge w s chunks).2 = Stop o /\ not_return o)).
Proof.
  intros Hne. unfold polish_and_merge. cbv zeta.
  pose proof (polish_chunks_emits w (su_opts s) (su_params s) (su_reference s) chunks
                (make_chunkOrder w (su_params s) (length chunks))) as He.
  pose proof (polish_chunks_stops w (su_opts s) (su_params s) (su_reference s) chunks
                (make_chunkOrder w (su_params s) (length chunks))) as Hs.
  unfold emits in He. unfold stops_with in Hs.
  destruct (polish_chunks w (su_opts s) (su_params s) (su_reference s) chunks
              (make_chunkOrder w (su_params s) (length chunks))) as [t [res|o]];
    cbn [fst snd] in *.
  2:{ rewrite bind_Stop. exists t, []. rewrite app_nil_r.
      split; [reflexivity|]. split; [|split; [constructor|]].
      - eapply Forall_impl; [exact He|]. intros e (_ & _ & H).
        destruct e; try reflexivity. exfalso. eapply H. reflexivity.
      - right. split; [reflexivity|]. exists o. split; [reflexivity | exact Hs]. }
  rewrite bind_Ok. cbn [fst snd].
  assert (Hm : exists tm,
             (if diploid (su_opts s)
              then handleDiploidMerge w chunks res (polishedReferenceOutFile (su_opts s))
                     (polishedReferenceOutFileH2 (su_opts s))
              else handleMerge w chunks (chunkResults res)
                     (polishedReferenceOutFile (su_opts s))) = (tm, Ok tt) /\
             Forall (fun e => is_write e = true) tm).
  { destruct chunks as [|c0 rest]; [contradiction|].
    destruct (diploid (su_opts s)).
    - unfold handleDiploidMerge.
      pose proof (diploid_merge_loop_emits w res (polishedReferenceOutFile (su_opts s))
                    (polishedReferenceOutFileH2 (su_opts s)) rest 1 0 (refSeqName c0)) as Hw.
      pose proof (diploid_merge_loop_Ok w res (polishedReferenceOutFile (su_opts s))
                    (polishedReferenceOutFileH2 (su_opts s)) rest 1 0 (refSeqName c0)) as Hr.
      unfold emits in Hw.
      destruct (diploid_merge_loop w res (polishedReferenceOutFile (su_opts s))
                  (polishedReferenceOutFileH2 (su_opts s)) rest 1 0 (refSeqName c0))
        as [tm r]. cbn [fst snd] in *. subst r. exists tm. split; [reflexivity|].
      eapply Forall_impl; [exact Hw|]. intros e (n & sq & [-> | ->]); reflexivity.
    - unfold handleMerge.
      pose proof (merge_loop_emits w (chunkResults res)
                    (polishedReferenceOutFile (su_opts s)) rest 1 0 (refSeqName c0)) as Hw.
      pose proof (proj1 (merge_loop_spec w (chunkResults res)
                    (polishedReferenceOutFile (su_opts s)) rest 1 0 (refSeqName c0))) as Hr.
      unfold emits in Hw.
      destruct (merge_loop w (chunkResults res) (polishedReferenceOutFile (su_opts s))
                  rest 1 0 (refSeqName c0)) as [tm r].
      cbn [fst snd] in *. subst r. exists tm. split; [reflexivity|].
      eapply Forall_impl; [exact Hw|]. intros e (n & sq & ->); reflexivity. }
  destruct Hm as (tm & -> & Hw). rewrite bind_Ok. unfold ret. cbn [fst snd].
  rewrite app_nil_r. exists t, tm. split; [reflexivity|]. split; [|split; [exact Hw|]].
  - eapply Forall_impl; [exact He|]. intros e (_ & _ & H).
    destruct e; try reflexivity. exfalso. eapply H. reflexivity.
  - left. reflexivity.
Qed.

(** A run that prints the usage text does no work.  Its trace ends
    with the usage text, and what comes before is at most one line: the
    diagnostic of [getopt_long], and then [main] returns 0, or the
    message for an unknown feature type, and then [main] returns 1. *)
Theorem main_usage_alone (b : Build) (w : World) (argv : list string) :
  EvUsage ∈ (main b w argv).1 ->
  ((main b w argv).2 = Return 0 /\
   ((main b w argv).1 = [EvUsage] \/ (main b w argv).1 = [EvGetoptError; EvUsage])) \/
  ((main b w argv).2 = Return 1 /\
   exists a, (main b w argv).1 = [EvUnrecognizedFeatureType a; EvUsage]).
Proof.
  intros Hin.
  destruct (main_cases b w argv) as [t o E0 Em | st t o E0 E1 Em
                                    | st t s E0 E1 E2 Em | st t s chunks E0 E1 E2 Hne Em];
    rewrite Em in *; cbn [fst snd] in *.
  - destruct (read_command_line_stops _ _ _ _ _ E0) as [H | [H | (-> & _)]].
    + left. exact H.
    + right. exact H.
    + inversion Hin.
  - pose proof (startup_emits b w st) as He.
    unfold emits in He. rewrite E1 in He. simpl in He.
    rewrite Forall_forall in He. apply He in Hin as (p & Hp). discriminate.
  - exfalso. apply elem_of_app in Hin as [Hin | Hin].
    + pose proof (startup_emits b w st) as He.
      unfold emits in He. rewrite E1 in He. simpl in He.
      rewrite Forall_forall in He. apply He in Hin as (p & Hp). discriminate.
    + apply list_elem_of_singleton in Hin. discriminate.
  - exfalso. apply elem_of_app in Hin as [Hin | Hin].
    + pose proof (startup_emits b w st) as He.
      unfold emits in He. rewrite E1 in He. simpl in He.
      rewrite Forall_forall in He. apply He in Hin as (p & Hp). discriminate.
    + apply elem_of_cons in Hin as [Hin | Hin]; [discriminate|].
      pose proof (polish_and_merge_no_usage w s chunks) as He.
      unfold emits in He. rewrite Forall_forall in He.
      exact (He _ Hin eq_refl).
Qed.

Lemma main_usage_alone_witness :
  (main std Sample.world (Sample.argv ["-o"; "out"; "--help"; "-p"; "-3"])).2 = Return 0.
Proof.
  destruct (main_usage_alone std Sample.world
              (Sample.argv ["-o"; "out"; "--help"; "-p"; "-3"])) as [[H _] | [H _]].
  - vm_compute. apply list_elem_of_here.
  - exact H.
  - discriminate H.
Defined.

(** [main] returns 0 or 1, and 1 only from the option loop, after the
    message for an unknown feature type and the usage text, with
    nothing else done. *)
Theorem main_return_codes (b : Build) (w : World) (argv : list string) (code : Z) :
  (main b w argv).2 = Return code ->
  code = 0 \/
  (code = 1 /\ exists a, (main b w argv).1 = [EvUnrecognizedFeatureType a; EvUsage]).
Proof.
  destruct (main_cases b w argv) as [t o E0 Em | st t o E0 E1 Em
                                    | st t s E0 E1 E2 Em | st t s chunks E0 E1 E2 Hne Em];
    rewrite Em; cbn [fst snd]; intros H.
  - subst o.
    destruct (read_command_line_stops _ _ _ _ _ E0)
      as [(H & _) | [(H & Ht) | (-> & [(msg & H) | H])]]; inversion H; auto.
  - subst o. pose proof (startup_stops b w st) as Hs. unfold stops_with in Hs.
    rewrite E1 in Hs. exfalso. exact (Hs code eq_refl).
  - discriminate.
  - destruct (polish_and_merge_split w s chunks Hne)
      as (tp & tm & _ & _ & _ & [Hr | (_ & o & Hr & Hn)]); rewrite Hr in H; simpl in H.
    + inversion H. auto.
    + subst o. exfalso. exact (Hn code eq_refl).
Qed.

Lemma main_return_codes_witness :
  (main std Sample.world (Sample.argv ["-F"; "bogus"])).1
  = [EvUnrecognizedFeatureType "bogus"; EvUsage].
Proof.
  destruct (main_return_codes std Sample.world (Sample.argv ["-F"; "bogus"]) 1)
    as [H | [_ [a H]]].
  - vm_compute. reflexivity.
  - discriminate H.
  - rewrite H. vm_compute in H. exact (eq_sym H).
Defined.

(** Contigs are written last and all or none: a run that writes a
    contig returns 0, and in its trace nothing follows the first contig
    but further contigs. *)
Theorem main_writes_last (b : Build) (w : World) (argv : list string)
    (path name sequence : string) :
  EvFastaWrite path name sequence ∈ (main b w argv).1 ->
  (main b w argv).2 = Return 0 /\
  exists before contigs,
    (main b w argv).1 = before ++ contigs /\
    Forall (fun e => is_write e = false) before /\
    Forall (fun e => is_write e = true) contigs.
Proof.
  intros Hin.
  assert (Hst : forall st t r, startup b w st = (t, r) ->
                               Forall (fun e => is_write e = false) t).
  { intros st t r E. pose proof (startup_emits b w st) as He.
    unfold emits in He. rewrite E in He. simpl in He.
    eapply Forall_impl; [exact He|]. intros e (p & ->). reflexivity. }
  destruct (main_cases b w argv) as [t o E0 Em | st t o E0 E1 Em
                                    | st t s E0 E1 E2 Em | st t s chunks E0 E1 E2 Hne Em];
    rewrite Em in *; cbn [fst snd] in *.
  - exfalso.
    destruct (read_command_line_stops _ _ _ _ _ E0)
      as [(_ & [-> | ->]) | [(_ & a & ->) | (-> & _)]];
      repeat (apply elem_of_cons in Hin as [Hin | Hin]; [discriminate|]);
      inversion Hin.
  - exfalso. pose proof (Hst _ _ _ E1) as Hf. rewrite Forall_forall in Hf.
    apply Hf in Hin. discriminate.
  - exfalso. apply elem_of_app in Hin as [Hin | Hin].
    + pose proof (Hst _ _ _ E1) as Hf. rewrite Forall_forall in Hf.
      apply Hf in Hin. discriminate.
    + apply list_elem_of_singleton in Hin. discriminate.
  - destruct (polish_and_merge_split w s chunks Hne)
      as (tp & tm & Et & Hp & Hm & Hr).
    rewrite Et in *.
    assert (Hb : Forall (fun e => is_write e = false)
                   (t ++ EvChunkerSetUp (length chunks) :: tp)).
    { apply Forall_app. split; [exact (Hst _ _ _ E1)|].
      constructor; [reflexivity | exact Hp]. }
    split.
    + destruct Hr as [-> | (-> & _)]; [reflexivity|]. exfalso.
      rewrite app_nil_r in Hin. rewrite Forall_forall in Hb.
      apply Hb in Hin. discriminate.
    + exists (t ++ EvChunkerSetUp (length chunks) :: tp), tm.
      split; [rewrite <- app_assoc; reflexivity|]. split; [exact Hb | exact Hm].
Qed.

Lemma main_writes_last_witness :
  (main std Sample.world (Sample.argv ["-o"; "out"])).2 = Return 0.
Proof.
  apply (main_writes_last std Sample.world (Sample.argv ["-o"; "out"])
           "out.fa" "contig1" "ACGTACGT").
  vm_compute. do 4 apply list_elem_of_further. apply list_elem_of_here.
Defined.

(** ** The output files and what is written to them *)

Lemma filter_no_write (t : list Event) :
  Forall (fun e => is_write e = false) t -> List.filter is_write t = [].
Proof.
  induction 1 as [|e t He _ IH]; [reflexivity|]. simpl. rewrite He. exact IH.
Qed.

Lemma filter_all_writes (t : list Event) :
  Forall (fun e => is_write e = true) t -> List.filter is_write t = t.
Proof.
  induction 1 as [|e t He _ IH]; [reflexivity|]. simpl. rewrite He, IH. reflexivity.
Qed.

Lemma assembly_writes_are_writes w st chunks res :
  Forall (fun e => is_write e = true) (assembly_writes w st chunks res).
Proof.
  unfold assembly_writes. destruct chunks as [|c0 rest]; [constructor|].
  cbv zeta. generalize (contig_ranges rest 1 0 (refSeqName c0)) as ranges.
  destruct (diploid st); induction ranges as [|r ranges IH]; simpl;
    repeat (constructor; [reflexivity|]); try exact IH; constructor.
Qed.

Lemma assembly_writes_keep w st st' chunks res :
  outputBase st' = outputBase st -> diploid st' = diploid st ->
  assembly_writes w st' chunks res = assembly_writes w st chunks res.
Proof. unfold assembly_writes. intros -> ->. reflexivity. Qed.

(** The last stage, when it returns: the trace of the chunk loop, which
    writes no contig, and then the assembly made from its result
    arrays. *)
Lemma polish_and_merge_assembly (w : World) (s : Startup) (chunks : list BamChunk) c :
  (polish_and_merge w s chunks).2 = Ok c ->
  exists tp res,
    polish_chunks w (su_opts s) (su_params s) (su_reference s) chunks
      (make_chunkOrder w (su_params s) (length chunks)) = (tp, Ok res) /\
    Forall (fun e => is_write e = false) tp /\
    (polish_and_merge w s chunks).1 = tp ++ assembly_writes w (su_opts s) chunks res.
Proof.
  unfold polish_and_merge. cbv zeta.
  pose proof (polish_chunks_emits w (su_opts s) (su_params s) (su_reference s) chunks
                (make_chunkOrder w (su_params s) (length chunks))) as He.
  unfold emits in He.
  destruct (polish_chunks w (su_opts s) (su_params s) (su_reference s) chunks
              (make_chunkOrder w (su_params s) (length chunks))) as [tp [res|o]];
    [|rewrite bind_Stop; discriminate].
  rewrite bind_Ok. cbn [fst snd] in *. intros H.
  exists tp, res. split; [reflexivity|]. split.
  { eapply Forall_impl; [exact He|]. intros e (_ & _ & Hw).
    destruct e; try reflexivity. exfalso. eapply Hw. reflexivity. }
  f_equal. unfold assembly_writes, handleMerge, handleDiploidMerge,
    polishedReferenceOutFile, polishedReferenceOutFileH2 in *.
  destruct chunks as [|c0 rest].
  { destruct (diploid (su_opts s)); cbv [bind stop snd] in H; discriminate. }
  destruct (diploid (su_opts s)).
  - rewrite diploid_merge_loop_ranges, bind_Ok. cbn [fst snd]. unfold ret.
    cbn [fst snd]. rewrite app_nil_r. reflexivity.
  - rewrite merge_loop_ranges, bind_Ok. cbn [fst snd]. unfold ret.
    cbn [fst snd]. rewrite app_nil_r. reflexivity.
Qed.

(** C9 (the claim fails on the code for the flag it names).  The
    character 2 is missing from the option string of [getopt_long], so
    [-2] is answered like an unknown option: diagnostic, usage text,
    [return 0], with no file opened or written; diploid mode is reached
    through [--diploid] only.  For the mode that the options leave (the
    variable [diploid]) and the output base [BASE] they leave, the claim
    holds: the only files opened and written are [BASE.fa], or
    [BASE.h1.fa] and [BASE.h2.fa]; a run that returns 0 has opened
    exactly these, and the contigs it has written are, in order, the
    polished assembly: the merge of the result slots of each contig, made
    from the arrays that the chunk loop left, the first haplotype to the
    first file and the second to the second. *)
Theorem C9_output_file_names (b : Build) (w : World) :
  (forall base,
      main b w (Sample.argv ["-o"; base; "-2"]) = ([EvGetoptError; EvUsage], Return 0)) /\
  (forall argv t st,
      read_command_line b w argv = (t, Ok st) ->
      (forall p, p ∈ opened_files (main b w argv).1 \/
                 p ∈ fasta_files (main b w argv).1 ->
                 p ∈ assembly_files st) /\
      ((main b w argv).2 = Return 0 ->
       opened_files (main b w argv).1 = assembly_files st /\
       exists t0 s tp res,
         startup b w st = (t0, Ok s) /\
         let chunks := bamChunker_construct2 w (bamInFile (su_opts s))
                         (regionStr (su_opts s)) (su_params s) in
         polish_chunks w (su_opts s) (su_params s) (su_reference s) chunks
           (make_chunkOrder w (su_params s) (length chunks)) = (tp, Ok res) /\
         List.filter is_write (main b w argv).1 = assembly_writes w st chunks res)).
Proof.
  split.
  { intros base. destruct b as [[] ?]; reflexivity. }
  intros argv t st E.
  destruct (main_files b w argv t st E) as [HA HB].
  assert (Hfiles : out_files st = assembly_files st).
  { unfold out_files, assembly_files, polishedReferenceOutFile,
      polishedReferenceOutFileH2. destruct (diploid st); reflexivity. }
  rewrite Hfiles in HA, HB. split; [exact HA|].
  intros Hr. split; [exact (proj1 (HB Hr))|].
  destruct (main_cases b w argv) as [t' o E0 Em | st' t1 o E0 E1 Em
                                    | st' t1 s E0 E1 E2 Em
                                    | st' t1 s chunks E0 E1 E2 Hne Em];
    rewrite E in E0; [discriminate | | |];
    (assert (st' = st) by congruence); subst st'; clear E0;
    rewrite Em in Hr |- *; cbn [fst snd] in Hr |- *.
  - subst o. pose proof (startup_stops b w st) as Hs. unfold stops_with in Hs.
    rewrite E1 in Hs. exfalso. exact (Hs 0 eq_refl).
  - discriminate.
  - destruct ((polish_and_merge w s chunks).2) as [c|o] eqn:Er.
    2:{ pose proof (polish_and_merge_stops w s chunks) as Hst.
        unfold stops_with in Hst. rewrite Er in Hst. simpl in Hr. subst o.
        exfalso. exact (Hst 0 eq_refl). }
    destruct (polish_and_merge_assembly w s chunks c Er) as (tp & res & Ep & Hp & Et).
    destruct (startup_inv _ _ _ _ _ E1) as [HF Hs].
    destruct (Hs s eq_refl) as (Hb & Hd & _).
    exists t1, s, tp, res. split; [exact E1|]. cbv zeta. rewrite E2.
    split; [exact Ep|].
    rewrite Et, List.filter_app. simpl. rewrite List.filter_app.
    rewrite (filter_no_write tp Hp), (filter_all_writes _ (assembly_writes_are_writes _ _ _ _)).
    rewrite filter_no_write.
    + simpl. apply assembly_writes_keep; assumption.
    + eapply Forall_impl; [exact HF|]. intros e [-> | [_ ->]]; reflexivity.
Qed.

(** The diploid sample run with [--diploid -o out]: [out.h1.fa] and
    [out.h2.fa] are opened, and the one contig is written to each, the
    second haplotype in its own version. *)
Lemma C9_output_file_names_witness :
  opened_files (main std Sample.world (Sample.argv ["--diploid"; "-o"; "out"])).1
    = ["out.h1.fa"; "out.h2.fa"] /\
  List.filter is_write (main std Sample.world (Sample.argv ["--diploid"; "-o"; "out"])).1
    = [EvFastaWrite "out.h1.fa" "contig1" "ACGTACGT";
       EvFastaWrite "out.h2.fa" "contig1" "acgtacgt"].
Proof.
  destruct (proj2 (C9_output_file_names std Sample.world)
              (Sample.argv ["--diploid"; "-o"; "out"]) []
              (Set_.outputBase "out"
                 (Set_.diploid true (initial_opts "in.bam" "ref.fa" "params.json")))
              eq_refl) as [_ H].
  destruct (H eq_refl) as (Ho & _).
  split; [exact Ho | vm_compute; reflexivity].
Defined.

(** ** The index beside the alignment file *)







(** ** The checks before the output files are opened *)

Lemma diploid_sanity_fields (w : World) (st : Opts) :
  (exists st', diploid_sanity w st = ([], Ok st') /\
               bamInFile st' = bamInFile st /\
               referenceFastaFile st' = referenceFastaFile st /\
               paramsFile st' = paramsFile st /\
               helenFeatureType st' = helenFeatureType st) \/
  (exists msg, diploid_sanity w st = ([], Stop (Abort msg))).
Proof.
  unfold diploid_sanity, ret, st_errAbort, stop.
  destruct (diploid st); [destruct (trueReferenceBam st) |];
    [destruct (stString_splitByString w s ",") as [|p0 [|p1 [|p2 ps]]] | |];
    first [left; eexists; split; [reflexivity|]; simpl; auto
          | right; eexists; reflexivity].
Qed.

Lemma sanity_check_unreadable (w : World) (st : Opts) :
  readable w (bamInFile st) = false \/
  readable w (referenceFastaFile st) = false \/
  readable w (paramsFile st) = false ->
  sanity_check w st = ([], Stop (Abort "Could not read from file")).
Proof.
  unfold sanity_check.
  destruct (readable w (bamInFile st)), (readable w (referenceFastaFile st)),
    (readable w (paramsFile st)); simpl negb; cbv iota;
    intros [H | [H | H]]; try discriminate H; reflexivity.
Qed.

(** When the alignment file, the reference or the parameter file cannot
    be read, the run aborts with nothing done: no output file is opened
    and no chunker is set up. *)
Theorem main_unreadable_input (b : Build) (w : World)
    (prog bam ref params : string) (options : list string) t st :
  read_command_line b w (prog :: bam :: ref :: params :: options) = (t, Ok st) ->
  readable w bam = false \/ readable w ref = false \/ readable w params = false ->
  (main b w (prog :: bam :: ref :: params :: options)).1 = [] /\
  exists msg, (main b w (prog :: bam :: ref :: params :: options)).2 = Abort msg.
Proof.
  intros E Hun.
  pose proof (read_command_line_Ok _ _ _ _ _ E) as ->.
  pose proof E as E'. apply options_loop in E' as (_ & (Hb & Hf & Hp) & _).
  simpl in Hb, Hf, Hp.
  unfold main, run. rewrite E, bind_Ok. cbn [fst snd app].
  unfold startup.
  destruct (diploid_sanity_fields w st)
    as [(st1 & -> & Hb1 & Hf1 & Hp1 & _) | (msg & ->)].
  - rewrite bind_Ok, sanity_check_unreadable
      by (rewrite Hb1, Hf1, Hp1, Hb, Hf, Hp; exact Hun).
    rewrite !bind_Stop. split; [reflexivity | eexists; reflexivity].
  - rewrite !bind_Stop. split; [reflexivity | eexists; reflexivity].
Qed.

Lemma main_unreadable_input_witness :
  (main std Sample.world ["marginPolish"; "in.bam"; "missing.fa"; "params.json"]).1 = [].
Proof.
  refine (proj1 (main_unreadable_input std Sample.world "marginPolish" "in.bam"
                   "missing.fa" "params.json" [] [] _ _ _)).
  - vm_compute. reflexivity.
  - right. left. reflexivity.
Defined.

(** What [startup] hands on, in terms of its steps. *)
Lemma startup_Ok (b : Build) (w : World) (st : Opts) t s :
  startup b w st = (t, Ok s) ->
  exists st1,
    diploid_sanity w st = ([], Ok st1) /\
    su_opts s = feature_init (thread_init b st1) /\
    su_params s = read_params w (su_opts s) /\
    parseReferenceSequences w (referenceFastaFile (su_opts s)) = ([], Ok (su_reference s)).
Proof.
  intros H. unfold startup in H.
  apply bind_inv in H as [(o & _ & Ho) | (t1 & st1 & t2 & E1 & H & ->)]; [discriminate|].
  pose proof (silent_nil _ (diploid_sanity_silent w st)) as Hn.
  rewrite E1 in Hn. simpl in Hn. subst t1.
  apply bind_inv in H as [(o & _ & Ho) | (t1 & [] & t3 & _ & H & ->)]; [discriminate|].
  cbv zeta in H.
  apply bind_inv in H as [(o & _ & Ho) | (t4 & [] & t5 & _ & H & ->)]; [discriminate|].
  apply bind_inv in H as [(o & _ & Ho) | (t6 & refs & t7 & E2 & H & ->)]; [discriminate|].
  pose proof (silent_nil _ (parseReferenceSequences_silent w
                              (referenceFastaFile (feature_init (thread_init b st1))))) as Hn.
  rewrite E2 in Hn. simpl in Hn. subst t6.
  apply bind_inv in H as [(o & _ & Ho) | (t8 & [] & t9 & _ & H & ->)]; [discriminate|].
  unfold ret in H. inversion H; subst. simpl. exists st1. auto.
Qed.

Lemma feature_init_chosen (st : Opts) :
  helenFeatureType st <> HFEAT_NONE ->
  helenFeatureType (feature_init st) = helenFeatureType st.
Proof.
  unfold feature_init.
  destruct (helenFeatureType st) eqn:E1; [congruence| | | |]; intros _;
    cbv iota; rewrite E1; cbv iota;
    destruct (splitWeightMaxRunLength st =? 0)%Z; simpl; auto.
Qed.

Lemma thread_init_feature (b : Build) (st : Opts) :
  helenFeatureType (thread_init b st) = helenFeatureType st.
Proof.
  unfold thread_init. destruct (OPENMP b), (numThreads st <=? 0)%Z; reflexivity.
Qed.

Lemma options_loop_feature (w : World) (opts : list CLib.opt) :
  forall st t st',
    foldM (option_turn w) st opts = (t, Ok st') ->
    Forall (fun o => CLib.key o <> "F"%char) opts ->
    helenFeatureType st' = helenFeatureType st.
Proof.
  induction opts as [|o opts IH]; intros st t st' H HF; simpl in H.
  - inversion H; reflexivity.
  - apply bind_inv in H as [(out & _ & Ho) | (t1 & st1 & t2 & E & H & ->)];
      [discriminate|].
    apply Forall_cons in HF as [Hk HF]. apply option_turn_keeps in E.
    pose proof (option_case_keeps _ _ _ _ _ E) as (_ & _ & _ & Hsame & _).
    rewrite (IH _ _ _ H HF). apply Hsame. exact Hk.
Qed.

(** The feature type of a run is the one that the last [-F] of the
    command line names: no [-f] before or after it, and no step of the
    start-up, changes it. *)
Theorem featureType_last_wins (b : Build) (w : World) (argv : list string)
    (before after : list CLib.opt) (o : CLib.opt) t st t' s :
  read_command_line b w argv = (t, Ok st) ->
  CLib.getopt_long optstring (long_options b) (drop 3 argv) = before ++ o :: after ->
  CLib.key o = "F"%char ->
  Forall (fun o' => CLib.key o' <> "F"%char) after ->
  startup b w st = (t', Ok s) ->
  exists a, CLib.optarg o = Some a /\
            parse_featureType a = Some (helenFeatureType (su_opts s)).
Proof.
  intros E Hopts Hk Hafter Es.
  unfold read_command_line in E.
  destruct argv as [|a0 [|a1 [|a2 [|a3 rest]]]]; try discriminate.
  unfold parse_options in E. rewrite Hopts, foldM_app in E.
  apply bind_inv in E as [(out & _ & Ho) | (t1 & st1 & t2 & _ & E & _)];
    [discriminate|].
  simpl in E.
  apply bind_inv in E as [(out & _ & Ho) | (t3 & st2 & t4 & Eo & E & _)];
    [discriminate|].
  apply option_turn_keeps in Eo.
  pose proof (option_case_keeps _ _ _ _ _ Eo) as (_ & _ & _ & _ & HF).
  destruct (HF Hk) as (a & Ha & Hp).
  pose proof (options_loop_feature _ _ _ _ _ E Hafter) as Hsame.
  apply startup_Ok in Es as (st3 & Ed & Hs & _).
  destruct (diploid_sanity_fields w st) as [(st3' & Ed' & _ & _ & _ & Hft) | (msg & Ed')];
    rewrite Ed' in Ed; [|discriminate].
  inversion Ed; subst st3'.
  exists a. split; [exact Ha|].
  rewrite Hs, feature_init_chosen, thread_init_feature, Hft, Hsame; [exact Hp|].
  rewrite thread_init_feature, Hft, Hsame.
  eapply parse_featureType_chosen. exact Hp.
Qed.

Lemma featureType_last_wins_witness :
  exists s t',
    startup std Sample.world
      (Set_.setDefaultHelenFeature true
         (Set_.helenFeatureType HFEAT_CHANNEL_RLE_WEIGHT
            (initial_opts "in.bam" "ref.fa" "params.json"))) = (t', Ok s) /\
    helenFeatureType (su_opts s) = HFEAT_CHANNEL_RLE_WEIGHT.
Proof.
  eexists _, _. split; [vm_compute; reflexivity|].
  destruct (featureType_last_wins std Sample.world
              (Sample.argv ["-f"; "-F"; "split"; "-F"; "channel"; "-f"])
              [ {| CLib.key := "f"; CLib.optarg := None |};
                {| CLib.key := "F"; CLib.optarg := Some "split" |} ]
              [ {| CLib.key := "f"; CLib.optarg := None |} ]
              {| CLib.key := "F"; CLib.optarg := Some "channel" |}
              [] _ _ _ eq_refl eq_refl eq_refl
              ltac:(repeat constructor; discriminate) eq_refl)
    as (a & Ha & Hp).
  inversion Ha; subst a. vm_compute in Hp. inversion Hp. reflexivity.
Defined.

(** ** When the chunk loop reaches its end *)

Lemma polish_chunk_checks w st params refs chunks chunkOrder res i t res' :
  polish_chunk w st params refs chunks chunkOrder res i = (t, Ok res') ->
  exists chunkIdx bamChunk,
    chunkOrder !! i = Some chunkIdx /\
    chunks !! chunkIdx = Some bamChunk /\
    within_reference refs bamChunk /\
    Forall (fun f => writable w f = true) (dump_files st chunkIdx bamChunk).
Proof.
  unfold polish_chunk, within_reference, dump_files.
  cbv [bind ret stop st_errAbort emit when get dump
       bamChunk_getReferenceSubstring stString_getSubString].
  repeat (case_innermost; cbv beta iota zeta);
    intros H; inversion H; subst;
    repeat match goal with
           | E : (_ <? _)%Z = false |- _ => apply Z.ltb_ge in E
           | E : (_ <? _)%Z = true |- _ => apply Z.ltb_lt in E
           | E : (_ && _) = true |- _ => apply andb_true_iff in E as [? ?]
           | E : (_ <=? _)%Z = true |- _ => apply Z.leb_le in E
           end;
    eexists _, _; (split; [eauto|]); (split; [eauto|]);
    (split; [eexists; split; [eassumption|]; lia|]);
    simpl; repeat (constructor; [assumption|]); constructor.
Qed.

Lemma foldM_Ok_each {A S} (body : S -> A -> M S) (l : list A) :
  forall s t s', foldM body s l = (t, Ok s') ->
                 forall a, a ∈ l -> exists s0 t0 s1, body s0 a = (t0, Ok s1).
Proof.
  induction l as [|x l IH]; intros s t s' H a Ha; [inversion Ha|].
  simpl in H.
  apply bind_inv in H as [(o & _ & Ho) | (t1 & s1 & t2 & H1 & H2 & ->)];
    [discriminate|].
  apply elem_of_cons in Ha as [-> | Ha]; [eauto | eapply IH; eauto].
Qed.

(** Provided [stList_shuffle] permutes its list: a chunk loop that
    reaches its end has found, for every chunk of the chunker, the
    contig of the chunk in the reference, with bounds that lie in it
    (0 <= chunkBoundaryStart <= chunkBoundaryEnd, and chunkBoundaryStart
    not after the end of the contig), and has opened every dump file
    that the options ask for.  So a chunk that fails one of these keeps
    the run from reaching the merge. *)
Theorem polish_chunks_end (w : World) (st : Opts) (params : PolishParams)
    (refs : gmap string string) (chunks : list BamChunk) t res :
  (forall l, stList_shuffle w l ≡ₚ l) ->
  polish_chunks w st params refs chunks
    (make_chunkOrder w params (length chunks)) = (t, Ok res) ->
  forall chunkIdx bamChunk,
    chunks !! chunkIdx = Some bamChunk ->
    within_reference refs bamChunk /\
    Forall (fun f => writable w f = true) (dump_files st chunkIdx bamChunk).
Proof.
  intros Hs E j c Hj.
  pose proof (make_chunkOrder_perm w params (length chunks) Hs) as Hperm.
  unfold polish_chunks in E.
  assert (Hjs : j ∈ seq 0 (length chunks))
    by (apply elem_of_seq; apply lookup_lt_Some in Hj; lia).
  rewrite <- Hperm in Hjs. apply list_elem_of_lookup in Hjs as [i Hi].
  assert (His : i ∈ seq 0 (length chunks)).
  { apply elem_of_seq. apply lookup_lt_Some in Hi.
    rewrite (Permutation_length Hperm), length_seq in Hi. lia. }
  destruct (foldM_Ok_each _ _ _ _ _ E i His) as (s0 & t0 & s1 & Hb).
  apply polish_chunk_checks in Hb as (chunkIdx & bamChunk & Ho & Hc & Hw & Hd).
  assert (chunkIdx = j) by congruence. subst chunkIdx.
  assert (bamChunk = c) by congruence. subst bamChunk.
  split; assumption.
Qed.

(** The sample world with the repeat-count dumps asked for: both chunks
    lie on the one contig of a reference of eight bases, the loop
    reaches its end, and the dump file of the first chunk was opened. *)
Lemma polish_chunks_end_witness :
  within_reference {[ "contig1" := "ACGTACGT" ]} (Sample.chunk "contig1" 0 0 4 6) /\
  writable Sample.world "rc.repeatCount.C00000.contig1-0-6.tsv" = true.
Proof.
  assert (E : exists t res,
             polish_chunks Sample.world
               (Set_.outputRepeatCountBase (Some "rc")
                  (initial_opts "in.bam" "ref.fa" "params.json"))
               (params_readParams Sample.world "params.json")
               {[ "contig1" := "ACGTACGT" ]} Sample.chunks
               (make_chunkOrder Sample.world
                  (params_readParams Sample.world "params.json")
                  (length Sample.chunks)) = (t, Ok res))
    by (eexists _, _; vm_compute; reflexivity).
  destruct E as (t & res & E).
  destruct (polish_chunks_end Sample.world
              (Set_.outputRepeatCountBase (Some "rc")
                 (initial_opts "in.bam" "ref.fa" "params.json"))
              (params_readParams Sample.world "params.json")
              {[ "contig1" := "ACGTACGT" ]} Sample.chunks t res
              (fun l => Permutation_sym (Permutation_rev l)) E
              0%nat (Sample.chunk "contig1" 0 0 4 6) eq_refl) as [H1 H2].
  split; [exact H1|]. apply Forall_cons in H2 as [H2 _]. exact H2.
Defined.

(** ** What a run has checked when it sets up the chunker *)

Lemma diploid_sanity_inputs (w : World) (st : Opts) t st' :
  diploid_sanity w st = (t, Ok st') ->
  bamInFile st' = bamInFile st /\ referenceFastaFile st' = referenceFastaFile st /\
  paramsFile st' = paramsFile st /\ maxDepth st' = maxDepth st.
Proof.
  unfold diploid_sanity, ret, st_errAbort, stop.
  destruct (diploid st); [destruct (trueReferenceBam st) |];
    [destruct (stString_splitByString w s ",") as [|p0 [|p1 [|p2 ps]]] | |];
    intros H; inversion H; subst; simpl; auto.
Qed.



Lemma sanity_check_Ok (w : World) (st : Opts) t :
  sanity_check w st = (t, Ok tt) ->
  readable w (bamInFile st) = true /\ readable w (referenceFastaFile st) = true /\
  readable w (paramsFile st) = true.
Proof.
  unfold sanity_check.
  destruct (readable w (bamInFile st)), (readable w (referenceFastaFile st)),
    (readable w (paramsFile st)); simpl negb; cbv iota; rewrite ?bind_Stop;
    try discriminate; auto.
Qed.

Lemma startup_steps (b : Build) (w : World) (st : Opts) t s :
  startup b w st = (t, Ok s) ->
  exists st1,
    diploid_sanity w st = ([], Ok st1) /\
    sanity_check w st1 = ([], Ok tt) /\
    su_opts s = feature_init (thread_init b st1) /\
    su_params s = read_params w (su_opts s) /\
    rle_check (su_opts s) (su_params s) = ([], Ok tt) /\
    open_outputs w (su_opts s) = (t, Ok tt).
Proof.
  intros H. unfold startup in H.
  apply bind_inv in H as [(o & _ & Ho) | (t1 & st1 & t2 & E1 & H & ->)]; [discriminate|].
  pose proof (silent_nil _ (diploid_sanity_silent w st)) as Hn.
  rewrite E1 in Hn. simpl in Hn. subst t1.
  apply bind_inv in H as [(o & _ & Ho) | (t1 & [] & t3 & E2 & H & ->)]; [discriminate|].
  pose proof (silent_nil _ (sanity_check_silent w st1)) as Hn.
  rewrite E2 in Hn. simpl in Hn. subst t1.
  cbv zeta in H.
  apply bind_inv in H as [(o & _ & Ho) | (t4 & [] & t5 & E3 & H & ->)]; [discriminate|].
  pose proof (silent_nil _ (rle_check_silent (feature_init (thread_init b st1))
                              (read_params w (feature_init (thread_init b st1))))) as Hn.
  rewrite E3 in Hn. simpl in Hn. subst t4.
  apply bind_inv in H as [(o & _ & Ho) | (t6 & refs & t7 & E4 & H & ->)]; [discriminate|].
  pose proof (silent_nil _ (parseReferenceSequences_silent w
                              (referenceFastaFile (feature_init (thread_init b st1))))) as Hn.
  rewrite E4 in Hn. simpl in Hn. subst t6.
  apply bind_inv in H as [(o & _ & Ho) | (t8 & [] & t9 & E5 & H & ->)]; [discriminate|].
  unfold ret in H. inversion H; subst. simpl. rewrite app_nil_r.
  exists st1. auto 7.
Qed.

(** A run that gets as far as the chunker has found its three inputs
    readable and its output files writable, and its feature type
    agrees with the run-length encoding of the parameters: none, or
    the simple one without run lengths, or another one with them. *)
Theorem startup_has_checked (b : Build) (w : World) (st : Opts) t s :
  startup b w st = (t, Ok s) ->
  (readable w (bamInFile st) = true /\ readable w (referenceFastaFile st) = true /\
   readable w (paramsFile st) = true) /\
  Forall (fun p => writable w p = true) (out_files (su_opts s)) /\
  match helenFeatureType (su_opts s) with
  | HFEAT_NONE => True
  | HFEAT_SIMPLE_WEIGHT => Params.useRunLengthEncoding (su_params s) = false
  | _ => Params.useRunLengthEncoding (su_params s) = true
  end.
Proof.
  intros H. apply startup_steps in H as (st1 & Ed & Es & Ho & Hp & Er & Eo).
  apply diploid_sanity_inputs in Ed as (Hb & Hf & Hq & _).
  apply sanity_check_Ok in Es. rewrite Hb, Hf, Hq in Es.
  split; [exact Es|]. split.
  - clear Er. unfold open_outputs, out_files in *.
    unfold bind, emit, ret, st_errAbort, stop in Eo.
    destruct (writable w (polishedReferenceOutFile (su_opts s))) eqn:E1,
      (diploid (su_opts s)), (writable w (polishedReferenceOutFileH2 (su_opts s))) eqn:E2;
      simpl in Eo; try discriminate; repeat constructor; auto.
  - clear Eo. unfold rle_check in Er.
    destruct (helenFeatureType (su_opts s)); [exact I| | | |];
      destruct (Params.useRunLengthEncoding (su_params s)); simpl in Er;
      try discriminate; reflexivity.
Qed.

Lemma startup_has_checked_witness :
  exists t s,
    startup std Sample.world
      (Set_.helenFeatureType HFEAT_SPLIT_RLE_WEIGHT
         (initial_opts "in.bam" "ref.fa" "params.json")) = (t, Ok s) /\
    Params.useRunLengthEncoding (su_params s) = true.
Proof.
  eexists _, _. split; [vm_compute; reflexivity|].
  exact (proj2 (proj2 (startup_has_checked std Sample.world
                         (Set_.helenFeatureType HFEAT_SPLIT_RLE_WEIGHT
                            (initial_opts "in.bam" "ref.fa" "params.json"))
                         _ _ eq_refl))).
Defined.


